(** * The streaming tool-call rewriter of the proxy (package [downstream])

    A shallow embedding of [ToolCallTransformer] and of the helpers it
    calls: the five delimiter tokens, the chunk data model, the state
    machine of [processReasoning], the chunk builders and the identifier
    parsers, followed by the properties of the rewriter.  The request
    side of the proxy is embedded as far as it is pure: the API key
    helpers of [completions.go], [handler.go] and [upstream/client.go]
    and the header of the upstream request that [proxyAndRespond]
    builds.

    Modelling conventions.
    - A Go [string] is a sequence of bytes: [gostring := list ascii].
    - [strings.Index] returns [-1] when the substring is absent; here it
      returns [None], and [Some i] for the index [i >= 0].
    - Go [int]/[int64] values are [Z].  The one [int] the rewriter
      computes with is [toolIndex]: [t.toolIndex++] wraps around in two's
      complement ([wrapInt]), at the width [intBits] of the platform's
      [int] (32 or 64).
    - [json.Unmarshal] and [json.Marshal] are library code.  An upstream
      event is modelled by what decoding makes of it ([Upstream]) and an
      emitted SSE frame by the value that is marshalled ([SSE]), tagged
      with the function that built it.  A decoded chunk holds what the
      Go types declare and nothing else; what the two functions make of
      the document of a delta is modelled on JSON values ([decodeDelta],
      [encodeDelta]).
    - [time.Now().UnixMilli()] is an input of the program: [UnixMilli k] is
      the reading taken when the id of the call with index [k] is made
      up. *)

From Stdlib Require Import String Ascii DecimalString ZArith Lia Bool Arith List.
Import ListNotations.

Local Open Scope list_scope.

(** ** Go strings *)

Definition gostring := list ascii.

Definition str (s : string) : gostring := list_ascii_of_string s.

(** [strings.HasPrefix] *)
Fixpoint HasPrefix (s prefix : gostring) : bool :=
  match prefix, s with
  | [], _ => true
  | _ :: _, [] => false
  | p :: ps, c :: cs => Ascii.eqb c p && HasPrefix cs ps
  end.

(** [strings.Index]: the index of the first occurrence. *)
Fixpoint Index (s substr : gostring) {struct s} : option nat :=
  if HasPrefix s substr then Some 0
  else match s with
       | [] => None
       | _ :: s' => option_map S (Index s' substr)
       end.

(** [strings.LastIndex]: the index of the last occurrence. *)
Fixpoint LastIndex (s substr : gostring) {struct s} : option nat :=
  match s with
  | [] => if HasPrefix [] substr then Some 0 else None
  | _ :: s' =>
      match LastIndex s' substr with
      | Some i => Some (S i)
      | None => if HasPrefix s substr then Some 0 else None
      end
  end.

(** [strings.Contains] *)
Definition Contains (s substr : gostring) : bool :=
  match Index s substr with Some _ => true | None => false end.

(** [strings.TrimSpace] removes the leading and the trailing white-space
    runes of the UTF-8 text: the six of [asciiSpace] (tab, line feed,
    vertical tab, form feed, carriage return, space) and the other runes
    of [unicode.White_Space], which are encoded on two bytes (U+0085,
    U+00A0) or three (U+1680, U+2000 to U+200A, U+2028, U+2029, U+202F,
    U+205F, U+3000).  Bytes that do not decode to one of them stop the
    trimming. *)
Definition byteIs (c : ascii) (n : nat) : bool := nat_of_ascii c =? n.

Definition isSpace (c : ascii) : bool :=
  let n := nat_of_ascii c in
  ((9 <=? n) && (n <=? 13)) || (n =? 32).

Definition isSpace2 (b0 b1 : ascii) : bool :=
  byteIs b0 194 && (byteIs b1 133 || byteIs b1 160).

Definition isSpace3 (b0 b1 b2 : ascii) : bool :=
  let n2 := nat_of_ascii b2 in
  (byteIs b0 225 && byteIs b1 154 && byteIs b2 128) ||
  (byteIs b0 226 && byteIs b1 128 &&
     (((128 <=? n2) && (n2 <=? 138)) || (n2 =? 168) || (n2 =? 169) || (n2 =? 175))) ||
  (byteIs b0 226 && byteIs b1 129 && byteIs b2 159) ||
  (byteIs b0 227 && byteIs b1 128 && byteIs b2 128).

(** Leading white space removed, rune by rune. *)
Fixpoint trimLeft (s : gostring) : gostring :=
  match s with
  | [] => []
  | b0 :: r0 =>
      if isSpace b0 then trimLeft r0
      else match r0 with
           | [] => s
           | b1 :: r1 =>
               if isSpace2 b0 b1 then trimLeft r1
               else match r1 with
                    | [] => s
                    | b2 :: r2 => if isSpace3 b0 b1 b2 then trimLeft r2 else s
                    end
           end
  end.

(** Trailing white space removed, on the reversed text: the last rune is
    read backwards. *)
Fixpoint trimRev (s : gostring) : gostring :=
  match s with
  | [] => []
  | z :: r0 =>
      if isSpace z then trimRev r0
      else match r0 with
           | [] => s
           | y :: r1 =>
               if isSpace2 y z then trimRev r1
               else match r1 with
                    | [] => s
                    | x :: r2 => if isSpace3 x y z then trimRev r2 else s
                    end
           end
  end.

(** [strings.TrimSpace] *)
Definition TrimSpace (s : gostring) : gostring :=
  rev (trimRev (rev (trimLeft s))).

(** [%d] of [fmt.Sprintf] *)
Definition itoa (z : Z) : gostring :=
  str (NilZero.string_of_int (Z.to_int z)).

Definition isEmpty (s : gostring) : bool :=
  match s with [] => true | _ :: _ => false end.

(** ** Token alphabet *)

Definition tokSectionBegin : gostring := str "<|tool_calls_section_begin|>".
Definition tokCallBegin : gostring := str "<|tool_call_begin|>".
Definition tokArgBegin : gostring := str "<|tool_call_argument_begin|>".
Definition tokCallEnd : gostring := str "<|tool_call_end|>".
Definition tokSectionEnd : gostring := str "<|tool_calls_section_end|>".

Definition containsAnyToken (s : gostring) : bool :=
  Contains s (str "<|tool_call").

(** ** Data model *)

Inductive parserState :=
| stateIdle
| stateInSection
| stateReadingID
| stateReadingArgs
| stateTrailing.

Record Function := mkFunction {
  Name : gostring;
  Arguments : gostring
}.

Record ToolCall := mkToolCall {
  tcID : gostring;
  tcType : gostring;
  tcIndex : Z;
  tcFunction : Function
}.

Record Delta := mkDelta {
  Content : gostring;
  Reasoning : gostring;
  ReasoningContent : gostring;
  ToolCalls : list ToolCall;
  dFinishReason : option gostring
}.

Record Choice := mkChoice {
  cIndex : Z;
  cDelta : Delta;
  cFinishReason : option gostring
}.

Record Usage := mkUsage {
  PromptTokens : Z;
  CompletionTokens : Z
}.

Record Chunk := mkChunk {
  ID : gostring;
  Object : gostring;
  Model : gostring;
  Created : Z;
  Choices : list Choice;
  ChunkUsage : option Usage
}.

Record ToolCallTransformer := mkT {
  state : parserState;
  buf : gostring;
  toolIndex : Z;
  currentID : gostring
}.

(** What [Transform] receives, after [strings.TrimSpace] and
    [json.Unmarshal]: empty data, the literal [[DONE]], data that is not
    JSON, or a decoded chunk. *)
Inductive Upstream :=
| UpEmpty
| UpDone
| UpInvalid (s : gostring)
| UpChunk (c : Chunk).

(** The function that built an emitted JSON frame. *)
Inductive Origin :=
| Passthrough
| ContentChunk
| HeaderChunk
| ArgsDelta.

(** What [writeSSE] is given: [data: [DONE]], [data: <raw>] or
    [data: <json.Marshal c>]. *)
Inductive SSE :=
| DoneFrame
| RawFrame (s : gostring)
| JSONFrame (o : Origin) (c : Chunk).

Definition NewToolCallTransformer : ToolCallTransformer :=
  mkT stateIdle [] 0 [].

Definition emptyDelta : Delta := mkDelta [] [] [] [] None.

Definition setBuf (t : ToolCallTransformer) (b : gostring) : ToolCallTransformer :=
  mkT (state t) b (toolIndex t) (currentID t).

(** An [int] result reduced to [bits] bits, two's complement. *)
Definition wrapInt (bits : Z) (z : Z) : Z :=
  ((z + 2 ^ (bits - 1)) mod 2 ^ bits - 2 ^ (bits - 1))%Z.

Section Rewriter.

(** The clock, and the width of [int]. *)
Variable UnixMilli : Z -> Z.
Variable intBits : Z.

(** ** Identifier parsing *)

Definition parseToolCallID (raw : gostring) (index : Z) : gostring * gostring :=
  let raw := TrimSpace raw in
  if HasPrefix raw (str "call_") then (raw, [])
  else (str "call_" ++ itoa index ++ str "_" ++ itoa (UnixMilli index), raw).

Definition parseFunctionName (raw : gostring) : gostring :=
  let raw := TrimSpace raw in
  let raw := match Index raw (str ".") with
             | Some i => skipn (i + 1) raw
             | None => raw
             end in
  let raw := match LastIndex raw (str ":") with
             | Some i => firstn i raw
             | None => raw
             end in
  raw.

(** ** Chunk builders *)

(** [shallowCopy] reads [c.Choices[0]]: Go panics on an empty slice.  It is
    only reached from [processReasoning], which [processEvent] calls with a
    chunk that has a choice; on an empty slice the model returns [c]. *)
Definition shallowCopy (c : Chunk) : Chunk :=
  match Choices c with
  | [] => c
  | c0 :: _ =>
      mkChunk (ID c) (Object c) (Model c) (Created c)
              [mkChoice (cIndex c0) emptyDelta (cFinishReason c0)]
              (ChunkUsage c)
  end.

(** [c.Choices[0].Delta = d] *)
Definition setDelta0 (c : Chunk) (d : Delta) : Chunk :=
  match Choices c with
  | [] => c
  | c0 :: rest =>
      mkChunk (ID c) (Object c) (Model c) (Created c)
              (mkChoice (cIndex c0) d (cFinishReason c0) :: rest)
              (ChunkUsage c)
  end.

Definition emit (c : Chunk) : list SSE := [JSONFrame Passthrough c].

Definition makeContentChunk (base : Chunk) (content : gostring) : SSE :=
  JSONFrame ContentChunk
    (setDelta0 (shallowCopy base) (mkDelta content [] [] [] None)).

Definition makeToolCallHeader (t : ToolCallTransformer) (base : Chunk)
    (name : gostring) : SSE :=
  JSONFrame HeaderChunk
    (setDelta0 (shallowCopy base)
       (mkDelta [] [] []
          [mkToolCall (currentID t) (str "function") (toolIndex t)
             (mkFunction name [])]
          None)).

Definition makeArgsDelta (t : ToolCallTransformer) (base : Chunk)
    (args : gostring) : SSE :=
  JSONFrame ArgsDelta
    (setDelta0 (shallowCopy base)
       (mkDelta [] [] []
          [mkToolCall [] [] (toolIndex t) (mkFunction [] args)]
          None)).

(** ** The state machine *)

(** One pass through the [switch] of [processReasoning]: the new
    transformer, the frames appended to [out], and whether the [for] loop
    goes round again ([true]) or the function returns ([false]). *)
Definition step (t : ToolCallTransformer) (base : Chunk)
    : ToolCallTransformer * list SSE * bool :=
  match state t with
  | stateIdle =>
      match Index (buf t) tokSectionBegin with
      | None => (t, [], false)
      | Some idx =>
          (mkT stateInSection
               (skipn (idx + length tokSectionBegin) (buf t))
               (toolIndex t) (currentID t),
           if 0 <? idx then [makeContentChunk base (firstn idx (buf t))] else [],
           true)
      end
  | stateInSection =>
      let idx := Index (buf t) tokCallBegin in
      let endIdx := Index (buf t) tokSectionEnd in
      let sectionEnds :=
        match endIdx, idx with
        | Some e, None => Some e
        | Some e, Some i => if e <? i then Some e else None
        | None, _ => None
        end in
      match sectionEnds with
      | Some e =>
          let trailing := skipn (e + length tokSectionEnd) (buf t) in
          (mkT stateTrailing [] (toolIndex t) (currentID t),
           if isEmpty trailing then [] else [makeContentChunk base trailing],
           false)
      | None =>
          match idx with
          | None => (t, [], false)
          | Some i =>
              (mkT stateReadingID
                   (skipn (i + length tokCallBegin) (buf t))
                   (toolIndex t) (currentID t),
               [], true)
          end
      end
  | stateReadingID =>
      match Index (buf t) tokArgBegin with
      | None => (t, [], false)
      | Some argIdx =>
          let rawID := TrimSpace (firstn argIdx (buf t)) in
          let name := parseFunctionName rawID in
          let t' := mkT stateReadingArgs
                        (skipn (argIdx + length tokArgBegin) (buf t))
                        (toolIndex t)
                        (fst (parseToolCallID rawID (toolIndex t))) in
          (t', [makeToolCallHeader t' base name], true)
      end
  | stateReadingArgs =>
      match Index (buf t) tokCallEnd with
      | None =>
          if isEmpty (buf t) then (t, [], false)
          else (setBuf t [], [makeArgsDelta t base (buf t)], false)
      | Some endIdx =>
          let args := firstn endIdx (buf t) in
          (mkT stateInSection
               (skipn (endIdx + length tokCallEnd) (buf t))
               (wrapInt intBits (toolIndex t + 1)) (currentID t),
           if isEmpty args then [] else [makeArgsDelta t base args],
           true)
      end
  | stateTrailing => (t, [], false)
  end.

(** The [for] loop.  Every pass that goes round again has removed a
    delimiter from [buf], so [S (length buf)] passes are enough
    ([loop_fuel] below: the result does not depend on the fuel above that
    bound). *)
Fixpoint loop (fuel : nat) (t : ToolCallTransformer) (base : Chunk)
    (out : list SSE) : ToolCallTransformer * list SSE :=
  match fuel with
  | 0 => (t, out)
  | S fuel' =>
      let '(t', o, again) := step t base in
      if again then loop fuel' t' base (out ++ o) else (t', out ++ o)
  end.

Definition processReasoning (t : ToolCallTransformer) (base : Chunk)
    (text : gostring) : ToolCallTransformer * list SSE :=
  let t := setBuf t (buf t ++ text) in
  loop (S (length (buf t))) t base [].

(** Promotion of [finish_reason] from the delta up to the choice. *)
Definition promote (chunk : Chunk) : Chunk :=
  match Choices chunk with
  | c0 :: rest =>
      match dFinishReason (cDelta c0) with
      | Some fr =>
          mkChunk (ID chunk) (Object chunk) (Model chunk) (Created chunk)
            (mkChoice (cIndex c0)
               (mkDelta (Content (cDelta c0)) (Reasoning (cDelta c0))
                  (ReasoningContent (cDelta c0)) (ToolCalls (cDelta c0)) None)
               (Some fr) :: rest)
            (ChunkUsage chunk)
      | None => chunk
      end
  | [] => chunk
  end.

(** The text the rewriter reads from a choice: [reasoning], or
    [reasoning_content] when that is empty. *)
Definition reasoningOf (c0 : Choice) : gostring :=
  if isEmpty (Reasoning (cDelta c0)) then ReasoningContent (cDelta c0)
  else Reasoning (cDelta c0).

(** [processEvent] from the decoded event on. *)
Definition processEvent (t : ToolCallTransformer) (ev : Upstream)
    : ToolCallTransformer * list SSE :=
  match ev with
  | UpEmpty => (t, [])
  | UpDone => (t, [DoneFrame])
  | UpInvalid s => (t, [RawFrame s])
  | UpChunk chunk0 =>
      let chunk := promote chunk0 in
      match Choices chunk with
      | [] => (t, emit chunk)
      | c0 :: _ =>
          let reasoning := reasoningOf c0 in
          match state t with
          | stateIdle =>
              if negb (containsAnyToken reasoning) then (t, emit chunk)
              else processReasoning t chunk reasoning
          | _ => processReasoning t chunk reasoning
          end
      end
  end.

(** [Transform] called on each event of a stream, the frames written in
    order. *)
Fixpoint run (t : ToolCallTransformer) (evs : list Upstream)
    : ToolCallTransformer * list SSE :=
  match evs with
  | [] => (t, [])
  | ev :: rest =>
      let '(t1, o1) := processEvent t ev in
      let '(t2, o2) := run t1 rest in
      (t2, o1 ++ o2)
  end.

(** ** Observations on chunks and frames *)

(** The [finish_reason] a chunk's first choice carries after promotion. *)
Definition finishOf (c0 : Choice) : option gostring :=
  match dFinishReason (cDelta c0) with
  | Some fr => Some fr
  | None => cFinishReason c0
  end.

(** The deltas of the first choices of the emitted JSON frames. *)
Definition deltasOf (frames : list SSE) : list Delta :=
  flat_map (fun f => match f with
                     | JSONFrame _ c =>
                         match Choices c with
                         | c0 :: _ => [cDelta c0]
                         | [] => []
                         end
                     | _ => []
                     end) frames.

Definition contentOf (c : Chunk) : gostring :=
  match Choices c with c0 :: _ => Content (cDelta c0) | [] => [] end.

Definition reasoningTextOf (c : Chunk) : gostring :=
  match Choices c with c0 :: _ => reasoningOf c0 | [] => [] end.

Definition chunkOf (f : SSE) : option Chunk :=
  match f with JSONFrame _ c => Some c | _ => None end.

(** Concatenation of the [content] fields of the emitted chunks. *)
Definition emittedContent (frames : list SSE) : gostring :=
  flat_map (fun f => match chunkOf f with
                     | Some c => contentOf c
                     | None => []
                     end) frames.

(** Concatenation of the reasoning text of the emitted chunks. *)
Definition emittedReasoning (frames : list SSE) : gostring :=
  flat_map (fun f => match chunkOf f with
                     | Some c => reasoningTextOf c
                     | None => []
                     end) frames.

Definition upstreamReasoning (chunks : list Chunk) : gostring :=
  flat_map reasoningTextOf chunks.

Definition upstreamContent (chunks : list Chunk) : gostring :=
  flat_map contentOf chunks.

(** A chunk whose reasoning text lacks [<|tool_call]. *)
Definition tokenFree (c : Chunk) : Prop :=
  containsAnyToken (reasoningTextOf c) = false.

(** A delta with its [finish_reason] cleared, as promotion leaves it. *)
Definition clearFinish (d : Delta) : Delta :=
  mkDelta (Content d) (Reasoning d) (ReasoningContent d) (ToolCalls d) None.

(** The chunks of the repository's tests: identification fields, one choice
    of index 0, and a delta carrying only reasoning text, or only a
    [finish_reason]. *)
Definition textChunk (x : gostring) : Chunk :=
  mkChunk (str "chatcmpl-1") (str "chat.completion.chunk") (str "test") 123
    [mkChoice 0 (mkDelta [] x [] [] None) None] None.

Definition finishChunk (x fr : gostring) : Chunk :=
  mkChunk (str "chatcmpl-1") (str "chat.completion.chunk") (str "test") 123
    [mkChoice 0 (mkDelta [] x [] [] (Some fr)) None] None.

(** ** Identifier rules, in the words of the specification

    The id: a trimmed identifier that begins with [call_] is used as it
    is, otherwise [call_<toolIndex>_<millis>] is made up.  The function
    name: the substring after the first [.] (if any), then the substring
    before the last [:] (if any). *)

(** The substring after the first [c], when there is a [c]. *)
Fixpoint afterFirst (c : ascii) (s : gostring) : option gostring :=
  match s with
  | [] => None
  | x :: r => if Ascii.eqb x c then Some r else afterFirst c r
  end.

(** The substring before the last [c], when there is a [c]. *)
Fixpoint beforeLast (c : ascii) (s : gostring) : option gostring :=
  match s with
  | [] => None
  | x :: r =>
      match beforeLast c r with
      | Some p => Some (x :: p)
      | None => if Ascii.eqb x c then Some [] else None
      end
  end.

Definition specFunctionName (trimmed : gostring) : gostring :=
  let s := match afterFirst "."%char trimmed with
           | Some r => r
           | None => trimmed
           end in
  match beforeLast ":"%char s with
  | Some p => p
  | None => s
  end.

Definition specToolCallID (trimmed : gostring) (index millis : Z) : gostring :=
  if HasPrefix trimmed (str "call_") then trimmed
  else str "call_" ++ itoa index ++ str "_" ++ itoa millis.

(** The tool call a built chunk carries, and its [arguments] field. *)
Definition toolCallOf (c : Chunk) : option ToolCall :=
  match Choices c with
  | c0 :: _ => match ToolCalls (cDelta c0) with
               | tc :: _ => Some tc
               | [] => None
               end
  | [] => None
  end.

Definition argumentsOf (c : Chunk) : gostring :=
  match toolCallOf c with
  | Some tc => Arguments (tcFunction tc)
  | None => []
  end.

(** [strings.HasSuffix] *)
Definition HasSuffix (s suffix : gostring) : bool :=
  HasPrefix (rev s) (rev suffix).

(** [s] ends with a non-empty proper prefix of the delimiter [p]: more
    input could complete [p] across the end of [s]. *)
Definition endsInPartial (p s : gostring) : bool :=
  existsb (fun k => HasSuffix s (firstn k p)) (seq 1 (length p - 1)).

(** ** Safe flush, in the words of the specification

    In state ReadingArgs, when [buf] holds no complete [C_END]: the bytes
    before the earliest [<] are emitted as an argument delta (none when
    there are none) and the bytes from that [<] on are retained in [buf]. *)
Fixpoint beforeLT (s : gostring) : gostring :=
  match s with
  | [] => []
  | c :: r => if Ascii.eqb c "<"%char then [] else c :: beforeLT r
  end.

Fixpoint fromLT (s : gostring) : gostring :=
  match s with
  | [] => []
  | c :: r => if Ascii.eqb c "<"%char then s else fromLT r
  end.

Definition specSafeFlush (t : ToolCallTransformer) (base : Chunk)
    (text : gostring) : Prop :=
  let b := buf t ++ text in
  processReasoning t base text =
  (setBuf t (fromLT b),
   if isEmpty (beforeLT b) then [] else [makeArgsDelta t base (beforeLT b)]).

(** ** The order of the emitted chunks *)

(** What an emitted frame is in the order of a stream: the header of the
    tool call with a given index, an argument delta for an index, a content
    chunk, or anything else (passthrough, raw, [[DONE]]). *)
Inductive Mark :=
| MHeader (k : Z)
| MArgs (k : Z)
| MContent
| MOther.

Definition markOf (f : SSE) : Mark :=
  match f with
  | JSONFrame HeaderChunk c =>
      match toolCallOf c with Some tc => MHeader (tcIndex tc) | None => MOther end
  | JSONFrame ArgsDelta c =>
      match toolCallOf c with Some tc => MArgs (tcIndex tc) | None => MOther end
  | JSONFrame ContentChunk _ => MContent
  | _ => MOther
  end.

(** A monitor of the order: it remembers the index of the last header and
    whether a content chunk has followed a header (the section is closed),
    and refuses ([None]) an argument delta whose index is not that of the
    last header, and any header or argument delta once the section is
    closed. *)
Definition mstep (s : option Z * bool) (m : Mark) : option (option Z * bool) :=
  match m with
  | MHeader k => if snd s then None else Some (Some k, false)
  | MArgs k =>
      if snd s then None
      else match fst s with
           | Some l => if (l =? k)%Z then Some s else None
           | None => None
           end
  | MContent => Some (fst s, match fst s with Some _ => true | None => false end)
  | MOther => Some s
  end.

Fixpoint mrun (s : option Z * bool) (tr : list Mark) : option (option Z * bool) :=
  match tr with
  | [] => Some s
  | m :: r => match mstep s m with
              | Some s' => mrun s' r
              | None => None
              end
  end.

(** What the monitor knows in each state of the rewriter. *)
Definition agrees (t : ToolCallTransformer) (s : option Z * bool) : Prop :=
  match state t with
  | stateIdle => s = (None, false)
  | stateInSection | stateReadingID => snd s = false
  | stateReadingArgs => s = (Some (toolIndex t), false)
  | stateTrailing => True
  end.

(** Neither a header nor a content chunk. *)
Definition plain (m : Mark) : Prop :=
  match m with
  | MHeader _ | MContent => False
  | _ => True
  end.

(** ** The payload of a stream of frames

    The content bytes, the headers and the argument bytes, in order.
    [regroup] forgets how content bytes and the argument bytes of one call
    are grouped into chunks: empty pieces are dropped and neighbours of
    the same kind (and index) are joined. *)
Inductive Item :=
| IContent (s : gostring)
| IHeader (index : Z) (id name : gostring)
| IArgs (index : Z) (s : gostring).

Definition itemOf (f : SSE) : list Item :=
  match f with
  | JSONFrame HeaderChunk c =>
      match toolCallOf c with
      | Some tc => [IHeader (tcIndex tc) (tcID tc) (Name (tcFunction tc));
                    IArgs (tcIndex tc) (Arguments (tcFunction tc))]
      | None => []
      end
  | JSONFrame ArgsDelta c =>
      match toolCallOf c with
      | Some tc => [IArgs (tcIndex tc) (Arguments (tcFunction tc))]
      | None => []
      end
  | JSONFrame _ c => [IContent (contentOf c)]
  | _ => []
  end.

Definition glue (i : Item) (l : list Item) : list Item :=
  match i with
  | IContent a =>
      if isEmpty a then l
      else match l with
           | IContent b :: r => IContent (a ++ b) :: r
           | _ => i :: l
           end
  | IArgs k a =>
      if isEmpty a then l
      else match l with
           | IArgs k' b :: r => if (k =? k')%Z then IArgs k (a ++ b) :: r else i :: l
           | _ => i :: l
           end
  | IHeader _ _ _ => i :: l
  end.

Fixpoint regroup (l : list Item) : list Item :=
  match l with
  | [] => []
  | i :: r => glue i (regroup r)
  end.

Definition items (frames : list SSE) : list Item := flat_map itemOf frames.

Definition payload (frames : list SSE) : list Item := regroup (items frames).

(** The arguments fields of the header chunk and of the argument deltas
    emitted for the call with index [k], concatenated. *)
Definition argsOfItems (k : Z) (l : list Item) : gostring :=
  flat_map (fun i => match i with
                     | IArgs j a => if (j =? k)%Z then a else []
                     | _ => []
                     end) l.

Definition argumentsFor (k : Z) (frames : list SSE) : gostring :=
  argsOfItems k (items frames).

(** [t.buf += text] *)
Definition feedBuf (t : ToolCallTransformer) (text : gostring) : ToolCallTransformer :=
  setBuf t (buf t ++ text).

(** The [for] loop of [processReasoning] run on the buffer as it is. *)
Definition drain (t : ToolCallTransformer) (base : Chunk)
    : ToolCallTransformer * list SSE :=
  loop (S (length (buf t))) t base [].

(** After a chunk the rewriter is settled when a split after that chunk
    cannot be told from no split: it waits for a delimiter inside the
    section with the text kept in [buf] (InSection, ReadingID), or it has
    flushed arguments of which the text [b] it had to work on does not end
    inside a [C_END]. *)
Definition settled (t1 : ToolCallTransformer) (b : gostring) : Prop :=
  state t1 = stateInSection \/ state t1 = stateReadingID \/
  (state t1 = stateReadingArgs /\ endsInPartial tokCallEnd b = false).

(** The rewriter is settled after each chunk of [cs], fed from [t]. *)
Fixpoint settledAlong (t : ToolCallTransformer) (cs : list Chunk) : Prop :=
  match cs with
  | [] => True
  | c :: rest =>
      settled (fst (processEvent t (UpChunk c))) (buf t ++ reasoningTextOf c) /\
      settledAlong (fst (processEvent t (UpChunk c))) rest
  end.

(** ** Finish handling, in the words of the specification

    The frames emitted for a chunk that carries a [finish_reason] end with
    a terminal chunk: a single choice with an empty delta and the
    [finish_reason]. *)
Definition terminalChunk (fr : gostring) (f : SSE) : Prop :=
  exists o c i, f = JSONFrame o c /\ Choices c = [mkChoice i emptyDelta (Some fr)].

Definition specFinish (frames : list SSE) (fr : gostring) : Prop :=
  exists pre f, frames = pre ++ [f] /\ terminalChunk fr f.

(** [Flush] has an empty body and [Close] only returns: neither writes a
    frame nor touches [buf]. *)
Definition Flush (t : ToolCallTransformer) : list SSE := [].

Definition Close (t : ToolCallTransformer) : list SSE := [].

(** ** Auxiliary predicates *)

(** [s] starts with a white-space rune; [s], read backwards, does. *)
Definition startsSpace (s : gostring) : bool :=
  match s with
  | [] => false
  | b0 :: r0 =>
      isSpace b0 ||
      match r0 with
      | [] => false
      | b1 :: r1 =>
          isSpace2 b0 b1 ||
          match r1 with
          | [] => false
          | b2 :: _ => isSpace3 b0 b1 b2
          end
      end
  end.

Definition startsSpaceRev (s : gostring) : bool :=
  match s with
  | [] => false
  | z :: r0 =>
      isSpace z ||
      match r0 with
      | [] => false
      | y :: r1 =>
          isSpace2 y z ||
          match r1 with
          | [] => false
          | x :: _ => isSpace3 x y z
          end
      end
  end.

(** Every frame a pass appends is built on [shallowCopy base]. *)
Definition builtOn (base : Chunk) (f : SSE) : Prop :=
  exists k d, k <> Passthrough /\ f = JSONFrame k (setDelta0 (shallowCopy base) d).

(** [toolIndex] has room for the calls that the buffer can still hold:
    it cannot wrap around while the buffer is read. *)
Definition roomFor (t : ToolCallTransformer) : Prop :=
  (0 < intBits /\ - 2 ^ (intBits - 1) <= toolIndex t /\
   toolIndex t + Z.of_nat (length (buf t)) < 2 ^ (intBits - 1))%Z.

(** ** Further observations on a run *)

(** Four strings that begin with [<|tool_call]: the patterns that the
    repository's log test ([testSingleLogVerbose]) searches for. *)
Definition malformedPatterns : list gostring :=
  [str "<|tool_call"; str "<|tool_call_end"; str "<|tool_calls_section";
   str "<|tool_calls_section_end"].

(** None of the patterns stands in the [reasoning] field of the first
    choice of a marshalled frame, nor in its [reasoning_content] field when
    [reasoning] is empty.  Nothing is said of [reasoning_content] beside a
    [reasoning] that is not empty, nor of raw frames. *)
Definition reasoningClean (f : SSE) : Prop :=
  match f with
  | JSONFrame _ c =>
      match Choices c with
      | c0 :: _ =>
          Forall (fun p => Contains (Reasoning (cDelta c0)) p = false)
                 malformedPatterns /\
          (Reasoning (cDelta c0) = [] ->
           Forall (fun p => Contains (ReasoningContent (cDelta c0)) p = false)
                  malformedPatterns)
      | [] => True
      end
  | _ => True
  end.

(** How far the rewriter has come in a stream: before the section, inside
    it, after it. *)
Definition rank (s : parserState) : nat :=
  match s with
  | stateIdle => 0
  | stateInSection | stateReadingID | stateReadingArgs => 1
  | stateTrailing => 2
  end.

(** The indices of the tool-call headers of a stream of frames, in order. *)
Definition headerIndices (frames : list SSE) : list Z :=
  flat_map (fun f => match markOf f with MHeader k => [k] | _ => [] end) frames.

(** [toolIndex++] *)
Definition nextIndex (k : Z) : Z := wrapInt intBits (k + 1).

(** [n] indices counted from [k] by [toolIndex++]. *)
Fixpoint countFrom (k : Z) (n : nat) : list Z :=
  match n with
  | 0 => []
  | S m => k :: countFrom (nextIndex k) m
  end.

(** The index the next header will carry: while arguments are read the
    header of the current call is out and [toolIndex] is still its index. *)
Definition nextHeader (t : ToolCallTransformer) : Z :=
  match state t with
  | stateReadingArgs => nextIndex (toolIndex t)
  | _ => toolIndex t
  end.

(** The fields of a chunk outside its choices, as decoded: [usage] is a
    [Usage], which declares [prompt_tokens] and [completion_tokens] and
    nothing else. *)
Definition envelope (c : Chunk)
    : gostring * gostring * gostring * Z * option Usage :=
  (ID c, Object c, Model c, Created c, ChunkUsage c).

(** The delta of a header chunk: one tool call with an id that begins with
    [call_], the type [function], a name and no arguments. *)
Definition headerShape (f : SSE) : Prop :=
  match f with
  | JSONFrame HeaderChunk _ =>
      exists id name k,
        HasPrefix id (str "call_") = true /\
        deltasOf [f] =
          [mkDelta [] [] []
             [mkToolCall id (str "function") k (mkFunction name [])] None]
  | _ => True
  end.

(** The delta of a content chunk: content that is not empty and nothing
    else.  The delta of an argument delta: one tool call with an index and
    arguments that are not empty, and no id, type or name. *)
Definition payloadShape (f : SSE) : Prop :=
  match f with
  | JSONFrame ContentChunk _ =>
      exists x, x <> [] /\ deltasOf [f] = [mkDelta x [] [] [] None]
  | JSONFrame ArgsDelta _ =>
      exists k a,
        a <> [] /\
        deltasOf [f] =
          [mkDelta [] [] [] [mkToolCall [] [] k (mkFunction [] a)] None]
  | _ => True
  end.

(** The loop has nothing to do on the buffer: it holds no complete
    delimiter of those the state looks for, and no argument bytes. *)
Definition quiescent (t : ToolCallTransformer) : Prop :=
  match state t with
  | stateIdle => Index (buf t) tokSectionBegin = None
  | stateInSection =>
      Index (buf t) tokCallBegin = None /\ Index (buf t) tokSectionEnd = None
  | stateReadingID => Index (buf t) tokArgBegin = None
  | stateReadingArgs => buf t = []
  | stateTrailing => True
  end.

(** ** A section as the delimiters lay it out

    The text of a tool-call section that arrives whole: text before the
    section, [S_BEG], the calls, [S_END], text after the section.  A call
    is [C_BEG], its identifier, [A_BEG], its arguments, [C_END]; [callGap]
    is the text that stands before its [C_BEG] and [gapEnd] the text
    between the last [C_END] and [S_END] (white space, in the streams of
    the repository's tests). *)
Record Call := mkCall {
  callGap : gostring;
  callID : gostring;
  callArgs : gostring
}.

Definition callText (c : Call) : gostring :=
  callGap c ++ tokCallBegin ++ callID c ++ tokArgBegin ++ callArgs c ++ tokCallEnd.

Definition sectionText (pre : gostring) (calls : list Call)
    (gapEnd post : gostring) : gostring :=
  pre ++ tokSectionBegin ++ flat_map callText calls ++
  gapEnd ++ tokSectionEnd ++ post.

(** Each part of a call ends at the delimiter that follows it: the
    delimiter does not occur earlier, and no [S_END] stands before the
    [C_BEG]. *)
Definition wellDelimited (c : Call) : Prop :=
  Index (callGap c ++ tokCallBegin) tokCallBegin = Some (length (callGap c)) /\
  Index (callGap c ++ tokCallBegin) tokSectionEnd = None /\
  Index (callID c ++ tokArgBegin) tokArgBegin = Some (length (callID c)) /\
  Index (callArgs c ++ tokCallEnd) tokCallEnd = Some (length (callArgs c)).

(** The frames of a content chunk, of one call and of the calls of a
    section: what [step] appends in states Idle and InSection, ReadingID
    and ReadingArgs. *)
Definition contentFrames (base : Chunk) (x : gostring) : list SSE :=
  if isEmpty x then [] else [makeContentChunk base x].

Definition callFrames (base : Chunk) (k : Z) (c : Call) : list SSE :=
  let rawID := TrimSpace (callID c) in
  let t := mkT stateReadingArgs [] k (fst (parseToolCallID rawID k)) in
  makeToolCallHeader t base (parseFunctionName rawID) ::
  (if isEmpty (callArgs c) then [] else [makeArgsDelta t base (callArgs c)]).

Fixpoint sectionFrames (base : Chunk) (k : Z) (calls : list Call) : list SSE :=
  match calls with
  | [] => []
  | c :: rest => callFrames base k c ++ sectionFrames base (nextIndex k) rest
  end.

(** ** The request side of the proxy

    The API key helpers of [completions.go], [handler.go] and
    [upstream/client.go], and the headers of the upstream request as
    [proxyAndRespond] builds them.  [http.Header] is a map from header
    names to lists of values: an association list in which the binding
    nearest to the head is the one a lookup finds. *)

(** [==] on strings *)
Fixpoint eqString (a b : gostring) : bool :=
  match a, b with
  | [], [] => true
  | x :: a', y :: b' => Ascii.eqb x y && eqString a' b'
  | _, _ => false
  end.

(** [strings.TrimPrefix] *)
Definition TrimPrefix (s prefix : gostring) : gostring :=
  if HasPrefix s prefix then skipn (length prefix) s else s.

Definition getEffectiveKey (clientAuth fallback : gostring) : gostring :=
  if (7 <? length clientAuth) && eqString (firstn 7 clientAuth) (str "Bearer ")
  then skipn 7 clientAuth
  else fallback.

(** [resolveAPIKey], from the value of the [Authorization] header
    ([c.GetHeader] gives the empty string when the header is absent) and
    [cfg.UpstreamAPIKey]. *)
Definition resolveAPIKey (auth upstreamAPIKey : gostring) : gostring :=
  if isEmpty auth then upstreamAPIKey
  else if (7 <? length auth) && eqString (firstn 7 auth) (str "Bearer ")
       then skipn 7 auth
       else upstreamAPIKey.

Record Client := mkClient {
  URL : gostring;
  APIKey : gostring
}.

Definition NewClient (url apiKey : gostring) : Client := mkClient url apiKey.

Definition GetAPIKey (c : Client) (clientAuth : gostring) : gostring :=
  if HasPrefix clientAuth (str "Bearer ")
  then TrimPrefix clientAuth (str "Bearer ")
  else APIKey c.

Definition Header := list (gostring * list gostring).

(** [h[k]] *)
Fixpoint headerGet (h : Header) (k : gostring) : option (list gostring) :=
  match h with
  | [] => None
  | (k', v) :: rest => if eqString k' k then Some v else headerGet rest k
  end.

(** [h[k] = v] *)
Definition headerAssign (h : Header) (k : gostring) (v : list gostring) : Header :=
  (k, v) :: h.

(** [SetHeaders]: [Header.Set] assigns the one value to the canonical form
    of the key, and the three keys are in canonical form. *)
Definition SetHeaders (c : Client) (h : Header) : Header :=
  headerAssign
    (headerAssign
       (headerAssign h (str "Content-Type") [str "application/json"])
       (str "Authorization") [str "Bearer " ++ APIKey c])
    (str "Accept") [str "text/event-stream"].

(** The test of the loop of [proxyAndRespond] over the client's headers:
    [len(k) > 1 && k[:2] == "X-" || k == "Extra"]. *)
Definition forwardedKey (k : gostring) : bool :=
  ((1 <? length k) && eqString (firstn 2 k) (str "X-")) || eqString k (str "Extra").

(** That loop, over the entries of the client's header in the order in
    which the [range] visits them. *)
Definition forwardHeaders (req client : Header) : Header :=
  fold_left (fun h kv =>
               if forwardedKey (fst kv) then headerAssign h (fst kv) (snd kv) else h)
            client req.

(** The header of the upstream request of [proxyAndRespond]: a new
    request, [SetHeaders] of a client made of the configured URL and key,
    then the loop. *)
Definition upstreamHeader (upstreamURL upstreamAPIKey : gostring)
    (client : Header) : Header :=
  forwardHeaders (SetHeaders (NewClient upstreamURL upstreamAPIKey) []) client.

(** A frame that a pass of the loop builds from [base]: a content chunk
    with content, the header of a call, or an argument delta with
    arguments. *)
Definition builtFrame (base : Chunk) (f : SSE) : Prop :=
  (exists x, x <> [] /\ f = makeContentChunk base x) \/
  (exists u raw,
      currentID u = fst (parseToolCallID raw (toolIndex u)) /\
      f = makeToolCallHeader u base (parseFunctionName raw)) \/
  (exists u a, a <> [] /\ f = makeArgsDelta u base a).

(** A frame that [processEvent] writes for an upstream chunk: the chunk
    after promotion (when it has no choices, or came in state Idle without
    [<|tool_call] in its reasoning text), or a frame built from the
    promoted chunk. *)
Definition chunkFrame (t : ToolCallTransformer) (chunk : Chunk) (f : SSE) : Prop :=
  (f = JSONFrame Passthrough (promote chunk) /\
   (Choices chunk = [] \/
    (state t = stateIdle /\
     containsAnyToken (reasoningTextOf chunk) = false))) \/
  (Choices (promote chunk) <> [] /\ builtFrame (promote chunk) f).

(** A frame that [processEvent] writes: [[DONE]], raw data, or the frame
    of a chunk. *)
Definition eventFrame (t : ToolCallTransformer) (f : SSE) : Prop :=
  f = DoneFrame \/ (exists s, f = RawFrame s) \/
  (exists chunk, chunkFrame t chunk f).

(** The headers of [o] are counted on from the next header of [t], up to
    the next header of [t']. *)
Definition counts (t : ToolCallTransformer) (o : list SSE)
    (t' : ToolCallTransformer) : Prop :=
  exists n, headerIndices o = countFrom (nextHeader t) n /\
            nextHeader t' = Nat.iter n nextIndex (nextHeader t).

(** ** Events as they arrive

    [Transform] is given the data of an SSE event.  [Unmarshal] stands
    for [json.Unmarshal] into a [Chunk]: [None] when it returns an
    error. *)
Variable Unmarshal : gostring -> option Chunk.

(** What [Transform] and the first lines of [processEvent] make of the
    data: [Transform] returns at once on empty data and writes [[DONE]]
    for the data [[DONE]]; [processEvent] trims the data, compares it
    with [[DONE]] again and decodes it. *)
Definition decodeEvent (data : gostring) : Upstream :=
  if isEmpty data then UpEmpty
  else if eqString data (str "[DONE]") then UpDone
  else
    let s := TrimSpace data in
    if eqString s (str "[DONE]") then UpDone
    else match Unmarshal s with
         | Some chunk => UpChunk chunk
         | None => UpInvalid s
         end.

Definition Transform (t : ToolCallTransformer) (data : gostring)
    : ToolCallTransformer * list SSE :=
  processEvent t (decodeEvent data).

(** ** The rewriter with the run-time checks of Go

    A slice expression and an index expression are checked when the
    program runs: [s[:hi]] and [s[lo:]] panic when the bound is beyond
    the length of [s], and [l[0]] panics on an empty slice.  The
    definitions of the rewriter above are total ([firstn] and [skipn]
    clamp, [shallowCopy] returns its argument when there is no choice).
    The definitions below repeat them with every such expression of the
    source checked, [None] standing for a panic. *)

Definition bind {A B : Type} (a : option A) (f : A -> option B) : option B :=
  match a with
  | Some x => f x
  | None => None
  end.

Notation "x <- a ;; b" := (bind a (fun x => b))
  (at level 61, a at next level, right associativity).

(** [s[:hi]] *)
Definition sliceTo (s : gostring) (hi : nat) : option gostring :=
  if hi <=? length s then Some (firstn hi s) else None.

(** [s[lo:]] *)
Definition sliceFrom (s : gostring) (lo : nat) : option gostring :=
  if lo <=? length s then Some (skipn lo s) else None.

(** [c.Choices[0]] *)
Definition choice0 (c : Chunk) : option Choice :=
  match Choices c with
  | c0 :: _ => Some c0
  | [] => None
  end.

Definition parseFunctionNameC (raw : gostring) : option gostring :=
  let raw := TrimSpace raw in
  raw <- match Index raw (str ".") with
         | Some i => sliceFrom raw (i + 1)
         | None => Some raw
         end ;;
  match LastIndex raw (str ":") with
  | Some i => sliceTo raw i
  | None => Some raw
  end.

Definition shallowCopyC (c : Chunk) : option Chunk :=
  c0 <- choice0 c ;;
  Some (mkChunk (ID c) (Object c) (Model c) (Created c)
          [mkChoice (cIndex c0) emptyDelta (cFinishReason c0)]
          (ChunkUsage c)).

(** [c.Choices[0].Delta = d] *)
Definition setDelta0C (c : Chunk) (d : Delta) : option Chunk :=
  match Choices c with
  | [] => None
  | c0 :: rest =>
      Some (mkChunk (ID c) (Object c) (Model c) (Created c)
              (mkChoice (cIndex c0) d (cFinishReason c0) :: rest)
              (ChunkUsage c))
  end.

Definition makeContentChunkC (base : Chunk) (content : gostring) : option SSE :=
  c <- shallowCopyC base ;;
  c <- setDelta0C c (mkDelta content [] [] [] None) ;;
  Some (JSONFrame ContentChunk c).

Definition makeToolCallHeaderC (t : ToolCallTransformer) (base : Chunk)
    (name : gostring) : option SSE :=
  c <- shallowCopyC base ;;
  c <- setDelta0C c
         (mkDelta [] [] []
            [mkToolCall (currentID t) (str "function") (toolIndex t)
               (mkFunction name [])]
            None) ;;
  Some (JSONFrame HeaderChunk c).

Definition makeArgsDeltaC (t : ToolCallTransformer) (base : Chunk)
    (args : gostring) : option SSE :=
  c <- shallowCopyC base ;;
  c <- setDelta0C c
         (mkDelta [] [] []
            [mkToolCall [] [] (toolIndex t) (mkFunction [] args)]
            None) ;;
  Some (JSONFrame ArgsDelta c).

Definition stepC (t : ToolCallTransformer) (base : Chunk)
    : option (ToolCallTransformer * list SSE * bool) :=
  match state t with
  | stateIdle =>
      match Index (buf t) tokSectionBegin with
      | None => Some (t, [], false)
      | Some idx =>
          o <- (if 0 <? idx
                then x <- sliceTo (buf t) idx ;;
                     f <- makeContentChunkC base x ;;
                     Some [f]
                else Some []) ;;
          b <- sliceFrom (buf t) (idx + length tokSectionBegin) ;;
          Some (mkT stateInSection b (toolIndex t) (currentID t), o, true)
      end
  | stateInSection =>
      let idx := Index (buf t) tokCallBegin in
      let endIdx := Index (buf t) tokSectionEnd in
      let sectionEnds :=
        match endIdx, idx with
        | Some e, None => Some e
        | Some e, Some i => if e <? i then Some e else None
        | None, _ => None
        end in
      match sectionEnds with
      | Some e =>
          trailing <- sliceFrom (buf t) (e + length tokSectionEnd) ;;
          o <- (if isEmpty trailing then Some []
                else f <- makeContentChunkC base trailing ;; Some [f]) ;;
          Some (mkT stateTrailing [] (toolIndex t) (currentID t), o, false)
      | None =>
          match idx with
          | None => Some (t, [], false)
          | Some i =>
              b <- sliceFrom (buf t) (i + length tokCallBegin) ;;
              Some (mkT stateReadingID b (toolIndex t) (currentID t), [], true)
          end
      end
  | stateReadingID =>
      match Index (buf t) tokArgBegin with
      | None => Some (t, [], false)
      | Some argIdx =>
          raw <- sliceTo (buf t) argIdx ;;
          let rawID := TrimSpace raw in
          name <- parseFunctionNameC rawID ;;
          b <- sliceFrom (buf t) (argIdx + length tokArgBegin) ;;
          let t' := mkT stateReadingArgs b (toolIndex t)
                        (fst (parseToolCallID rawID (toolIndex t))) in
          f <- makeToolCallHeaderC t' base name ;;
          Some (t', [f], true)
      end
  | stateReadingArgs =>
      match Index (buf t) tokCallEnd with
      | None =>
          if isEmpty (buf t) then Some (t, [], false)
          else f <- makeArgsDeltaC t base (buf t) ;;
               Some (setBuf t [], [f], false)
      | Some endIdx =>
          args <- sliceTo (buf t) endIdx ;;
          o <- (if isEmpty args then Some []
                else f <- makeArgsDeltaC t base args ;; Some [f]) ;;
          b <- sliceFrom (buf t) (endIdx + length tokCallEnd) ;;
          Some (mkT stateInSection b (wrapInt intBits (toolIndex t + 1))
                    (currentID t),
                o, true)
      end
  | stateTrailing => Some (t, [], false)
  end.

Fixpoint loopC (fuel : nat) (t : ToolCallTransformer) (base : Chunk)
    (out : list SSE) : option (ToolCallTransformer * list SSE) :=
  match fuel with
  | 0 => Some (t, out)
  | S fuel' =>
      r <- stepC t base ;;
      let '(t', o, again) := r in
      if again then loopC fuel' t' base (out ++ o) else Some (t', out ++ o)
  end.

Definition processReasoningC (t : ToolCallTransformer) (base : Chunk)
    (text : gostring) : option (ToolCallTransformer * list SSE) :=
  let t := setBuf t (buf t ++ text) in
  loopC (S (length (buf t))) t base [].

(** The promotion: [chunk.Choices[0]] is read behind [len(chunk.Choices) > 0]
    and assigned to twice. *)
Definition promoteC (chunk : Chunk) : option Chunk :=
  if 0 <? length (Choices chunk)
  then c0 <- choice0 chunk ;;
       match dFinishReason (cDelta c0) with
       | Some fr =>
           match Choices chunk with
           | [] => None
           | c0 :: rest =>
               Some (mkChunk (ID chunk) (Object chunk) (Model chunk)
                       (Created chunk)
                       (mkChoice (cIndex c0)
                          (mkDelta (Content (cDelta c0)) (Reasoning (cDelta c0))
                             (ReasoningContent (cDelta c0))
                             (ToolCalls (cDelta c0)) None)
                          (Some fr) :: rest)
                       (ChunkUsage chunk))
           end
       | None => Some chunk
       end
  else Some chunk.

Definition processEventC (t : ToolCallTransformer) (ev : Upstream)
    : option (ToolCallTransformer * list SSE) :=
  match ev with
  | UpEmpty => Some (t, [])
  | UpDone => Some (t, [DoneFrame])
  | UpInvalid s => Some (t, [RawFrame s])
  | UpChunk chunk0 =>
      chunk <- promoteC chunk0 ;;
      if length (Choices chunk) =? 0 then Some (t, emit chunk)
      else
        c0 <- choice0 chunk ;;
        let reasoning := reasoningOf c0 in
        match state t with
        | stateIdle =>
            if negb (containsAnyToken reasoning) then Some (t, emit chunk)
            else processReasoningC t chunk reasoning
        | _ => processReasoningC t chunk reasoning
        end
  end.

(** [Transform] on each event of a stream: a panic ends the run. *)
Fixpoint runC (t : ToolCallTransformer) (evs : list Upstream)
    : option (ToolCallTransformer * list SSE) :=
  match evs with
  | [] => Some (t, [])
  | ev :: rest =>
      r1 <- processEventC t ev ;;
      r2 <- runC (fst r1) rest ;;
      Some (fst r2, snd r1 ++ snd r2)
  end.

(** ** The JSON documents of a delta

    [json.Unmarshal] and [json.Marshal] are library code, and the
    rewriter above starts from the decoded chunk.  What the two make of a
    delta is fixed by the declarations of [Delta], [ToolCall] and
    [Function] and their tags, and is modelled here on JSON values: a
    string stands for the Go string it is decoded to or written from
    (quoting and escaping are the library's; a decoded string is valid
    UTF-8, which [json.Marshal] writes as it is), and a number written
    as an integer is told from any other number, which [int] does not
    accept. *)
Unset Elimination Schemes.

Inductive JSON :=
| JNull
| JBool (b : bool)
| JInt (z : Z)
| JNumber (literal : gostring)
| JString (s : gostring)
| JArray (elements : list JSON)
| JObject (members : list (gostring * JSON)).

Set Elimination Schemes.

(** The outcome of decoding a value: a Go value ([err == nil]), an error
    of [json.Unmarshal] (a value of a kind that the field does not
    accept), or no answer of the model: a document in which two members
    of one object name the same field, where Go decodes the second value
    into the storage that the first has filled. *)
Inductive Decode (A : Type) :=
| Decoded (a : A)
| TypeError
| NotModelled.

Arguments Decoded {A} a.
Arguments TypeError {A}.
Arguments NotModelled {A}.

Definition decodeBind {A B : Type} (a : Decode A) (f : A -> Decode B) : Decode B :=
  match a with
  | Decoded x => f x
  | TypeError => TypeError
  | NotModelled => NotModelled
  end.

Notation "x <~ a ;; b" := (decodeBind a (fun x => b))
  (at level 61, a at next level, right associativity).

(** A member name folded as [encoding/json] folds it to match it with a
    field name when no field has exactly that name: ASCII letters in
    upper case, and the two runes outside ASCII that fold to an ASCII
    letter, U+017F to [S] and U+212A to [K]. *)
Definition upperByte (c : ascii) : ascii :=
  let n := nat_of_ascii c in
  if (97 <=? n) && (n <=? 122) then ascii_of_nat (n - 32) else c.

Fixpoint foldName (s : gostring) : gostring :=
  match s with
  | [] => []
  | b0 :: r0 =>
      if nat_of_ascii b0 <? 128 then upperByte b0 :: foldName r0
      else match r0 with
           | [] => [b0]
           | b1 :: r1 =>
               if byteIs b0 197 && byteIs b1 191 then "S"%char :: foldName r1
               else match r1 with
                    | [] => b0 :: foldName r0
                    | b2 :: r2 =>
                        if byteIs b0 226 && byteIs b1 132 && byteIs b2 170
                        then "K"%char :: foldName r2
                        else b0 :: foldName r0
                    end
           end
  end.

(** The member name [key] names the field tagged [name]. *)
Definition namesField (key name : gostring) : bool :=
  eqString (foldName key) (foldName name).

(** The value given to the field tagged [name] by the members of an
    object, when at most one member names the field. *)
Definition member (name : gostring) (members : list (gostring * JSON))
    : Decode (option JSON) :=
  match filter (fun m => namesField (fst m) name) members with
  | [] => Decoded None
  | [m] => Decoded (Some (snd m))
  | _ :: _ :: _ => NotModelled
  end.

(** A [string] field: [null] and an absent member leave the zero value. *)
Definition decodeString (v : option JSON) : Decode gostring :=
  match v with
  | None | Some JNull => Decoded []
  | Some (JString s) => Decoded s
  | Some _ => TypeError
  end.

(** A [*string] field *)
Definition decodeStringPtr (v : option JSON) : Decode (option gostring) :=
  match v with
  | None | Some JNull => Decoded None
  | Some (JString s) => Decoded (Some s)
  | Some _ => TypeError
  end.

(** An integer [z] is a value of a signed integer type of [bits] bits. *)
Definition fitsInt (bits : Z) (z : Z) : bool :=
  ((- 2 ^ (bits - 1) <=? z) && (z <? 2 ^ (bits - 1)))%Z.

(** An [int] field: the number is parsed as a 64-bit integer and must be
    a value of [int]. *)
Definition decodeInt (v : option JSON) : Decode Z :=
  match v with
  | None | Some JNull => Decoded 0%Z
  | Some (JInt z) =>
      if fitsInt 64 z && fitsInt intBits z then Decoded z else TypeError
  | Some _ => TypeError
  end.

Definition decodeFunction (v : option JSON) : Decode Function :=
  match v with
  | None | Some JNull => Decoded (mkFunction [] [])
  | Some (JObject ms) =>
      name <~ (m <~ member (str "name") ms ;; decodeString m) ;;
      arguments <~ (m <~ member (str "arguments") ms ;; decodeString m) ;;
      Decoded (mkFunction name arguments)
  | Some _ => TypeError
  end.

Definition decodeToolCall (v : option JSON) : Decode ToolCall :=
  match v with
  | None | Some JNull => Decoded (mkToolCall [] [] 0 (mkFunction [] []))
  | Some (JObject ms) =>
      id <~ (m <~ member (str "id") ms ;; decodeString m) ;;
      type <~ (m <~ member (str "type") ms ;; decodeString m) ;;
      index <~ (m <~ member (str "index") ms ;; decodeInt m) ;;
      function <~ (m <~ member (str "function") ms ;; decodeFunction m) ;;
      Decoded (mkToolCall id type index function)
  | Some _ => TypeError
  end.

(** The elements of an array, each decoded into a new element of the
    slice. *)
Fixpoint decodeElements {A : Type} (decode : option JSON -> Decode A)
    (l : list JSON) : Decode (list A) :=
  match l with
  | [] => Decoded []
  | e :: rest =>
      x <~ decode (Some e) ;;
      xs <~ decodeElements decode rest ;;
      Decoded (x :: xs)
  end.

(** A [[]ToolCall] field *)
Definition decodeToolCalls (v : option JSON) : Decode (list ToolCall) :=
  match v with
  | None | Some JNull => Decoded []
  | Some (JArray l) => decodeElements decodeToolCall l
  | Some _ => TypeError
  end.

Definition decodeDelta (v : option JSON) : Decode Delta :=
  match v with
  | None | Some JNull => Decoded emptyDelta
  | Some (JObject ms) =>
      content <~ (m <~ member (str "content") ms ;; decodeString m) ;;
      reasoning <~ (m <~ member (str "reasoning") ms ;; decodeString m) ;;
      reasoningContent <~
        (m <~ member (str "reasoning_content") ms ;; decodeString m) ;;
      toolCalls <~ (m <~ member (str "tool_calls") ms ;; decodeToolCalls m) ;;
      finishReason <~
        (m <~ member (str "finish_reason") ms ;; decodeStringPtr m) ;;
      Decoded (mkDelta content reasoning reasoningContent toolCalls finishReason)
  | Some _ => TypeError
  end.

(** What [json.Marshal] writes: the members in the order of the fields; a
    field tagged [omitempty] is left out when it is the empty string, an
    empty slice or a nil pointer. *)
Definition omitEmpty (name s : gostring) : list (gostring * JSON) :=
  if isEmpty s then [] else [(name, JString s)].

Definition encodeFunction (f : Function) : JSON :=
  JObject (omitEmpty (str "name") (Name f) ++
           omitEmpty (str "arguments") (Arguments f)).

Definition encodeToolCall (tc : ToolCall) : JSON :=
  JObject (omitEmpty (str "id") (tcID tc) ++
           omitEmpty (str "type") (tcType tc) ++
           [(str "index", JInt (tcIndex tc));
            (str "function", encodeFunction (tcFunction tc))]).

Definition encodeDelta (d : Delta) : JSON :=
  JObject (omitEmpty (str "content") (Content d) ++
           omitEmpty (str "reasoning") (Reasoning d) ++
           omitEmpty (str "reasoning_content") (ReasoningContent d) ++
           match ToolCalls d with
           | [] => []
           | tcs => [(str "tool_calls", JArray (map encodeToolCall tcs))]
           end ++
           match dFinishReason d with
           | Some fr => [(str "finish_reason", JString fr)]
           | None => []
           end).

(** The names of the members of an object. *)
Definition memberNames (j : JSON) : list gostring :=
  match j with
  | JObject ms => map fst ms
  | _ => []
  end.

(** [z] is a value of [int] that [json.Unmarshal] accepts for an [int]
    field. *)
Definition isInt (z : Z) : Prop :=
  fitsInt 64 z && fitsInt intBits z = true.

(** The names that [json.Marshal] can give the members of a delta whose
    [finish_reason] is nil. *)
Definition declaredInDelta : list gostring :=
  [str "content"; str "reasoning"; str "reasoning_content"; str "tool_calls"].

(** The delta document of a marshalled frame: the value of the member
    [delta] of its first choice. *)
Definition deltaDocument (f : SSE) : option JSON :=
  match f with
  | JSONFrame _ c =>
      match Choices c with
      | c0 :: _ => Some (encodeDelta (cDelta c0))
      | [] => None
      end
  | _ => None
  end.

(** * Properties *)

(** ** Strings *)

Lemma HasPrefix_nil (s : gostring) : HasPrefix s [] = true.
Proof. destruct s; reflexivity. Qed.

Lemma HasPrefix_true (s p : gostring) :
  HasPrefix s p = true <-> exists r, s = p ++ r.
Proof.
  revert s; induction p as [|x p IH]; intros s.
  - rewrite HasPrefix_nil. split; [intros _; now exists s | reflexivity].
  - destruct s as [|c s]; simpl.
    + split; [discriminate | intros [r Hr]; discriminate].
    + rewrite andb_true_iff, IH, Ascii.eqb_eq. split.
      * intros [-> [r ->]]. now exists r.
      * intros [r Hr]. injection Hr as -> ->. split; [reflexivity | now exists r].
Qed.

Lemma HasPrefix_app (p r : gostring) : HasPrefix (p ++ r) p = true.
Proof. apply HasPrefix_true. now exists r. Qed.

Lemma HasPrefix_app_l (s y p : gostring) :
  HasPrefix s p = true -> HasPrefix (s ++ y) p = true.
Proof.
  rewrite !HasPrefix_true. intros [r ->]. exists (r ++ y). now rewrite app_assoc.
Qed.

Lemma HasPrefix_length (s p : gostring) :
  HasPrefix s p = true -> length p <= length s.
Proof.
  rewrite HasPrefix_true. intros [r ->]. rewrite length_app. lia.
Qed.

Lemma Index_cons (c : ascii) (s p : gostring) :
  Index (c :: s) p =
  if HasPrefix (c :: s) p then Some 0 else option_map S (Index s p).
Proof. reflexivity. Qed.

Lemma Index_nil (p : gostring) :
  Index [] p = if HasPrefix [] p then Some 0 else None.
Proof. reflexivity. Qed.

(** [Index s p = Some i]: [p] stands at [i] in [s]. *)
Lemma Index_Some_split (s p : gostring) (i : nat) :
  Index s p = Some i ->
  s = firstn i s ++ p ++ skipn (i + length p) s /\ i + length p <= length s.
Proof.
  revert i; induction s as [|c s IH]; intros i.
  - rewrite Index_nil. destruct (HasPrefix [] p) eqn:E; [|discriminate].
    intros [= <-]. destruct p; [|discriminate]. simpl. split; [reflexivity | lia].
  - rewrite Index_cons. destruct (HasPrefix (c :: s) p) eqn:E.
    + intros [= <-]. apply HasPrefix_true in E as [r Hr]. rewrite Hr at 1.
      rewrite Hr. simpl firstn. simpl "+". rewrite skipn_app, skipn_all, Nat.sub_diag.
      simpl. rewrite length_app. split; [reflexivity | lia].
    + destruct (Index s p) as [j|] eqn:Ej; [|discriminate]. simpl.
      intros [= <-]. destruct (IH j eq_refl) as [H1 H2]. simpl.
      split; [now rewrite <- H1 | lia].
Qed.

Lemma Index_Some_bound (s p : gostring) (i : nat) :
  Index s p = Some i -> i + length p <= length s.
Proof. intros H. now apply Index_Some_split in H. Qed.

(** No occurrence starts before the first one. *)
Lemma Index_Some_first (s p : gostring) (i j : nat) :
  Index s p = Some i -> j < i -> HasPrefix (skipn j s) p = false.
Proof.
  revert i j; induction s as [|c s IH]; intros i j.
  - rewrite Index_nil. destruct (HasPrefix [] p); [|discriminate].
    intros [= <-]. lia.
  - rewrite Index_cons. destruct (HasPrefix (c :: s) p) eqn:E.
    + intros [= <-]. lia.
    + destruct (Index s p) as [k|] eqn:Ek; [|discriminate]. simpl.
      intros [= <-] Hj. destruct j as [|j]; [exact E|].
      simpl. apply (IH k); [reflexivity | lia].
Qed.

Lemma Index_None_skipn (s p : gostring) (j : nat) :
  Index s p = None -> HasPrefix (skipn j s) p = false.
Proof.
  revert j; induction s as [|c s IH]; intros j.
  - rewrite Index_nil. rewrite skipn_nil. now destruct (HasPrefix [] p).
  - rewrite Index_cons. destruct (HasPrefix (c :: s) p) eqn:E; [discriminate|].
    destruct (Index s p) eqn:Ek; [discriminate|]. intros _.
    destruct j as [|j]; [exact E | simpl; now apply IH].
Qed.

(** The first occurrence is found: [Index] is [None] only when no suffix
    of [s] starts with [p]. *)
Lemma Index_None_intro (s p : gostring) :
  (forall j, HasPrefix (skipn j s) p = false) -> Index s p = None.
Proof.
  induction s as [|c s IH]; intros H.
  - rewrite Index_nil. now rewrite (H 0 : HasPrefix [] p = false).
  - rewrite Index_cons. rewrite (H 0 : HasPrefix (c :: s) p = false).
    rewrite IH; [reflexivity|]. intros j. exact (H (S j)).
Qed.

Lemma Index_Some_intro (s p : gostring) (i : nat) :
  HasPrefix (skipn i s) p = true ->
  (forall j, j < i -> HasPrefix (skipn j s) p = false) ->
  Index s p = Some i.
Proof.
  revert i; induction s as [|c s IH]; intros i Hi Hlt.
  - rewrite skipn_nil in Hi. rewrite Index_nil, Hi.
    destruct i as [|i]; [reflexivity|].
    pose proof (Hlt 0 ltac:(lia) : HasPrefix [] p = false). congruence.
  - rewrite Index_cons. destruct i as [|i].
    + change (HasPrefix (c :: s) p = true) in Hi. now rewrite Hi.
    + rewrite (Hlt 0 ltac:(lia) : HasPrefix (c :: s) p = false).
      rewrite (IH i); [reflexivity | exact Hi |].
      intros j Hj. apply (Hlt (S j)). lia.
Qed.

(** Appending text does not move a first occurrence. *)
Lemma Index_app_Some (s y p : gostring) (i : nat) :
  Index s p = Some i -> Index (s ++ y) p = Some i.
Proof.
  intros H. pose proof (Index_Some_split _ _ _ H) as [Hs Hb].
  apply Index_Some_intro.
  - rewrite Hs at 1. rewrite <- app_assoc, skipn_app, skipn_all2, length_firstn
      by (rewrite length_firstn; lia).
    replace (i - Nat.min i (length s)) with 0 by lia. simpl.
    rewrite <- app_assoc. apply HasPrefix_app.
  - intros j Hj. pose proof (Index_Some_first _ _ _ j H Hj) as Hf.
    destruct (HasPrefix (skipn j (s ++ y)) p) eqn:E; [|reflexivity].
    exfalso. apply HasPrefix_true in E as [r Hr].
    assert (Hp : HasPrefix (skipn j s) p = true); [|congruence].
    apply HasPrefix_true.
    rewrite skipn_app in Hr. replace (j - length s) with 0 in Hr by lia.
    simpl in Hr.
    assert (Hl : length p <= length (skipn j s)) by (rewrite length_skipn; lia).
    exists (skipn (length p) (skipn j s)).
    rewrite <- (firstn_skipn (length p) (skipn j s)) at 1. f_equal.
    apply (f_equal (firstn (length p))) in Hr.
    rewrite firstn_app, firstn_app, firstn_all, Nat.sub_diag in Hr. simpl in Hr.
    replace (length p - length (skipn j s)) with 0 in Hr by lia.
    simpl in Hr. now rewrite !app_nil_r in Hr.
Qed.

(** The text before the first occurrence holds no occurrence. *)
Lemma Index_firstn_None (s p : gostring) (i : nat) :
  p <> [] -> Index s p = Some i -> Index (firstn i s) p = None.
Proof.
  intros Hp H. apply Index_None_intro. intros j.
  destruct (HasPrefix (skipn j (firstn i s)) p) eqn:E; [|reflexivity].
  exfalso. pose proof (HasPrefix_length _ _ E) as Hl.
  rewrite length_skipn, length_firstn in Hl.
  assert (length p <> 0) by (destruct p; [congruence | simpl; lia]).
  assert (Hj : j < i) by lia.
  pose proof (Index_Some_first _ _ _ j H Hj) as Hf.
  assert (HasPrefix (skipn j s) p = true); [|congruence].
  rewrite <- (firstn_skipn i s) at 1. rewrite skipn_app.
  now apply HasPrefix_app_l.
Qed.

(** ** The loop *)

Lemma tok_lengths :
  length tokSectionBegin = 28 /\ length tokCallBegin = 19 /\
  length tokArgBegin = 28 /\ length tokCallEnd = 17 /\
  length tokSectionEnd = 26.
Proof. repeat split. Qed.

(** A pass that goes round again has shortened [buf]. *)
Lemma step_again_shorter (t t' : ToolCallTransformer) (base : Chunk)
    (o : list SSE) :
  step t base = (t', o, true) -> length (buf t') < length (buf t).
Proof.
  destruct tok_lengths as (L1 & L2 & L3 & L4 & L5).
  unfold step. destruct (state t).
  - destruct (Index (buf t) tokSectionBegin) as [i|] eqn:E; [|discriminate].
    intros [= <- _]. simpl. apply Index_Some_bound in E.
    rewrite length_skipn. lia.
  - destruct (Index (buf t) tokSectionEnd) as [e|];
      destruct (Index (buf t) tokCallBegin) as [i|] eqn:E;
      try destruct (e <? i); try discriminate;
      intros [= <- _]; simpl; apply Index_Some_bound in E;
      rewrite length_skipn; lia.
  - destruct (Index (buf t) tokArgBegin) as [i|] eqn:E; [|discriminate].
    intros [= <- _]. simpl. apply Index_Some_bound in E.
    rewrite length_skipn. lia.
  - destruct (Index (buf t) tokCallEnd) as [i|] eqn:E.
    + intros [= <- _]. simpl. apply Index_Some_bound in E.
      rewrite length_skipn. lia.
    + destruct (isEmpty (buf t)); discriminate.
  - discriminate.
Qed.

(** Above [length buf] the fuel does not matter: the loop has returned
    before it runs out, so [processReasoning] is the [for] loop run to its
    [return]. *)
Lemma loop_fuel (f1 f2 : nat) (t : ToolCallTransformer) (base : Chunk)
    (out : list SSE) :
  length (buf t) < f1 -> length (buf t) < f2 ->
  loop f1 t base out = loop f2 t base out.
Proof.
  revert f2 t out; induction f1 as [|f1 IH]; intros f2 t out H1 H2; [lia|].
  destruct f2 as [|f2]; [lia|]. simpl.
  destruct (step t base) as [[t' o] again] eqn:E.
  destruct again; [|reflexivity].
  apply step_again_shorter in E. apply IH; lia.
Qed.

(** The frames already in [out] stay in front. *)
Lemma loop_out (f : nat) (t : ToolCallTransformer) (base : Chunk)
    (out : list SSE) :
  loop f t base out =
  (fst (loop f t base []), out ++ snd (loop f t base [])).
Proof.
  revert t out; induction f as [|f IH]; intros t out; simpl.
  - now rewrite app_nil_r.
  - destruct (step t base) as [[t' o] again]. destruct again.
    + rewrite (IH t' (out ++ o)), (IH t' o). simpl.
      now rewrite app_assoc.
    + reflexivity.
Qed.

(** [processReasoning], one pass at a time. *)
Lemma processReasoning_step (t : ToolCallTransformer) (base : Chunk)
    (text : gostring) :
  processReasoning t base text =
  let '(t', o, again) := step (setBuf t (buf t ++ text)) base in
  if again
  then (fst (loop (S (length (buf t'))) t' base []),
        o ++ snd (loop (S (length (buf t'))) t' base []))
  else (t', o).
Proof.
  unfold processReasoning. cbn [loop].
  destruct (step (setBuf t (buf t ++ text)) base) as [[t' o] again] eqn:E.
  destruct again; [|reflexivity].
  pose proof (step_again_shorter _ _ _ _ E) as Hlt.
  rewrite (loop_fuel _ (S (length (buf t'))) t') by lia.
  now rewrite loop_out.
Qed.

(** An invariant of the frames: what every pass keeps, the loop keeps. *)
Lemma loop_invariant (P : ToolCallTransformer -> list SSE -> Prop)
    (base : Chunk) :
  (forall t out t' o again,
      P t out -> step t base = (t', o, again) -> P t' (out ++ o)) ->
  forall f t out, P t out ->
    P (fst (loop f t base out)) (snd (loop f t base out)).
Proof.
  intros Hstep f; induction f as [|f IH]; intros t out HP; simpl; [exact HP|].
  destruct (step t base) as [[t' o] again] eqn:E.
  pose proof (Hstep _ _ _ _ _ HP E) as HP'.
  destruct again; [now apply IH | exact HP'].
Qed.

(** ** Passthrough *)

Lemma promote_choices (chunk : Chunk) (c0 : Choice) (rest : list Choice) :
  Choices chunk = c0 :: rest ->
  Choices (promote chunk) =
  mkChoice (cIndex c0)
    (mkDelta (Content (cDelta c0)) (Reasoning (cDelta c0))
       (ReasoningContent (cDelta c0)) (ToolCalls (cDelta c0)) None)
    (finishOf c0) :: rest.
Proof.
  intros H. unfold promote, finishOf. rewrite H.
  destruct c0 as [i [c r rc tcs [fr|]] cf]; simpl; [reflexivity|].
  now rewrite H.
Qed.

Lemma promote_no_choice (chunk : Chunk) :
  Choices chunk = [] -> promote chunk = chunk.
Proof. intros H. unfold promote. now rewrite H. Qed.

Lemma promote_reasoning (chunk : Chunk) :
  reasoningTextOf (promote chunk) = reasoningTextOf chunk.
Proof.
  unfold reasoningTextOf. destruct (Choices chunk) as [|c0 rest] eqn:E.
  - now rewrite promote_no_choice, E.
  - now rewrite (promote_choices _ _ _ E).
Qed.

Lemma promote_content (chunk : Chunk) :
  contentOf (promote chunk) = contentOf chunk.
Proof.
  unfold contentOf. destruct (Choices chunk) as [|c0 rest] eqn:E.
  - now rewrite promote_no_choice, E.
  - now rewrite (promote_choices _ _ _ E).
Qed.

(** In state Idle a chunk without [<|tool_call] in its reasoning text
    takes the fast path: one frame, the promoted chunk. *)
Lemma processEvent_idle_passthrough (t : ToolCallTransformer) (chunk : Chunk) :
  state t = stateIdle -> tokenFree chunk ->
  processEvent t (UpChunk chunk) = (t, [JSONFrame Passthrough (promote chunk)]).
Proof.
  intros Hs Hf. unfold processEvent, tokenFree in *.
  rewrite <- promote_reasoning in Hf. unfold reasoningTextOf in Hf.
  destruct (Choices (promote chunk)) as [|c0 rest]; [reflexivity|].
  now rewrite Hs, Hf.
Qed.

Lemma promote_choices' (chunk : Chunk) (c0 : Choice) (rest : list Choice) :
  Choices chunk = c0 :: rest ->
  Choices (promote chunk) =
  mkChoice (cIndex c0) (clearFinish (cDelta c0)) (finishOf c0) :: rest.
Proof. exact (promote_choices chunk c0 rest). Qed.


Lemma run_cons (t : ToolCallTransformer) (ev : Upstream) (evs : list Upstream) :
  run t (ev :: evs) =
  (fst (run (fst (processEvent t ev)) evs),
   snd (processEvent t ev) ++ snd (run (fst (processEvent t ev)) evs)).
Proof.
  cbn [run]. destruct (processEvent t ev) as [t1 o1]. cbn [fst snd].
  now destruct (run t1 evs) as [t2 o2].
Qed.

Lemma run_app (t : ToolCallTransformer) (evs1 evs2 : list Upstream) :
  run t (evs1 ++ evs2) =
  (fst (run (fst (run t evs1)) evs2),
   snd (run t evs1) ++ snd (run (fst (run t evs1)) evs2)).
Proof.
  revert t; induction evs1 as [|ev evs1 IH]; intros t.
  - simpl. now destruct (run t evs2).
  - rewrite <- app_comm_cons, !run_cons, IH. simpl. now rewrite app_assoc.
Qed.

Lemma run_idle_passthrough (t : ToolCallTransformer) (chunks : list Chunk) :
  state t = stateIdle -> Forall tokenFree chunks ->
  run t (map UpChunk chunks) =
  (t, map (fun c => JSONFrame Passthrough (promote c)) chunks).
Proof.
  intros Hs H. induction H as [|c chunks Hc _ IH]; [reflexivity|].
  cbn [map]. rewrite run_cons, (processEvent_idle_passthrough _ _ Hs Hc).
  cbn [fst snd]. now rewrite IH.
Qed.

(** C6 (amended).  When no chunk of the stream holds [<|tool_call] in its
    reasoning text, a rewriter in state Idle (a fresh one is) emits every
    chunk as one passthrough frame and stays as it was: the reasoning text
    stays in the reasoning fields, whose concatenation over the emitted
    chunks is that of the upstream chunks, and the emitted content fields
    are the upstream content fields; reasoning is not moved to content. *)
Theorem reasoning_bytes_conserved (t : ToolCallTransformer) (chunks : list Chunk) :
  state t = stateIdle -> Forall tokenFree chunks ->
  run t (map UpChunk chunks) =
    (t, map (fun c => JSONFrame Passthrough (promote c)) chunks) /\
  emittedReasoning (snd (run t (map UpChunk chunks))) = upstreamReasoning chunks /\
  emittedContent (snd (run t (map UpChunk chunks))) = upstreamContent chunks.
Proof.
  intros Hs H. rewrite (run_idle_passthrough _ _ Hs H). cbn [snd].
  split; [reflexivity|].
  unfold emittedReasoning, emittedContent, upstreamReasoning, upstreamContent.
  clear. split; induction chunks as [|c chunks IH]; simpl; try reflexivity.
  - now rewrite IH, promote_reasoning.
  - now rewrite IH, promote_content.
Qed.

(** ** Built chunks *)

Lemma step_builtOn (t t' : ToolCallTransformer) (base : Chunk) (o : list SSE)
    (again : bool) :
  step t base = (t', o, again) -> Forall (builtOn base) o.
Proof.
  assert (HC : forall s, builtOn base (makeContentChunk base s))
    by (intros s; exists ContentChunk; eexists; split; [discriminate | reflexivity]).
  assert (HH : forall u n, builtOn base (makeToolCallHeader u base n))
    by (intros u n; exists HeaderChunk; eexists; split; [discriminate | reflexivity]).
  assert (HA : forall u a, builtOn base (makeArgsDelta u base a))
    by (intros u a; exists ArgsDelta; eexists; split; [discriminate | reflexivity]).
  unfold step. destruct (state t).
  - destruct (Index (buf t) tokSectionBegin) as [i|].
    + intros [= _ <- _]. destruct (0 <? i); auto.
    + intros [= _ <- _]. constructor.
  - destruct (Index (buf t) tokSectionEnd) as [e|];
      destruct (Index (buf t) tokCallBegin) as [i|];
      try destruct (e <? i); intros [= _ <- _];
      try destruct (isEmpty _); auto.
  - destruct (Index (buf t) tokArgBegin) as [i|]; intros [= _ <- _]; auto.
  - destruct (Index (buf t) tokCallEnd) as [i|].
    + intros [= _ <- _]. destruct (isEmpty _); auto.
    + destruct (isEmpty (buf t)); intros [= _ <- _]; auto.
  - intros [= _ <- _]. constructor.
Qed.

Lemma loop_builtOn (f : nat) (t : ToolCallTransformer) (base : Chunk)
    (out : list SSE) :
  Forall (builtOn base) out -> Forall (builtOn base) (snd (loop f t base out)).
Proof.
  apply (loop_invariant (fun _ out => Forall (builtOn base) out)).
  intros u out' u' o again H E. apply Forall_app. split; [exact H|].
  exact (step_builtOn _ _ _ _ _ E).
Qed.

Lemma processReasoning_builtOn (t : ToolCallTransformer) (base : Chunk)
    (text : gostring) :
  Forall (builtOn base) (snd (processReasoning t base text)).
Proof. unfold processReasoning. apply loop_builtOn. constructor. Qed.

Lemma built_choices (base : Chunk) (c0 : Choice) (rest : list Choice) (d : Delta) :
  Choices base = c0 :: rest ->
  Choices (setDelta0 (shallowCopy base) d) = [mkChoice (cIndex c0) d (cFinishReason c0)].
Proof. intros H. unfold setDelta0, shallowCopy. now rewrite H. Qed.

(** C10.  Every chunk the rewriter builds from an upstream chunk (content
    chunk, tool-call header or argument delta: every frame that is not a
    passthrough) has a single choice, with the index of the upstream
    chunk's first choice and the [finish_reason] that choice carries after
    promotion; so when a chunk with reasoning text and a [finish_reason] is
    rewritten, the chunks built from it carry that [finish_reason]. *)
Theorem built_chunk_carries_finish_reason (t : ToolCallTransformer)
    (chunk : Chunk) (c0 : Choice) (rest : list Choice) (o : Origin) (c : Chunk) :
  Choices chunk = c0 :: rest ->
  In (JSONFrame o c) (snd (processEvent t (UpChunk chunk))) ->
  o <> Passthrough ->
  exists d, Choices c = [mkChoice (cIndex c0) d (finishOf c0)].
Proof.
  intros Hc Hin Ho. pose proof (promote_choices' _ _ _ Hc) as Hp.
  set (c0' := mkChoice (cIndex c0) (clearFinish (cDelta c0)) (finishOf c0)) in *.
  pose proof (processReasoning_builtOn t (promote chunk) (reasoningOf c0')) as Hb.
  assert (Hgo : In (JSONFrame o c)
                  (snd (processReasoning t (promote chunk) (reasoningOf c0')))).
  { unfold processEvent in Hin. rewrite Hp in Hin.
    destruct (state t); try exact Hin.
    destruct (negb _); [|exact Hin].
    destruct Hin as [Hin|[]]. injection Hin as <- _. congruence. }
  rewrite Forall_forall in Hb. destruct (Hb _ Hgo) as (k & d & _ & Hf).
  injection Hf as -> ->. exists d. now rewrite (built_choices _ _ _ _ Hp).
Qed.

(** ** Identifier parsing *)

Lemma Index_char (c : ascii) (s : gostring) :
  afterFirst c s =
  match Index s [c] with Some i => Some (skipn (i + 1) s) | None => None end.
Proof.
  induction s as [|x r IH]; [reflexivity|].
  rewrite Index_cons. simpl HasPrefix. rewrite HasPrefix_nil, andb_true_r.
  simpl afterFirst. destruct (Ascii.eqb x c); [reflexivity|].
  rewrite IH. now destruct (Index r [c]).
Qed.

Lemma LastIndex_char (c : ascii) (s : gostring) :
  beforeLast c s =
  match LastIndex s [c] with Some i => Some (firstn i s) | None => None end.
Proof.
  induction s as [|x r IH]; [reflexivity|].
  simpl beforeLast. simpl LastIndex. rewrite IH.
  destruct (LastIndex r [c]); [reflexivity|].
  rewrite HasPrefix_nil, andb_true_r. now destruct (Ascii.eqb x c).
Qed.

Lemma trimLeft_fixed (s : gostring) : startsSpace s = false -> trimLeft s = s.
Proof.
  destruct s as [|b0 [|b1 [|b2 r]]]; cbn [trimLeft startsSpace];
    try reflexivity; intros H;
    (destruct (isSpace b0); cbn [orb] in H; [discriminate|]); try reflexivity;
    (destruct (isSpace2 b0 b1); cbn [orb] in H; [discriminate|]); try reflexivity;
    destruct (isSpace3 b0 b1 b2); [discriminate | reflexivity].
Qed.

Lemma trimRev_fixed (s : gostring) : startsSpaceRev s = false -> trimRev s = s.
Proof.
  destruct s as [|b0 [|b1 [|b2 r]]]; cbn [trimRev startsSpaceRev];
    try reflexivity; intros H;
    (destruct (isSpace b0); cbn [orb] in H; [discriminate|]); try reflexivity;
    (destruct (isSpace2 b1 b0); cbn [orb] in H; [discriminate|]); try reflexivity;
    destruct (isSpace3 b2 b1 b0); [discriminate | reflexivity].
Qed.

(** What is left after trimming is a suffix and starts with no white
    space. *)
Lemma trimLeft_spec (n : nat) :
  forall s, length s <= n ->
    startsSpace (trimLeft s) = false /\ exists a, s = a ++ trimLeft s.
Proof.
  induction n as [|n IH]; intros s Hn.
  - destruct s; [|simpl in Hn; lia]. split; [reflexivity | now exists []].
  - destruct s as [|b0 r0]; [split; [reflexivity | now exists []]|].
    simpl in Hn. cbn [trimLeft]. destruct (isSpace b0) eqn:E0.
    { destruct (IH r0 ltac:(lia)) as [H1 [a H2]]. split; [exact H1|].
      exists (b0 :: a). simpl. now rewrite <- H2. }
    destruct r0 as [|b1 r1].
    { split; [cbn [startsSpace startsSpaceRev]; now rewrite E0 | now exists []]. }
    simpl in Hn. destruct (isSpace2 b0 b1) eqn:E1.
    { destruct (IH r1 ltac:(lia)) as [H1 [a H2]]. split; [exact H1|].
      exists (b0 :: b1 :: a). simpl. now rewrite <- H2. }
    destruct r1 as [|b2 r2].
    { split; [cbn [startsSpace startsSpaceRev]; now rewrite E0, E1 | now exists []]. }
    simpl in Hn. destruct (isSpace3 b0 b1 b2) eqn:E2.
    { destruct (IH r2 ltac:(lia)) as [H1 [a H2]]. split; [exact H1|].
      exists (b0 :: b1 :: b2 :: a). simpl. now rewrite <- H2. }
    split; [cbn [startsSpace startsSpaceRev]; now rewrite E0, E1, E2 | now exists []].
Qed.

Lemma trimRev_spec (n : nat) :
  forall s, length s <= n ->
    startsSpaceRev (trimRev s) = false /\ exists a, s = a ++ trimRev s.
Proof.
  induction n as [|n IH]; intros s Hn.
  - destruct s; [|simpl in Hn; lia]. split; [reflexivity | now exists []].
  - destruct s as [|b0 r0]; [split; [reflexivity | now exists []]|].
    simpl in Hn. cbn [trimRev]. destruct (isSpace b0) eqn:E0.
    { destruct (IH r0 ltac:(lia)) as [H1 [a H2]]. split; [exact H1|].
      exists (b0 :: a). simpl. now rewrite <- H2. }
    destruct r0 as [|b1 r1].
    { split; [cbn [startsSpace startsSpaceRev]; now rewrite E0 | now exists []]. }
    simpl in Hn. destruct (isSpace2 b1 b0) eqn:E1.
    { destruct (IH r1 ltac:(lia)) as [H1 [a H2]]. split; [exact H1|].
      exists (b0 :: b1 :: a). simpl. now rewrite <- H2. }
    destruct r1 as [|b2 r2].
    { split; [cbn [startsSpace startsSpaceRev]; now rewrite E0, E1 | now exists []]. }
    simpl in Hn. destruct (isSpace3 b2 b1 b0) eqn:E2.
    { destruct (IH r2 ltac:(lia)) as [H1 [a H2]]. split; [exact H1|].
      exists (b0 :: b1 :: b2 :: a). simpl. now rewrite <- H2. }
    split; [cbn [startsSpace startsSpaceRev]; now rewrite E0, E1, E2 | now exists []].
Qed.

(** A white-space rune at the start of a prefix is one at the start of
    the text. *)
Lemma startsSpace_app (a b : gostring) :
  startsSpace a = true -> startsSpace (a ++ b) = true.
Proof.
  destruct a as [|b0 [|b1 [|b2 r]]]; cbn [startsSpace app];
    try discriminate; intros H.
  - rewrite orb_false_r in H. now rewrite H.
  - rewrite orb_false_r in H. apply orb_true_iff in H as [H|H]; rewrite H;
      [reflexivity | now rewrite orb_true_r].
  - exact H.
Qed.

(** Trimming twice is trimming once. *)
Lemma TrimSpace_idem (s : gostring) : TrimSpace (TrimSpace s) = TrimSpace s.
Proof.
  unfold TrimSpace. set (u := trimLeft s).
  destruct (trimLeft_spec (length s) s (le_n _)) as [Hu _]. fold u in Hu.
  destruct (trimRev_spec (length (rev u)) (rev u) (le_n _)) as [Hw [a Ha]].
  set (w := trimRev (rev u)) in *.
  assert (Hv : startsSpace (rev w) = false).
  { destruct (startsSpace (rev w)) eqn:E; [|reflexivity].
    apply (startsSpace_app _ (rev a)) in E.
    rewrite <- rev_app_distr, <- Ha, rev_involutive in E. congruence. }
  rewrite (trimLeft_fixed _ Hv), rev_involutive.
  now rewrite (trimRev_fixed _ Hw).
Qed.

Lemma parseFunctionName_spec (raw : gostring) :
  parseFunctionName raw = specFunctionName (TrimSpace raw).
Proof.
  unfold parseFunctionName, specFunctionName.
  rewrite Index_char. change (str ".") with ["."%char].
  destruct (Index (TrimSpace raw) ["."%char]);
    rewrite LastIndex_char; change (str ":") with [":"%char];
    now destruct (LastIndex _ [":"%char]).
Qed.

Lemma parseToolCallID_spec (raw : gostring) (index : Z) :
  fst (parseToolCallID raw index) =
  specToolCallID (TrimSpace raw) index (UnixMilli index).
Proof.
  unfold parseToolCallID, specToolCallID.
  now destruct (HasPrefix (TrimSpace raw) (str "call_")).
Qed.

(** C8.  When [A_BEG] is found in state ReadingID, the raw identifier is
    the text before it, trimmed.  The id of the header is that identifier
    verbatim when it begins with [call_], and [call_<toolIndex>_<millis>]
    otherwise; the function name of the header is the substring of the
    trimmed identifier after its first [.] (if any) and then before the
    last [:] (if any).  [parseToolCallID] and [parseFunctionName] compute
    these on every input; [functions.bash:15] gives [bash],
    [my.pkg.task:3] gives [pkg.task] and [do_it] gives [do_it]. *)
Theorem identifier_rules (t : ToolCallTransformer) (base : Chunk) (k : nat)
    (c0 : Choice) (rest : list Choice) :
  state t = stateReadingID ->
  Index (buf t) tokArgBegin = Some k ->
  Choices base = c0 :: rest ->
  let trimmed := TrimSpace (firstn k (buf t)) in
  let id := specToolCallID trimmed (toolIndex t) (UnixMilli (toolIndex t)) in
  let name := specFunctionName trimmed in
  let t' := mkT stateReadingArgs (skipn (k + length tokArgBegin) (buf t))
                (toolIndex t) id in
  step t base = (t', [makeToolCallHeader t' base name], true) /\
  deltasOf [makeToolCallHeader t' base name] =
    [mkDelta [] [] []
       [mkToolCall id (str "function") (toolIndex t) (mkFunction name [])] None] /\
  (forall raw index,
      fst (parseToolCallID raw index) =
        specToolCallID (TrimSpace raw) index (UnixMilli index) /\
      parseFunctionName raw = specFunctionName (TrimSpace raw)) /\
  parseFunctionName (str "functions.bash:15") = str "bash" /\
  parseFunctionName (str "my.pkg.task:3") = str "pkg.task" /\
  parseFunctionName (str "do_it") = str "do_it".
Proof.
  intros Hs Hk Hc trimmed id name t'. split; [|split; [|split]].
  - unfold step. rewrite Hs, Hk.
    rewrite parseToolCallID_spec, parseFunctionName_spec, TrimSpace_idem.
    reflexivity.
  - unfold deltasOf, makeToolCallHeader. cbn [flat_map].
    now rewrite (built_choices _ _ _ _ Hc).
  - intros raw index. split;
      [apply parseToolCallID_spec | apply parseFunctionName_spec].
  - repeat split.
Qed.

(** ** Frames of a run *)

Lemma loop_Forall (Q : SSE -> Prop) (base : Chunk) :
  (forall t t' o again, step t base = (t', o, again) -> Forall Q o) ->
  forall f t out, Forall Q out -> Forall Q (snd (loop f t base out)).
Proof.
  intros Hstep. apply (loop_invariant (fun _ out => Forall Q out)).
  intros u out' u' o again H E. apply Forall_app. split; [exact H|].
  exact (Hstep _ _ _ _ E).
Qed.

(** A property of every frame of every event, from the same property of
    the frames of a pass and of the frames [processEvent] writes itself. *)
Lemma processEvent_Forall (Q : SSE -> Prop) :
  (forall base t t' o again,
      Choices base <> [] -> step t base = (t', o, again) -> Forall Q o) ->
  Q DoneFrame -> (forall s, Q (RawFrame s)) ->
  (forall c, Q (JSONFrame Passthrough c)) ->
  forall t ev, Forall Q (snd (processEvent t ev)).
Proof.
  intros Hstep HD HR HP t ev.
  destruct ev as [| |s|chunk]; simpl; try (repeat constructor; auto; fail).
  destruct (Choices (promote chunk)) as [|c0 rest] eqn:E;
    [repeat constructor; auto|].
  assert (Hloop : forall text,
             Forall Q (snd (processReasoning t (promote chunk) text))).
  { intros text. unfold processReasoning. apply loop_Forall; [|constructor].
    intros u u' o again. apply Hstep. congruence. }
  destruct (state t); try apply Hloop.
  destruct (negb _); [repeat constructor; auto | apply Hloop].
Qed.

Lemma run_Forall (Q : SSE -> Prop) :
  (forall t ev, Forall Q (snd (processEvent t ev))) ->
  forall evs t, Forall Q (snd (run t evs)).
Proof.
  intros H evs; induction evs as [|ev evs IH]; intros t; [constructor|].
  rewrite run_cons. cbn [snd]. apply Forall_app. split; [apply H | apply IH].
Qed.

(** ** Argument flush *)

Lemma argumentsOf_makeArgsDelta (t : ToolCallTransformer) (base : Chunk)
    (args : gostring) (c : Chunk) :
  Choices base <> [] ->
  makeArgsDelta t base args = JSONFrame ArgsDelta c -> argumentsOf c = args.
Proof.
  intros Hb [= <-]. destruct (Choices base) as [|c0 rest] eqn:E; [congruence|].
  unfold argumentsOf, toolCallOf. now rewrite (built_choices _ _ _ _ E).
Qed.

Lemma contentOf_makeContentChunk (base : Chunk) (s : gostring) (c : Chunk) :
  Choices base <> [] ->
  makeContentChunk base s = JSONFrame ContentChunk c -> contentOf c = s.
Proof.
  intros Hb [= <-]. destruct (Choices base) as [|c0 rest] eqn:E; [congruence|].
  unfold contentOf. now rewrite (built_choices _ _ _ _ E).
Qed.

Lemma tokCallEnd_nonempty : tokCallEnd <> [].
Proof. discriminate. Qed.

Lemma tokSectionBegin_nonempty : tokSectionBegin <> [].
Proof. discriminate. Qed.

(** No argument delta of a pass holds a complete [C_END]. *)
Lemma step_args_no_C_END (base : Chunk) (t t' : ToolCallTransformer)
    (o : list SSE) (again : bool) :
  Choices base <> [] -> step t base = (t', o, again) ->
  Forall (fun f => forall c, f = JSONFrame ArgsDelta c ->
                     Index (argumentsOf c) tokCallEnd = None) o.
Proof.
  intros Hb. unfold step. destruct (state t).
  - destruct (Index (buf t) tokSectionBegin) as [i|]; intros [= _ <- _].
    + destruct (0 <? i); repeat constructor. discriminate.
    + constructor.
  - destruct (Index (buf t) tokSectionEnd) as [e|];
      destruct (Index (buf t) tokCallBegin) as [i|];
      try destruct (e <? i); intros [= _ <- _];
      try destruct (isEmpty _); repeat constructor; discriminate.
  - destruct (Index (buf t) tokArgBegin) as [i|]; intros [= _ <- _];
      repeat constructor. discriminate.
  - destruct (Index (buf t) tokCallEnd) as [i|] eqn:E.
    + intros [= _ <- _]. destruct (isEmpty _); repeat constructor.
      intros c Hc. rewrite (argumentsOf_makeArgsDelta _ _ _ _ Hb Hc).
      exact (Index_firstn_None _ _ _ tokCallEnd_nonempty E).
    + destruct (isEmpty (buf t)); intros [= _ <- _]; repeat constructor.
      intros c Hc. now rewrite (argumentsOf_makeArgsDelta _ _ _ _ Hb Hc).
  - intros [= _ <- _]. constructor.
Qed.

Lemma run_args_no_C_END (t : ToolCallTransformer) (evs : list Upstream) :
  Forall (fun f => forall c, f = JSONFrame ArgsDelta c ->
                     Index (argumentsOf c) tokCallEnd = None)
         (snd (run t evs)).
Proof.
  apply run_Forall. apply processEvent_Forall; try discriminate.
  intros base u u' o again. apply step_args_no_C_END.
Qed.

(** In state ReadingArgs an event with a choice goes to the state machine. *)
Lemma processEvent_readingArgs (t : ToolCallTransformer) (chunk : Chunk)
    (c0 : Choice) (rest : list Choice) :
  state t = stateReadingArgs -> Choices chunk = c0 :: rest ->
  processEvent t (UpChunk chunk) =
  processReasoning t (promote chunk) (reasoningOf c0).
Proof.
  intros Hs Hc. unfold processEvent.
  rewrite (promote_choices' _ _ _ Hc), Hs. reflexivity.
Qed.

(** With no complete [C_END] in the buffer, all of it is flushed. *)
Lemma processReasoning_flush (t : ToolCallTransformer) (base : Chunk)
    (text : gostring) :
  state t = stateReadingArgs ->
  Index (buf t ++ text) tokCallEnd = None ->
  processReasoning t base text =
  (setBuf t [],
   if isEmpty (buf t ++ text) then []
   else [makeArgsDelta t base (buf t ++ text)]).
Proof.
  intros Hs Hi. rewrite processReasoning_step. unfold step. simpl.
  rewrite Hs, Hi. now destruct (buf t ++ text).
Qed.

Lemma step_idle_content_no_S_BEG (base : Chunk) (t t' : ToolCallTransformer)
    (o : list SSE) (again : bool) (c : Chunk) :
  state t = stateIdle -> Choices base <> [] ->
  step t base = (t', o, again) -> In (JSONFrame ContentChunk c) o ->
  Index (contentOf c) tokSectionBegin = None.
Proof.
  intros Hs Hb. unfold step. rewrite Hs.
  destruct (Index (buf t) tokSectionBegin) as [i|] eqn:E;
    intros [= _ <- _]; [|intros []].
  destruct (0 <? i); [intros [Hc|[]] | intros []].
  rewrite (contentOf_makeContentChunk _ _ _ Hb Hc).
  exact (Index_firstn_None _ _ _ tokSectionBegin_nonempty E).
Qed.

(** C1 (amended).  The rewriter does not hold bytes back at a [<].  In
    state ReadingArgs, when the buffer (with the text of the chunk fed)
    holds no complete [C_END], is not empty and does not end with a proper
    prefix of [C_END], the whole buffer, bytes after a [<] included, is
    emitted as one argument delta and [buf] is left empty.  In every run,
    no argument delta holds a complete [C_END] in its arguments, and a
    content chunk emitted on leaving state Idle holds no complete
    [S_BEG]. *)
Theorem argument_flush (t : ToolCallTransformer) (chunk : Chunk)
    (c0 : Choice) (rest : list Choice) :
  state t = stateReadingArgs ->
  Choices chunk = c0 :: rest ->
  Index (buf t ++ reasoningOf c0) tokCallEnd = None ->
  endsInPartial tokCallEnd (buf t ++ reasoningOf c0) = false ->
  buf t ++ reasoningOf c0 <> [] ->
  (exists c,
      processEvent t (UpChunk chunk) = (setBuf t [], [JSONFrame ArgsDelta c]) /\
      argumentsOf c = buf t ++ reasoningOf c0) /\
  (forall u evs c,
      In (JSONFrame ArgsDelta c) (snd (run u evs)) ->
      Index (argumentsOf c) tokCallEnd = None) /\
  (forall u base u' o again c,
      state u = stateIdle -> Choices base <> [] ->
      step u base = (u', o, again) -> In (JSONFrame ContentChunk c) o ->
      Index (contentOf c) tokSectionBegin = None).
Proof.
  intros Hs Hc Hi _ Hne. split; [|split].
  - rewrite (processEvent_readingArgs _ _ _ _ Hs Hc).
    rewrite (processReasoning_flush _ _ _ Hs Hi).
    destruct (buf t ++ reasoningOf c0) as [|x b] eqn:E; [congruence|].
    cbn [isEmpty]. eexists. split; [reflexivity|].
    eapply argumentsOf_makeArgsDelta; [|reflexivity].
    rewrite (promote_choices' _ _ _ Hc). discriminate.
  - intros u evs c Hin. pose proof (run_args_no_C_END u evs) as H.
    rewrite Forall_forall in H. exact (H _ Hin c eq_refl).
  - intros u base u' o again c. apply step_idle_content_no_S_BEG.
Qed.

(** ** Order of the emitted chunks *)

Lemma mrun_app (s : option Z * bool) (tr1 tr2 : list Mark) :
  mrun s (tr1 ++ tr2) =
  match mrun s tr1 with Some s' => mrun s' tr2 | None => None end.
Proof.
  revert s; induction tr1 as [|m tr1 IH]; intros s; simpl; [reflexivity|].
  destruct (mstep s m); [apply IH | reflexivity].
Qed.

Lemma markOf_content (base : Chunk) (x : gostring) :
  markOf (makeContentChunk base x) = MContent.
Proof. reflexivity. Qed.

Lemma markOf_header (t : ToolCallTransformer) (base : Chunk) (n : gostring) :
  Choices base <> [] -> markOf (makeToolCallHeader t base n) = MHeader (toolIndex t).
Proof.
  intros Hb. destruct (Choices base) as [|c0 rest] eqn:E; [congruence|].
  unfold markOf, makeToolCallHeader, toolCallOf.
  now rewrite (built_choices _ _ _ _ E).
Qed.

Lemma markOf_args (t : ToolCallTransformer) (base : Chunk) (a : gostring) :
  Choices base <> [] -> markOf (makeArgsDelta t base a) = MArgs (toolIndex t).
Proof.
  intros Hb. destruct (Choices base) as [|c0 rest] eqn:E; [congruence|].
  unfold markOf, makeArgsDelta, toolCallOf.
  now rewrite (built_choices _ _ _ _ E).
Qed.

(** The monitor accepts the frames of a pass and still agrees after it. *)
Lemma step_monitor (base : Chunk) (t t' : ToolCallTransformer) (o : list SSE)
    (again : bool) (s : option Z * bool) :
  Choices base <> [] -> agrees t s -> step t base = (t', o, again) ->
  exists s', mrun s (map markOf o) = Some s' /\ agrees t' s'.
Proof.
  intros Hb. unfold agrees, step. destruct (state t) eqn:Hs.
  - intros ->. destruct (Index (buf t) tokSectionBegin) as [i|];
      intros [= <- <- _]; simpl.
    + destruct (0 <? i); simpl; eexists; (split; [reflexivity|]); simpl; auto.
    + rewrite Hs. now eexists.
  - intros Hcl. destruct s as [last closed]. simpl in Hcl. subst closed.
    destruct (Index (buf t) tokSectionEnd) as [e|];
      destruct (Index (buf t) tokCallBegin) as [i|];
      try destruct (e <? i); intros [= <- <- _]; simpl;
      try destruct (isEmpty _); simpl; try rewrite Hs;
      eexists; (split; [reflexivity|]); simpl; auto.
  - intros Hcl. destruct s as [last closed]. simpl in Hcl. subst closed.
    destruct (Index (buf t) tokArgBegin) as [i|]; intros [= <- <- _].
    + cbn [map]. rewrite (markOf_header _ _ _ Hb). simpl. now eexists.
    + simpl. rewrite Hs. now eexists.
  - intros ->. destruct (Index (buf t) tokCallEnd) as [i|].
    + intros [= <- <- _]. destruct (isEmpty _); cbn [map].
      * simpl. eexists. split; reflexivity.
      * rewrite (markOf_args _ _ _ Hb). simpl. rewrite Z.eqb_refl.
        eexists. split; reflexivity.
    + destruct (isEmpty (buf t)); intros [= <- <- _]; cbn [map].
      * simpl. rewrite Hs. now eexists.
      * rewrite (markOf_args _ _ _ Hb). simpl. rewrite Z.eqb_refl, Hs.
        now eexists.
  - intros _ [= <- <- _]. simpl. rewrite Hs. now eexists.
Qed.

Lemma loop_monitor (base : Chunk) (f : nat) (t : ToolCallTransformer)
    (out : list SSE) (s0 : option Z * bool) :
  Choices base <> [] ->
  (exists s, mrun s0 (map markOf out) = Some s /\ agrees t s) ->
  exists s, mrun s0 (map markOf (snd (loop f t base out))) = Some s /\
            agrees (fst (loop f t base out)) s.
Proof.
  intros Hb.
  apply (loop_invariant
           (fun t out => exists s, mrun s0 (map markOf out) = Some s /\ agrees t s)).
  intros u out' u' o again (s & Hm & Ha) E.
  destruct (step_monitor _ _ _ _ _ _ Hb Ha E) as (s' & Hm' & Ha').
  exists s'. split; [|exact Ha']. now rewrite map_app, mrun_app, Hm.
Qed.

Lemma processEvent_monitor (t : ToolCallTransformer) (ev : Upstream)
    (s : option Z * bool) :
  agrees t s ->
  exists s', mrun s (map markOf (snd (processEvent t ev))) = Some s' /\
             agrees (fst (processEvent t ev)) s'.
Proof.
  intros Ha.
  assert (Hsame : forall f, markOf f = MOther ->
            exists s', mrun s (map markOf [f]) = Some s' /\ agrees t s').
  { intros f Hf. exists s. simpl. rewrite Hf. now split. }
  destruct ev as [| |x|chunk]; cbn [processEvent fst snd].
  - exists s. now split.
  - now apply Hsame.
  - now apply Hsame.
  - destruct (Choices (promote chunk)) as [|c0 rest] eqn:E; [now apply Hsame|].
    assert (Hloop : forall text,
      exists s', mrun s (map markOf (snd (processReasoning t (promote chunk) text)))
                 = Some s' /\
                 agrees (fst (processReasoning t (promote chunk) text)) s').
    { intros text. unfold processReasoning. apply loop_monitor; [congruence|].
      exists s. split; [reflexivity|]. exact Ha. }
    destruct (state t) eqn:Hs; try apply Hloop.
    destruct (negb _); [now apply Hsame | apply Hloop].
Qed.

Lemma run_monitor (evs : list Upstream) (t : ToolCallTransformer)
    (s : option Z * bool) :
  agrees t s ->
  exists s', mrun s (map markOf (snd (run t evs))) = Some s'.
Proof.
  revert t s; induction evs as [|ev evs IH]; intros t s Ha; [now exists s|].
  rewrite run_cons. cbn [snd]. rewrite map_app, mrun_app.
  destruct (processEvent_monitor t ev s Ha) as (s1 & -> & Ha1).
  exact (IH _ _ Ha1).
Qed.

(** Once the section is closed no header and no argument delta follows. *)
Lemma mrun_closed (tr : list Mark) (s s' : option Z * bool) (l k : Z) :
  mrun s tr = Some s' -> s = (Some l, true) ->
  ~ In (MArgs k) tr /\ ~ In (MHeader k) tr.
Proof.
  revert s; induction tr as [|m tr IH]; intros s H ->; simpl in *.
  - split; intros [].
  - destruct m as [j|j| |]; simpl in H; try discriminate;
      destruct (IH _ H eq_refl) as [IA IH'];
      split; intros [Hm|Hin]; try discriminate; auto.
Qed.

Lemma mstep_remembers (s s' : option Z * bool) (m : Mark) (l : Z) :
  mstep s m = Some s' -> fst s = Some l -> exists l', fst s' = Some l'.
Proof.
  destruct s as [last closed]. simpl. intros H ->.
  destruct m as [k|k| |]; simpl in H.
  - destruct closed; [discriminate|]. injection H as <-. now exists k.
  - destruct closed; [discriminate|]. destruct (l =? k)%Z; [|discriminate].
    injection H as <-. now exists l.
  - injection H as <-. now exists l.
  - injection H as <-. now exists l.
Qed.

(** Once a header was seen the monitor remembers one. *)
Lemma mrun_header_seen (tr : list Mark) (s s' : option Z * bool) (k : Z) :
  mrun s tr = Some s' -> In (MHeader k) tr -> exists l, fst s' = Some l.
Proof.
  revert s; induction tr as [|m tr IH]; intros s H Hin; simpl in *; [destruct Hin|].
  destruct (mstep s m) as [s1|] eqn:E; [|discriminate].
  destruct Hin as [->|Hin]; [|exact (IH _ H Hin)].
  assert (Hs1 : fst s1 = Some k).
  { simpl in E. destruct (snd s); [discriminate|]. now injection E as <-. }
  clear E IH. revert s1 k H Hs1. induction tr as [|m tr IH]; intros s1 k H Hs1.
  - injection H as <-. now exists k.
  - simpl in H. destruct (mstep s1 m) as [s2|] eqn:E; [|discriminate].
    destruct (mstep_remembers _ _ _ _ E Hs1) as (l' & Hl'). exact (IH _ _ H Hl').
Qed.

(** An argument delta is accepted only when the last header before it is
    the header of its index, with no content chunk in between. *)
Lemma mrun_args_header (pre post : list Mark) (s s' : option Z * bool) (k : Z) :
  mrun s (pre ++ MArgs k :: post) = Some s' ->
  (s = (Some k, false) /\ Forall plain pre) \/
  (exists pre1 pre2,
      pre = pre1 ++ MHeader k :: pre2 /\ Forall plain pre2).
Proof.
  revert s; induction pre as [|m pre IH]; intros s H; simpl in H.
  - left. destruct s as [last closed]. simpl in H.
    destruct closed; [discriminate|]. destruct last as [l|]; [|discriminate].
    destruct (l =? k)%Z eqn:E; [|discriminate]. apply Z.eqb_eq in E.
    subst. now split.
  - destruct (mstep s m) as [s1|] eqn:E; [|discriminate].
    destruct (IH _ H) as [[Hs1 Hpl]|(pre1 & pre2 & -> & Hpl)].
    + destruct s as [last closed]. destruct m as [j|j| |]; simpl in E.
      * right. destruct closed; [discriminate|]. injection E as <-.
        injection Hs1 as ->. now exists [], pre.
      * left. destruct closed; [discriminate|].
        destruct last as [l|]; [|discriminate].
        destruct (l =? j)%Z; [|discriminate]. injection E as <-.
        split; [exact Hs1 | now constructor].
      * exfalso. injection E as <-. injection Hs1 as -> Hc. discriminate.
      * left. injection E as <-. split; [exact Hs1 | now constructor].
    + right. now exists (m :: pre1), pre2.
Qed.

(** C9.  In the frames a fresh rewriter emits for any stream of events,
    where a header chunk, an argument delta and a content chunk are the
    frames built by [makeToolCallHeader], [makeArgsDelta] and
    [makeContentChunk]: before every argument delta for an index [k]
    stands a header chunk for [k], and between that header and the
    argument delta stands no other header and no content chunk (so the
    header of a call comes before each of its argument deltas, and these
    come before the header of the next call); and after a content chunk
    that follows a header (the section-trailing content) no header and no
    argument delta is emitted. *)
Theorem header_before_arguments (evs : list Upstream) (pre post : list SSE)
    (f : SSE) :
  snd (run NewToolCallTransformer evs) = pre ++ f :: post ->
  (forall k, markOf f = MArgs k ->
     exists pre1 h pre2,
       pre = pre1 ++ h :: pre2 /\ markOf h = MHeader k /\
       Forall (fun g => plain (markOf g)) pre2) /\
  (markOf f = MContent ->
     (exists h k, In h pre /\ markOf h = MHeader k) ->
     forall g j, In g post -> markOf g <> MArgs j /\ markOf g <> MHeader j).
Proof.
  intros Hrun.
  destruct (run_monitor evs NewToolCallTransformer (None, false) eq_refl)
    as [s' Hm].
  rewrite Hrun, map_app in Hm. cbn [map] in Hm. split.
  - intros k Hk. rewrite Hk in Hm.
    destruct (mrun_args_header _ _ _ _ _ Hm) as [[Hs _]|(p1 & p2 & Hp & Hpl)];
      [discriminate|].
    apply map_eq_app in Hp as (pre1 & tl & -> & <- & Htl).
    apply map_eq_cons in Htl as (h & pre2 & -> & Hh & <-).
    exists pre1, h, pre2. split; [reflexivity|]. split; [exact Hh|].
    rewrite Forall_map in Hpl. exact Hpl.
  - intros Hf (h & k & Hh & Hhk) g j Hg. rewrite Hf, mrun_app in Hm.
    destruct (mrun (None, false) (map markOf pre)) as [s1|] eqn:E1; [|discriminate].
    assert (Hin : In (MHeader k) (map markOf pre))
      by (rewrite <- Hhk; now apply in_map).
    destruct (mrun_header_seen _ _ _ _ E1 Hin) as [l Hl].
    cbn [mrun mstep] in Hm. rewrite Hl in Hm.
    destruct (mrun_closed _ _ _ l j Hm eq_refl) as [HA HH].
    split; intros Hj; [apply HA | apply HH]; rewrite <- Hj; now apply in_map.
Qed.

(** ** Fragments *)

Lemma firstn_app_le {A : Type} (n : nat) (s y : list A) :
  n <= length s -> firstn n (s ++ y) = firstn n s.
Proof.
  intros H. rewrite firstn_app. replace (n - length s) with 0 by lia.
  simpl. now rewrite app_nil_r.
Qed.

Lemma skipn_app_le {A : Type} (n : nat) (s y : list A) :
  n <= length s -> skipn n (s ++ y) = skipn n s ++ y.
Proof.
  intros H. rewrite skipn_app. now replace (n - length s) with 0 by lia.
Qed.

(** An occurrence in [s ++ y] that ends inside [s] is an occurrence in [s]. *)
Lemma HasPrefix_skipn_app_inv (s y p : gostring) (e : nat) :
  e + length p <= length s ->
  HasPrefix (skipn e (s ++ y)) p = true -> HasPrefix (skipn e s) p = true.
Proof.
  intros Hl H. rewrite skipn_app_le in H by lia.
  apply HasPrefix_true in H as [r Hr]. apply HasPrefix_true.
  exists (skipn (length p) (skipn e s)).
  rewrite <- (firstn_skipn (length p) (skipn e s)) at 1. f_equal.
  apply (f_equal (firstn (length p))) in Hr.
  rewrite firstn_app_le in Hr by (rewrite length_skipn; lia).
  rewrite firstn_app_le in Hr by lia. now rewrite firstn_all in Hr.
Qed.

Lemma HasPrefix_nth (s p : gostring) (d : nat) :
  HasPrefix s p = true -> d < length p -> nth_error s d = nth_error p d.
Proof.
  rewrite HasPrefix_true. intros [r ->] Hd. now rewrite nth_error_app1.
Qed.

Lemma Index_Some_prefix (s p : gostring) (i : nat) :
  Index s p = Some i -> HasPrefix (skipn i s) p = true.
Proof.
  intros H. apply Index_Some_split in H as [Hs Hb]. rewrite Hs at 1.
  rewrite skipn_app, skipn_all2, length_firstn by (rewrite length_firstn; lia).
  rewrite Nat.min_l, Nat.sub_diag by lia. cbn [app skipn]. apply HasPrefix_app.
Qed.

Lemma Index_Some_nth (s p : gostring) (i d : nat) :
  Index s p = Some i -> d < length p -> nth_error s (i + d) = nth_error p d.
Proof.
  intros H Hd. rewrite <- nth_error_skipn.
  apply HasPrefix_nth; [now apply Index_Some_prefix | exact Hd].
Qed.

(** [<] stands only at the start of [S_END]. *)
Lemma tokSectionEnd_lt (d : nat) :
  1 <= d -> d < length tokSectionEnd ->
  nth_error tokSectionEnd d <> Some "<"%char.
Proof.
  intros H1 H2. do 26 (destruct d as [|d]; [try lia; discriminate|]).
  simpl in H2. lia.
Qed.

(** A [C_BEG] found in the buffer stays ahead of any [S_END] that more
    text completes: the two delimiters cannot overlap. *)
Lemma sectionEnd_not_before (s y : gostring) (i e : nat) :
  Index s tokCallBegin = Some i -> Index s tokSectionEnd = None ->
  Index (s ++ y) tokSectionEnd = Some e -> i <= e.
Proof.
  intros Hi Hn He. destruct (le_lt_dec i e) as [|Hlt]; [assumption|exfalso].
  pose proof (Index_Some_bound _ _ _ Hi) as Hb.
  change (length tokCallBegin) with 19 in Hb.
  destruct (le_lt_dec (e + length tokSectionEnd) (length s)) as [Hin|Hout].
  - pose proof (Index_Some_prefix _ _ _ He) as Hp.
    apply HasPrefix_skipn_app_inv in Hp; [|exact Hin].
    pose proof (Index_None_skipn _ _ e Hn). congruence.
  - change (length tokSectionEnd) with 26 in Hout.
    pose proof (Index_Some_nth _ _ _ 0 Hi ltac:(simpl; lia)) as H1.
    rewrite Nat.add_0_r in H1.
    assert (H2 : nth_error (s ++ y) i = Some "<"%char)
      by (rewrite nth_error_app1 by lia; exact H1).
    pose proof (Index_Some_nth _ _ _ (i - e) He
                  ltac:(change (length tokSectionEnd) with 26; lia)) as H3.
    replace (e + (i - e)) with i in H3 by lia. rewrite H2 in H3.
    symmetry in H3. revert H3. apply tokSectionEnd_lt; [lia|].
    change (length tokSectionEnd) with 26. lia.
Qed.

Lemma HasSuffix_app (a s q : gostring) :
  HasSuffix s q = true -> HasSuffix (a ++ s) q = true.
Proof.
  unfold HasSuffix. rewrite rev_app_distr. apply HasPrefix_app_l.
Qed.

Lemma endsInPartial_app (p a s : gostring) :
  endsInPartial p (a ++ s) = false -> endsInPartial p s = false.
Proof.
  unfold endsInPartial. intros H.
  destruct (existsb _ _) eqn:E in |- *; [|reflexivity].
  apply existsb_exists in E as (k & Hk & Hs).
  rewrite <- H. symmetry. apply existsb_exists. exists k.
  split; [exact Hk | now apply HasSuffix_app].
Qed.

(** When [s] holds no [p] and does not end inside one, the first [p] of
    [s ++ y] is the first [p] of [y]. *)
Lemma Index_app_None (s y p : gostring) :
  Index s p = None -> endsInPartial p s = false ->
  Index (s ++ y) p = option_map (fun j => length s + j) (Index y p).
Proof.
  induction s as [|c s IH]; intros Hn Hp.
  - simpl. now destruct (Index y p).
  - rewrite <- app_comm_cons, Index_cons. rewrite Index_cons in Hn.
    destruct (HasPrefix (c :: s) p) eqn:E0; [discriminate|].
    destruct (Index s p) eqn:Es; [discriminate|].
    destruct (HasPrefix (c :: s ++ y) p) eqn:E.
    + exfalso. rewrite app_comm_cons in E.
      destruct (le_lt_dec (length p) (length (c :: s))) as [Hle|Hgt].
      * change (c :: s) with (skipn 0 (c :: s)) in E0.
        rewrite (HasPrefix_skipn_app_inv (c :: s) y p 0) in E0;
          [discriminate | simpl; simpl in Hle; lia | exact E].
      * apply HasPrefix_true in E as [r Hr].
        assert (Hs : firstn (length (c :: s)) p = c :: s).
        { apply (f_equal (firstn (length (c :: s)))) in Hr.
          rewrite firstn_app_le, firstn_all in Hr by lia.
          rewrite firstn_app_le in Hr by lia. now symmetry. }
        assert (Ht : endsInPartial p (c :: s) = true); [|congruence].
        apply existsb_exists. exists (length (c :: s)). split.
        -- apply in_seq. simpl. simpl in Hgt. lia.
        -- rewrite Hs. unfold HasSuffix. rewrite <- (app_nil_r (rev (c :: s))) at 1.
           apply HasPrefix_app.
    + rewrite IH; [|reflexivity|].
      * destruct (Index y p); reflexivity.
      * apply (endsInPartial_app p [c] s). exact Hp.
Qed.

Lemma processReasoning_drain (t : ToolCallTransformer) (base : Chunk)
    (text : gostring) :
  processReasoning t base text = drain (feedBuf t text) base.
Proof. reflexivity. Qed.

Lemma drain_step (t : ToolCallTransformer) (base : Chunk) :
  drain t base =
  let '(t', o, again) := step t base in
  if again then (fst (drain t' base), o ++ snd (drain t' base)) else (t', o).
Proof.
  unfold drain. cbn [loop].
  destruct (step t base) as [[t' o] again] eqn:E.
  destruct again; [|reflexivity].
  pose proof (step_again_shorter _ _ _ _ E) as Hlt.
  rewrite (loop_fuel _ (S (length (buf t'))) t') by lia.
  now rewrite loop_out.
Qed.

(** A pass that goes round again does the same when more text follows in
    the buffer: the delimiter it found is still the first one. *)
Lemma step_feed_again (t t' : ToolCallTransformer) (base : Chunk)
    (o : list SSE) (y : gostring) :
  step t base = (t', o, true) ->
  step (feedBuf t y) base = (feedBuf t' y, o, true).
Proof.
  destruct tok_lengths as (L1 & L2 & L3 & L4 & L5).
  unfold step, feedBuf. cbn [state buf toolIndex currentID setBuf].
  destruct (state t).
  - destruct (Index (buf t) tokSectionBegin) as [i|] eqn:E; [|discriminate].
    intros [= <- <-]. rewrite (Index_app_Some _ y _ _ E).
    apply Index_Some_bound in E. cbn [state buf toolIndex currentID].
    rewrite firstn_app_le, skipn_app_le by lia. reflexivity.
  - destruct (Index (buf t) tokCallBegin) as [i|] eqn:Ei.
    2:{ destruct (Index (buf t) tokSectionEnd); discriminate. }
    rewrite (Index_app_Some _ y _ _ Ei).
    destruct (Index (buf t) tokSectionEnd) as [e|] eqn:Ee.
    + rewrite (Index_app_Some _ y _ _ Ee).
      destruct (e <? i); [discriminate|]. intros [= <- <-].
      apply Index_Some_bound in Ei. cbn [state buf toolIndex currentID].
      rewrite skipn_app_le by lia. reflexivity.
    + intros [= <- <-].
      assert (Hs : match Index (buf t ++ y) tokSectionEnd with
                   | Some e => if e <? i then Some e else None
                   | None => None
                   end = None).
      { destruct (Index (buf t ++ y) tokSectionEnd) as [e|] eqn:Ee'; [|reflexivity].
        pose proof (sectionEnd_not_before _ _ _ _ Ei Ee Ee') as Hle.
        apply Nat.ltb_ge in Hle. now rewrite Hle. }
      rewrite Hs. apply Index_Some_bound in Ei.
      cbn [state buf toolIndex currentID].
      rewrite skipn_app_le by lia. reflexivity.
  - destruct (Index (buf t) tokArgBegin) as [i|] eqn:E; [|discriminate].
    intros [= <- <-]. rewrite (Index_app_Some _ y _ _ E).
    apply Index_Some_bound in E. cbn [state buf toolIndex currentID].
    rewrite firstn_app_le, skipn_app_le by lia. reflexivity.
  - destruct (Index (buf t) tokCallEnd) as [i|] eqn:E.
    + intros [= <- <-]. rewrite (Index_app_Some _ y _ _ E).
      apply Index_Some_bound in E. cbn [state buf toolIndex currentID].
      rewrite firstn_app_le, skipn_app_le by lia. reflexivity.
    + destruct (isEmpty (buf t)); discriminate.
  - discriminate.
Qed.

Lemma regroup_app_congr (a l1 l2 : list Item) :
  regroup l1 = regroup l2 -> regroup (a ++ l1) = regroup (a ++ l2).
Proof.
  intros H. induction a as [|i a IH]; simpl; [exact H | now rewrite IH].
Qed.

Lemma isEmpty_app (a b : gostring) :
  isEmpty (a ++ b) = isEmpty a && isEmpty b.
Proof. now destruct a. Qed.

(** Two argument pieces of one call regroup as their concatenation. *)
Lemma glue_args (k : Z) (a b : gostring) (l : list Item) :
  glue (IArgs k a) (glue (IArgs k b) l) = glue (IArgs k (a ++ b)) l.
Proof.
  unfold glue. rewrite isEmpty_app.
  destruct a as [|x a]; [reflexivity|]. cbn [isEmpty andb].
  destruct b as [|z b]; cbn [isEmpty].
  - now rewrite app_nil_r.
  - destruct l as [|[s|j i n|j s] l]; rewrite ?Z.eqb_refl; try reflexivity.
    destruct (k =? j)%Z; rewrite ?Z.eqb_refl; [|reflexivity].
    now rewrite <- app_assoc.
Qed.

Lemma items_app (f1 f2 : list SSE) : items (f1 ++ f2) = items f1 ++ items f2.
Proof. apply flat_map_app. Qed.

Lemma itemOf_args (t : ToolCallTransformer) (base : Chunk) (a : gostring) :
  Choices base <> [] -> itemOf (makeArgsDelta t base a) = [IArgs (toolIndex t) a].
Proof.
  intros Hb. destruct (Choices base) as [|c0 rest] eqn:E; [congruence|].
  unfold itemOf, makeArgsDelta, toolCallOf.
  now rewrite (built_choices _ _ _ _ E).
Qed.

Lemma itemOf_header (t : ToolCallTransformer) (base : Chunk) (n : gostring) :
  Choices base <> [] ->
  itemOf (makeToolCallHeader t base n) =
  [IHeader (toolIndex t) (currentID t) n; IArgs (toolIndex t) []].
Proof.
  intros Hb. destruct (Choices base) as [|c0 rest] eqn:E; [congruence|].
  unfold itemOf, makeToolCallHeader, toolCallOf.
  now rewrite (built_choices _ _ _ _ E).
Qed.

Lemma itemOf_content (base : Chunk) (x : gostring) :
  Choices base <> [] -> itemOf (makeContentChunk base x) = [IContent x].
Proof.
  intros Hb. destruct (Choices base) as [|c0 rest] eqn:E; [congruence|].
  unfold itemOf, makeContentChunk, contentOf.
  now rewrite (built_choices _ _ _ _ E).
Qed.

(** The items of a pass and its next state do not depend on the base
    chunk (as long as it has a choice). *)
Lemma step_base (b1 b2 : Chunk) (t : ToolCallTransformer) :
  Choices b1 <> [] -> Choices b2 <> [] ->
  fst (fst (step t b1)) = fst (fst (step t b2)) /\
  snd (step t b1) = snd (step t b2) /\
  items (snd (fst (step t b1))) = items (snd (fst (step t b2))).
Proof.
  intros H1 H2. unfold step, items. destruct (state t).
  - destruct (Index (buf t) tokSectionBegin) as [i|]; [|now repeat split].
    destruct (0 <? i); cbn [fst snd flat_map]; repeat split.
    now rewrite !itemOf_content.
  - destruct (Index (buf t) tokSectionEnd) as [e|];
      destruct (Index (buf t) tokCallBegin) as [i|];
      try destruct (e <? i); try destruct (isEmpty _);
      cbn [fst snd flat_map]; repeat split; now rewrite !itemOf_content.
  - destruct (Index (buf t) tokArgBegin) as [i|]; [|now repeat split].
    cbn [fst snd flat_map]. repeat split. now rewrite !itemOf_header.
  - destruct (Index (buf t) tokCallEnd) as [i|].
    + destruct (isEmpty _); cbn [fst snd flat_map]; repeat split.
      now rewrite !itemOf_args.
    + destruct (isEmpty (buf t)); cbn [fst snd flat_map]; repeat split.
      now rewrite !itemOf_args.
  - now repeat split.
Qed.

Lemma drain_base (b1 b2 : Chunk) :
  Choices b1 <> [] -> Choices b2 <> [] ->
  forall n t, length (buf t) < n ->
    fst (drain t b1) = fst (drain t b2) /\
    items (snd (drain t b1)) = items (snd (drain t b2)).
Proof.
  intros H1 H2 n; induction n as [|n IH]; intros t Hn; [lia|].
  rewrite (drain_step t b1), (drain_step t b2).
  destruct (step_base b1 b2 t H1 H2) as (Ht & Ha & Ho).
  destruct (step t b1) as [[t1 o1] a1] eqn:E1.
  destruct (step t b2) as [[t2 o2] a2] eqn:E2.
  cbn [fst snd] in Ht, Ha, Ho. subst t2 a2.
  destruct a1; cbn [fst snd]; [|now split].
  apply step_again_shorter in E1.
  destruct (IH t1 ltac:(lia)) as [Hf Hi]. split; [exact Hf|].
  now rewrite !items_app, Ho, Hi.
Qed.

Lemma step_again_suffix (t t' : ToolCallTransformer) (base : Chunk)
    (o : list SSE) :
  step t base = (t', o, true) -> exists a, buf t = a ++ buf t'.
Proof.
  assert (H : forall p i, Index (buf t) p = Some i ->
            exists a, buf t = a ++ skipn (i + length p) (buf t)).
  { intros p i E. apply Index_Some_split in E as [E _].
    exists (firstn i (buf t) ++ p). rewrite <- app_assoc. exact E. }
  unfold step. destruct (state t).
  - destruct (Index (buf t) tokSectionBegin) as [i|] eqn:E; [|discriminate].
    intros [= <- _]. exact (H _ _ E).
  - destruct (Index (buf t) tokSectionEnd) as [e|];
      destruct (Index (buf t) tokCallBegin) as [i|] eqn:E;
      try destruct (e <? i); try discriminate;
      intros [= <- _]; exact (H _ _ E).
  - destruct (Index (buf t) tokArgBegin) as [i|] eqn:E; [|discriminate].
    intros [= <- _]. exact (H _ _ E).
  - destruct (Index (buf t) tokCallEnd) as [i|] eqn:E.
    + intros [= <- _]. exact (H _ _ E).
    + destruct (isEmpty (buf t)); discriminate.
  - discriminate.
Qed.

Lemma step_flush (u : ToolCallTransformer) (base : Chunk) :
  state u = stateReadingArgs -> Index (buf u) tokCallEnd = None ->
  step u base =
  (setBuf u [],
   if isEmpty (buf u) then [] else [makeArgsDelta u base (buf u)], false).
Proof.
  intros Hs Hn. unfold step. rewrite Hs, Hn.
  destruct u as [st b k cid]. cbn in *. subst st. now destruct b.
Qed.

Lemma step_call_end (u : ToolCallTransformer) (base : Chunk) (j : nat) :
  state u = stateReadingArgs -> Index (buf u) tokCallEnd = Some j ->
  step u base =
  (mkT stateInSection (skipn (j + length tokCallEnd) (buf u))
       (wrapInt intBits (toolIndex u + 1)) (currentID u),
   if isEmpty (firstn j (buf u)) then []
   else [makeArgsDelta u base (firstn j (buf u))], true).
Proof. intros Hs Hn. unfold step. now rewrite Hs, Hn. Qed.

(** An argument delta that is left out when empty regroups as its item. *)
Lemma regroup_optional_args (u : ToolCallTransformer) (base : Chunk)
    (a : gostring) (l : list SSE) :
  Choices base <> [] ->
  regroup (items ((if isEmpty a then [] else [makeArgsDelta u base a]) ++ l)) =
  glue (IArgs (toolIndex u) a) (regroup (items l)).
Proof.
  intros Hb. destruct a as [|x a]; [reflexivity|]. cbn [isEmpty app].
  unfold items at 1. cbn [flat_map]. rewrite itemOf_args by exact Hb.
  reflexivity.
Qed.

(** The flush of state ReadingArgs, then more text: the same payload as
    the text all at once. *)
Lemma flush_then_feed (t : ToolCallTransformer) (base : Chunk) (y : gostring) :
  Choices base <> [] ->
  state t = stateReadingArgs ->
  Index (buf t) tokCallEnd = None ->
  endsInPartial tokCallEnd (buf t) = false ->
  fst (drain (feedBuf t y) base) = fst (drain (setBuf t y) base) /\
  regroup (items (snd (drain (feedBuf t y) base))) =
  glue (IArgs (toolIndex t) (buf t))
       (regroup (items (snd (drain (setBuf t y) base)))).
Proof.
  intros Hb Hs Hn Hp.
  rewrite (drain_step (feedBuf t y)), (drain_step (setBuf t y)).
  pose proof (Index_app_None _ y _ Hn Hp) as Hi.
  destruct (Index y tokCallEnd) as [j|] eqn:Ej; cbn [option_map] in Hi.
  - pose proof (Index_Some_bound _ _ _ Ej) as Hj.
    rewrite (step_call_end (feedBuf t y) base (length (buf t) + j) Hs Hi).
    rewrite (step_call_end (setBuf t y) base j Hs Ej).
    cbn [feedBuf setBuf state buf toolIndex currentID].
    replace (skipn (length (buf t) + j + length tokCallEnd) (buf t ++ y))
      with (skipn (j + length tokCallEnd) y).
    2:{ rewrite skipn_app, (skipn_all2 (buf t)) by lia. cbn [app]. f_equal. lia. }
    replace (firstn (length (buf t) + j) (buf t ++ y))
      with (buf t ++ firstn j y).
    2:{ rewrite firstn_app, (firstn_all2 (buf t)) by lia. do 2 f_equal. lia. }
    cbn [fst snd]. split; [reflexivity|].
    rewrite !regroup_optional_args by exact Hb.
    cbn [toolIndex]. now rewrite glue_args.
  - rewrite (step_flush (feedBuf t y) base Hs Hi).
    rewrite (step_flush (setBuf t y) base Hs Ej).
    cbn [feedBuf setBuf state buf toolIndex currentID fst snd].
    split; [reflexivity|].
    rewrite <- (app_nil_r (if isEmpty (buf t ++ y) then _ else _)).
    rewrite <- (app_nil_r (if isEmpty y then _ else _)).
    rewrite !regroup_optional_args by exact Hb.
    cbn [toolIndex]. now rewrite glue_args.
Qed.

Lemma step_return_cases (t t' : ToolCallTransformer) (base : Chunk)
    (o : list SSE) :
  step t base = (t', o, false) ->
  (t' = t /\ o = []) \/
  state t' = stateTrailing \/
  (state t = stateReadingArgs /\ Index (buf t) tokCallEnd = None /\
   t' = setBuf t [] /\ o = [makeArgsDelta t base (buf t)]).
Proof.
  unfold step. destruct (state t) eqn:Hs.
  - destruct (Index (buf t) tokSectionBegin); [discriminate|].
    intros [= <- <-]. now left.
  - destruct (Index (buf t) tokSectionEnd) as [e|];
      destruct (Index (buf t) tokCallBegin) as [i|];
      try destruct (e <? i); try discriminate; intros [= <- <-];
      try (now left); right; left; reflexivity.
  - destruct (Index (buf t) tokArgBegin); [discriminate|].
    intros [= <- <-]. now left.
  - destruct (Index (buf t) tokCallEnd); [discriminate|].
    destruct (isEmpty (buf t)); intros [= <- <-]; [now left|].
    right. right. now repeat split.
  - intros [= <- <-]. now left.
Qed.

(** Feeding [y] after the loop has returned settled gives the payload and
    the rewriter of feeding [y] at once. *)
Lemma drain_split (base : Chunk) (y : gostring) :
  Choices base <> [] ->
  forall n t, length (buf t) < n ->
    settled (fst (drain t base)) (buf t) ->
    fst (drain (feedBuf t y) base) =
      fst (drain (feedBuf (fst (drain t base)) y) base) /\
    regroup (items (snd (drain (feedBuf t y) base))) =
      regroup (items (snd (drain t base) ++
                      snd (drain (feedBuf (fst (drain t base)) y) base))).
Proof.
  intros Hb n; induction n as [|n IH]; intros t Hn; [lia|].
  rewrite (drain_step t). destruct (step t base) as [[t' o] again] eqn:E.
  destruct again; cbn [fst snd]; intros Hset.
  - rewrite (drain_step (feedBuf t y)), (step_feed_again _ _ _ _ y E).
    cbn [fst snd].
    pose proof (step_again_shorter _ _ _ _ E) as Hlt.
    destruct (step_again_suffix _ _ _ _ E) as [a Ha].
    assert (Hset' : settled (fst (drain t' base)) (buf t')).
    { destruct Hset as [H|[H|[H1 H2]]]; [now left | right; now left |].
      right. right. split; [exact H1|].
      rewrite Ha in H2. exact (endsInPartial_app _ _ _ H2). }
    destruct (IH t' ltac:(lia) Hset') as [IH1 IH2]. split; [exact IH1|].
    rewrite <- app_assoc, !items_app. apply regroup_app_congr.
    now rewrite <- items_app.
  - destruct (step_return_cases _ _ _ _ E) as [[-> ->]|[Ht|(Hs & Hi & -> & ->)]].
    + now split.
    + destruct Hset as [H|[H|[H _]]]; congruence.
    + assert (Hp : endsInPartial tokCallEnd (buf t) = false).
      { destruct Hset as [H|[H|[_ H]]]; [| |exact H];
          cbn [setBuf state] in H; congruence. }
      destruct (flush_then_feed t base y Hb Hs Hi Hp) as [F1 F2].
      change (feedBuf (setBuf t []) y) with (setBuf t y).
      split; [exact F1|]. rewrite F2. cbn [app]. unfold items at 2.
      cbn [flat_map]. rewrite itemOf_args by exact Hb. reflexivity.
Qed.

Lemma containsAnyToken_app (x y : gostring) :
  containsAnyToken x = true -> containsAnyToken (x ++ y) = true.
Proof.
  unfold containsAnyToken, Contains.
  destruct (Index x (str "<|tool_call")) as [i|] eqn:E; [|discriminate].
  now rewrite (Index_app_Some _ y _ _ E).
Qed.

(** Outside the fast path an event with a choice runs the loop on the
    buffer and its reasoning text. *)
Lemma processEvent_machine (t : ToolCallTransformer) (c : Chunk) :
  Choices c <> [] ->
  (state t = stateIdle -> containsAnyToken (reasoningTextOf c) = true) ->
  processEvent t (UpChunk c) =
  drain (feedBuf t (reasoningTextOf c)) (promote c) /\
  Choices (promote c) <> [].
Proof.
  intros Hc Hi. destruct (Choices c) as [|c0 rest] eqn:E; [congruence|].
  pose proof (promote_choices' _ _ _ E) as Hp. split; [|congruence].
  rewrite <- promote_reasoning in Hi |- *.
  unfold processEvent, reasoningTextOf in *. rewrite Hp in *.
  destruct (state t); try reflexivity. now rewrite (Hi eq_refl).
Qed.

Lemma settled_not_idle (t : ToolCallTransformer) (b : gostring) :
  settled t b -> state t <> stateIdle.
Proof. intros [H|[H|[H _]]]; congruence. Qed.

(** One split: feeding [c1] then [c2] against feeding a chunk [c12] that
    carries the two texts joined. *)
Lemma split_once (t : ToolCallTransformer) (c1 c2 c12 : Chunk) :
  Choices c1 <> [] -> Choices c2 <> [] -> Choices c12 <> [] ->
  reasoningTextOf c12 = reasoningTextOf c1 ++ reasoningTextOf c2 ->
  (state t = stateIdle -> containsAnyToken (reasoningTextOf c1) = true) ->
  settled (fst (processEvent t (UpChunk c1))) (buf t ++ reasoningTextOf c1) ->
  fst (run t [UpChunk c1; UpChunk c2]) = fst (run t [UpChunk c12]) /\
  payload (snd (run t [UpChunk c1; UpChunk c2])) =
  payload (snd (run t [UpChunk c12])).
Proof.
  intros H1 H2 H12 Htext Hidle Hset.
  rewrite !run_cons. cbn [run fst snd]. rewrite !app_nil_r.
  destruct (processEvent_machine t c1 H1 Hidle) as [E1 B1].
  assert (Hidle12 : state t = stateIdle ->
                    containsAnyToken (reasoningTextOf c12) = true).
  { intros Hs. rewrite Htext. apply containsAnyToken_app. now apply Hidle. }
  destruct (processEvent_machine t c12 H12 Hidle12) as [E12 B12].
  rewrite E1 in Hset |- *.
  set (u := feedBuf t (reasoningTextOf c1)) in *.
  set (t1 := fst (drain u (promote c1))) in *.
  assert (Hidle2 : state t1 = stateIdle ->
                   containsAnyToken (reasoningTextOf c2) = true).
  { intros Hs. now apply settled_not_idle in Hset. }
  destruct (processEvent_machine t1 c2 H2 Hidle2) as [E2 B2].
  rewrite E2, E12, Htext.
  change (feedBuf t (reasoningTextOf c1 ++ reasoningTextOf c2))
    with (setBuf t (buf t ++ (reasoningTextOf c1 ++ reasoningTextOf c2))).
  rewrite app_assoc.
  change (setBuf t ((buf t ++ reasoningTextOf c1) ++ reasoningTextOf c2))
    with (feedBuf u (reasoningTextOf c2)).
  set (y := reasoningTextOf c2) in *.
  destruct (drain_split (promote c1) y B1 (S (length (buf u))) u
              ltac:(lia) Hset) as [D1 D2].
  fold t1 in D1, D2.
  destruct (drain_base (promote c12) (promote c1) B12 B1
              (S (length (buf (feedBuf u y)))) (feedBuf u y) ltac:(lia))
    as [X1 X2].
  destruct (drain_base (promote c2) (promote c1) B2 B1
              (S (length (buf (feedBuf t1 y)))) (feedBuf t1 y) ltac:(lia))
    as [Y1 Y2].
  split; [congruence|].
  unfold payload. rewrite X2, D2, !items_app. now rewrite Y2.
Qed.

Lemma reasoningTextOf_textChunk (x : gostring) :
  reasoningTextOf (textChunk x) = x.
Proof. unfold reasoningTextOf, reasoningOf. simpl. now destruct x. Qed.

(** A settled partition against the unsplit text. *)
Lemma partition_unsplit (cs : list Chunk) :
  forall (t : ToolCallTransformer) (c_last c_all : Chunk),
    Forall (fun c => Choices c <> []) cs ->
    Choices c_last <> [] -> Choices c_all <> [] ->
    reasoningTextOf c_all = flat_map reasoningTextOf cs ++ reasoningTextOf c_last ->
    (state t = stateIdle ->
     containsAnyToken (reasoningTextOf (hd c_last cs)) = true) ->
    settledAlong t cs ->
    fst (run t (map UpChunk (cs ++ [c_last]))) = fst (run t [UpChunk c_all]) /\
    payload (snd (run t (map UpChunk (cs ++ [c_last])))) =
    payload (snd (run t [UpChunk c_all])).
Proof.
  induction cs as [|c cs IH]; intros t c_last c_all Hcs Hl Ha Htext Hidle Hset.
  - cbn [app map flat_map hd] in *. rewrite !run_cons. cbn [run fst snd].
    rewrite !app_nil_r.
    destruct (processEvent_machine t c_last Hl Hidle) as [E1 B1].
    rewrite <- Htext in Hidle.
    destruct (processEvent_machine t c_all Ha Hidle) as [E2 B2].
    rewrite E1, E2, Htext.
    destruct (drain_base (promote c_last) (promote c_all) B1 B2
                (S (length (buf (feedBuf t (reasoningTextOf c_last)))))
                (feedBuf t (reasoningTextOf c_last)) ltac:(lia)) as [X1 X2].
    split; [exact X1|]. unfold payload. now rewrite X2.
  - cbn [hd flat_map settledAlong] in *. destruct Hset as [Hset Hrest].
    inversion Hcs as [|? ? Hc Hcs']; subst.
    set (t1 := fst (processEvent t (UpChunk c))) in *.
    set (mid := textChunk (flat_map reasoningTextOf cs ++ reasoningTextOf c_last)).
    assert (Hm : Choices mid <> []) by discriminate.
    assert (Hmt : reasoningTextOf mid =
                  flat_map reasoningTextOf cs ++ reasoningTextOf c_last)
      by apply reasoningTextOf_textChunk.
    assert (Hidle1 : state t1 = stateIdle ->
                     containsAnyToken (reasoningTextOf (hd c_last cs)) = true).
    { intros Hs. now apply settled_not_idle in Hset. }
    destruct (IH t1 c_last mid Hcs' Hl Hm Hmt Hidle1 Hrest) as [I1 I2].
    assert (Htext' : reasoningTextOf c_all =
                     reasoningTextOf c ++ reasoningTextOf mid)
      by (rewrite Hmt, Htext; now rewrite <- app_assoc).
    destruct (split_once t c mid c_all Hc Hm Ha Htext' Hidle Hset) as [S1 S2].
    rewrite <- S1, <- S2. cbn [app map]. rewrite (run_cons t (UpChunk c)).
    rewrite (run_cons t (UpChunk c) [UpChunk mid]). fold t1. cbn [fst snd].
    split; [exact I1|]. unfold payload in *. rewrite !items_app.
    now apply regroup_app_congr.
Qed.

(** C2 (amended).  Two partitions of one reasoning text, each fed chunk by
    chunk from the same rewriter, leave the same rewriter and give the same
    payload (content bytes, headers and argument bytes in order, up to the
    grouping of content bytes and of the argument bytes of a call), when
    each partition keeps the rewriter settled after every chunk but the
    last: waiting in state InSection or ReadingID, or in state ReadingArgs
    with the text up to the split not ending inside a [C_END]; and when a
    rewriter that starts in state Idle finds [<|tool_call] in the first
    chunk.  Splits that leave the rewriter in state Idle or Trailing, or
    that fall inside a [C_END] while arguments are read, are not
    covered. *)
Theorem fragment_independence (t : ToolCallTransformer)
    (cs1 cs2 : list Chunk) (last1 last2 : Chunk) :
  Forall (fun c => Choices c <> []) (cs1 ++ [last1]) ->
  Forall (fun c => Choices c <> []) (cs2 ++ [last2]) ->
  flat_map reasoningTextOf (cs1 ++ [last1]) =
    flat_map reasoningTextOf (cs2 ++ [last2]) ->
  (state t = stateIdle ->
   containsAnyToken (reasoningTextOf (hd last1 cs1)) = true /\
   containsAnyToken (reasoningTextOf (hd last2 cs2)) = true) ->
  settledAlong t cs1 -> settledAlong t cs2 ->
  fst (run t (map UpChunk (cs1 ++ [last1]))) =
    fst (run t (map UpChunk (cs2 ++ [last2]))) /\
  payload (snd (run t (map UpChunk (cs1 ++ [last1])))) =
    payload (snd (run t (map UpChunk (cs2 ++ [last2])))).
Proof.
  intros H1 H2 Htext Hidle Hs1 Hs2.
  apply Forall_app in H1 as [H1 L1]. apply Forall_app in H2 as [H2 L2].
  inversion L1 as [|? ? L1' _]; subst. inversion L2 as [|? ? L2' _]; subst.
  rewrite !flat_map_app in Htext. cbn [flat_map] in Htext.
  rewrite !app_nil_r in Htext.
  set (whole := textChunk (flat_map reasoningTextOf cs1 ++ reasoningTextOf last1)).
  assert (Hw : Choices whole <> []) by discriminate.
  assert (Hw1 : reasoningTextOf whole =
                flat_map reasoningTextOf cs1 ++ reasoningTextOf last1)
    by apply reasoningTextOf_textChunk.
  assert (Hw2 : reasoningTextOf whole =
                flat_map reasoningTextOf cs2 ++ reasoningTextOf last2)
    by (rewrite <- Htext; exact Hw1).
  destruct (partition_unsplit cs1 t last1 whole H1 L1' Hw Hw1
              (fun Hs => proj1 (Hidle Hs)) Hs1) as [A1 A2].
  destruct (partition_unsplit cs2 t last2 whole H2 L2' Hw Hw2
              (fun Hs => proj2 (Hidle Hs)) Hs2) as [B1 B2].
  split; congruence.
Qed.

(** ** Argument bytes of a call *)

Lemma argsOfItems_app (k : Z) (l1 l2 : list Item) :
  argsOfItems k (l1 ++ l2) = argsOfItems k l1 ++ argsOfItems k l2.
Proof. apply flat_map_app. Qed.

Lemma argsOfItems_glue (k : Z) (i : Item) (l : list Item) :
  argsOfItems k (glue i l) = argsOfItems k (i :: l).
Proof.
  destruct i as [a|j id n|j a]; cbn [glue]; [| reflexivity |].
  - destruct a as [|x a]; [reflexivity|]. cbn [isEmpty].
    destruct l as [|[b|j id n|j b] l]; reflexivity.
  - destruct a as [|x a]; cbn [isEmpty].
    + cbn [argsOfItems flat_map]. now destruct (j =? k)%Z.
    + destruct l as [|[b|j' id n|j' b] l]; try reflexivity.
      destruct (j =? j')%Z eqn:E; [|reflexivity]. apply Z.eqb_eq in E. subst j'.
      cbn [argsOfItems flat_map]. destruct (j =? k)%Z; [|reflexivity].
      now rewrite <- app_assoc.
Qed.

(** Regrouping keeps the argument bytes of every call. *)
Lemma argsOfItems_regroup (k : Z) (l : list Item) :
  argsOfItems k (regroup l) = argsOfItems k l.
Proof.
  induction l as [|i l IH]; [reflexivity|]. cbn [regroup].
  rewrite argsOfItems_glue. change (i :: regroup l) with ([i] ++ regroup l).
  change (i :: l) with ([i] ++ l). now rewrite !argsOfItems_app, IH.
Qed.

Lemma wrapInt_fits (z : Z) :
  (0 < intBits -> - 2 ^ (intBits - 1) <= z < 2 ^ (intBits - 1) ->
   wrapInt intBits z = z)%Z.
Proof.
  intros Hb Hz. unfold wrapInt.
  assert (H2 : (2 ^ intBits = 2 * 2 ^ (intBits - 1))%Z).
  { replace intBits with (Z.succ (intBits - 1)) at 1 by lia.
    apply Z.pow_succ_r. lia. }
  rewrite Z.mod_small by lia. lia.
Qed.

(** With room, a pass never lowers [toolIndex] and keeps the room. *)
Lemma step_room (base : Chunk) (t t' : ToolCallTransformer) (o : list SSE)
    (again : bool) :
  roomFor t -> step t base = (t', o, again) ->
  (toolIndex t <= toolIndex t')%Z /\ roomFor t'.
Proof.
  intros Hr. unfold step. destruct (state t).
  - destruct (Index (buf t) tokSectionBegin) as [i|]; intros [= <- _ _];
      [|split; [lia | exact Hr]].
    unfold roomFor in *. cbn [toolIndex buf]. rewrite length_skipn. lia.
  - destruct (Index (buf t) tokSectionEnd) as [e|];
      destruct (Index (buf t) tokCallBegin) as [i|];
      try destruct (e <? i); intros [= <- _ _];
      try (split; [lia | exact Hr]);
      unfold roomFor in *; cbn [toolIndex buf length];
      rewrite ?length_skipn; lia.
  - destruct (Index (buf t) tokArgBegin) as [i|]; intros [= <- _ _];
      [|split; [lia | exact Hr]].
    unfold roomFor in *. cbn [toolIndex buf]. rewrite length_skipn. lia.
  - destruct (Index (buf t) tokCallEnd) as [i|] eqn:E.
    + apply Index_Some_bound in E. change (length tokCallEnd) with 17 in E.
      intros [= <- _ _]. unfold roomFor in *. cbn [toolIndex buf].
      rewrite wrapInt_fits, length_skipn by lia. lia.
    + destruct (isEmpty (buf t)); intros [= <- _ _];
        [split; [lia | exact Hr]|].
      unfold roomFor in *. cbn [toolIndex buf setBuf length]. lia.
  - intros [= <- _ _]. split; [lia | exact Hr].
Qed.

(** A pass emits no arguments for an index other than [toolIndex]. *)
Lemma step_indices (base : Chunk) (t t' : ToolCallTransformer) (o : list SSE)
    (again : bool) (k : Z) :
  Choices base <> [] -> step t base = (t', o, again) ->
  k <> toolIndex t -> argsOfItems k (items o) = [].
Proof.
  intros Hb. unfold step, items. destruct (state t).
  - destruct (Index (buf t) tokSectionBegin) as [i|]; intros [= _ <- _] Hk;
      [|reflexivity].
    destruct (0 <? i); cbn [flat_map]; [|reflexivity].
    now rewrite itemOf_content.
  - destruct (Index (buf t) tokSectionEnd) as [e|];
      destruct (Index (buf t) tokCallBegin) as [i|];
      try destruct (e <? i); intros [= _ <- _] Hk;
      try destruct (isEmpty _); cbn [flat_map];
      rewrite ?itemOf_content by exact Hb; reflexivity.
  - destruct (Index (buf t) tokArgBegin) as [i|]; intros [= _ <- _] Hk;
      [|reflexivity].
    cbn [flat_map]. rewrite itemOf_header by exact Hb.
    cbn [toolIndex app argsOfItems flat_map]. now destruct (_ =? _)%Z.
  - destruct (Index (buf t) tokCallEnd) as [i|].
    + intros [= _ <- _] Hk.
      destruct (isEmpty _); cbn [flat_map]; [reflexivity|].
      rewrite itemOf_args by exact Hb. cbn [app argsOfItems flat_map].
      destruct (toolIndex t =? k)%Z eqn:E'; [|reflexivity].
      apply Z.eqb_eq in E'. congruence.
    + destruct (isEmpty (buf t)); intros [= _ <- _] Hk; [reflexivity|].
      cbn [flat_map]. rewrite itemOf_args by exact Hb.
      cbn [app argsOfItems flat_map].
      destruct (toolIndex t =? k)%Z eqn:E'; [|reflexivity].
      apply Z.eqb_eq in E'. congruence.
  - intros [= _ <- _] Hk. reflexivity.
Qed.

Lemma drain_indices (base : Chunk) (k : Z) :
  Choices base <> [] ->
  forall n t, length (buf t) < n -> roomFor t -> (k < toolIndex t)%Z ->
    argsOfItems k (items (snd (drain t base))) = [].
Proof.
  intros Hb n; induction n as [|n IH]; intros t Hn Hr Hk; [lia|].
  rewrite drain_step. destruct (step t base) as [[t' o] again] eqn:E.
  destruct (step_room base t t' o again Hr E) as (Hle & Hr').
  pose proof (step_indices base t t' o again k Hb E ltac:(lia)) as Ho.
  destruct again; cbn [snd]; [|exact Ho].
  apply step_again_shorter in E.
  rewrite items_app, argsOfItems_app, Ho, (IH t') by (try assumption; lia).
  reflexivity.
Qed.

(** With the closing [C_END] in the buffer, the arguments emitted for the
    call are the bytes before it. *)
Lemma arguments_conserved_unsplit (t : ToolCallTransformer) (base : Chunk)
    (text : gostring) (e : nat) :
  Choices base <> [] ->
  state t = stateReadingArgs ->
  roomFor (feedBuf t text) ->
  Index (buf t ++ text) tokCallEnd = Some e ->
  argumentsFor (toolIndex t) (snd (processReasoning t base text)) =
  firstn e (buf t ++ text).
Proof.
  intros Hb Hs Hr He. rewrite processReasoning_drain, drain_step.
  pose proof (step_call_end (feedBuf t text) base e Hs He) as Hst.
  destruct (step_room base _ _ _ _ Hr Hst) as (_ & Hr').
  rewrite Hst. revert Hr'.
  cbn [snd feedBuf setBuf buf toolIndex currentID].
  set (t' := mkT stateInSection _ _ _). intros Hr'.
  assert (Hk : (toolIndex t < toolIndex t')%Z).
  { destruct Hr as (Hbits & Hlo & Hhi). cbn [feedBuf setBuf toolIndex buf] in *.
    apply Index_Some_bound in He. change (length tokCallEnd) with 17 in He.
    cbn [toolIndex t']. rewrite wrapInt_fits by lia. lia. }
  unfold argumentsFor. rewrite items_app, argsOfItems_app.
  rewrite (drain_indices base (toolIndex t) Hb (S (length (buf t'))) t')
    by (try assumption; lia).
  rewrite app_nil_r.
  destruct (firstn e (buf t ++ text)) as [|x a]; [reflexivity|].
  cbn [isEmpty]. unfold items. cbn [flat_map]. rewrite itemOf_args by exact Hb.
  cbn [app argsOfItems flat_map toolIndex]. now rewrite Z.eqb_refl, app_nil_r.
Qed.

(** X2.  Byte conservation for a call whose arguments arrive in a settled
    partition (no split inside a [C_END]): however the text is cut into
    chunks, the arguments emitted for the call, joined, are the bytes
    between the text already read and the first [C_END]. *)
Lemma arguments_conserved_settled (t : ToolCallTransformer)
    (cs : list Chunk) (last : Chunk) (e : nat) :
  Forall (fun c => Choices c <> []) (cs ++ [last]) ->
  state t = stateReadingArgs ->
  roomFor (feedBuf t (flat_map reasoningTextOf (cs ++ [last]))) ->
  settledAlong t cs ->
  Index (buf t ++ flat_map reasoningTextOf (cs ++ [last])) tokCallEnd = Some e ->
  argumentsFor (toolIndex t) (snd (run t (map UpChunk (cs ++ [last])))) =
  firstn e (buf t ++ flat_map reasoningTextOf (cs ++ [last])).
Proof.
  intros Hc Hs Hr Hset He.
  apply Forall_app in Hc as [Hc Hl]. inversion Hl as [|? ? Hl' _]; subst.
  rewrite flat_map_app in Hr, He |- *. cbn [flat_map] in Hr, He |- *.
  rewrite app_nil_r in Hr, He |- *.
  set (text := flat_map reasoningTextOf cs ++ reasoningTextOf last) in *.
  assert (Hw : Choices (textChunk text) <> []) by discriminate.
  destruct (partition_unsplit cs t last (textChunk text) Hc Hl' Hw
              (reasoningTextOf_textChunk text) ltac:(congruence) Hset)
    as [_ Hp].
  unfold argumentsFor. unfold payload in Hp.
  rewrite <- argsOfItems_regroup, Hp, argsOfItems_regroup.
  rewrite run_cons. cbn [run snd]. rewrite app_nil_r.
  destruct (processEvent_machine t (textChunk text) Hw ltac:(congruence))
    as [-> Hb].
  rewrite reasoningTextOf_textChunk, <- processReasoning_drain.
  exact (arguments_conserved_unsplit t _ text e Hb Hs Hr He).
Qed.

(** ** Finish *)

(** The loop has run to its [return]: one more pass on the rewriter it
    leaves changes nothing and emits nothing. *)
Lemma step_return_quiescent (t t' : ToolCallTransformer) (base : Chunk)
    (o : list SSE) :
  step t base = (t', o, false) -> step t' base = (t', [], false).
Proof.
  intros E.
  destruct (step_return_cases _ _ _ _ E) as [[-> ->]|[Ht|(Hs & _ & -> & _)]].
  - exact E.
  - unfold step. now rewrite Ht.
  - unfold step. cbn [setBuf state buf]. now rewrite Hs.
Qed.

Lemma loop_quiescent (f : nat) (t : ToolCallTransformer) (base : Chunk)
    (out : list SSE) :
  length (buf t) < f ->
  step (fst (loop f t base out)) base = (fst (loop f t base out), [], false).
Proof.
  revert t out; induction f as [|f IH]; intros t out Hf; [lia|]. simpl.
  destruct (step t base) as [[t' o] again] eqn:E. destruct again.
  - apply IH. apply step_again_shorter in E. lia.
  - exact (step_return_quiescent _ _ _ _ E).
Qed.

(** In state Trailing the text of a chunk goes to [buf] and no frame is
    emitted. *)
Lemma trailing_swallows (t : ToolCallTransformer) (c : Chunk) :
  state t = stateTrailing -> Choices c <> [] ->
  processEvent t (UpChunk c) = (feedBuf t (reasoningTextOf c), []).
Proof.
  intros Hs Hc.
  destruct (processEvent_machine t c Hc ltac:(congruence)) as [-> _].
  rewrite drain_step. unfold step. cbn [feedBuf setBuf state]. now rewrite Hs.
Qed.

(** A chunk without reasoning text that arrives while arguments are read
    (the buffer is empty then) gives no frame, whatever else it carries. *)
Lemma no_text_no_frame (t : ToolCallTransformer) (c : Chunk) :
  state t = stateReadingArgs -> buf t = [] -> Choices c <> [] ->
  reasoningTextOf c = [] ->
  snd (processEvent t (UpChunk c)) = [].
Proof.
  intros Hs Hb Hc Hr.
  destruct (processEvent_machine t c Hc ltac:(congruence)) as [-> _].
  rewrite drain_step. unfold step.
  cbn [feedBuf setBuf state buf]. now rewrite Hs, Hr, Hb.
Qed.


(** ** The frames of an event, one by one *)

Lemma step_frames (t t' : ToolCallTransformer) (base : Chunk) (o : list SSE)
    (again : bool) :
  step t base = (t', o, again) -> Forall (builtFrame base) o.
Proof.
  assert (HC : forall x, x <> [] -> Forall (builtFrame base) [makeContentChunk base x])
    by (intros x Hx; apply Forall_cons; [left; now exists x | apply Forall_nil]).
  assert (HA : forall u a, a <> [] -> Forall (builtFrame base) [makeArgsDelta u base a])
    by (intros u a Ha; apply Forall_cons;
        [right; right; now exists u, a | apply Forall_nil]).
  unfold step. destruct (state t).
  - destruct (Index (buf t) tokSectionBegin) as [i|] eqn:E; intros [= _ <- _];
      [|apply Forall_nil].
    destruct (0 <? i) eqn:Hi; [|apply Forall_nil]. apply HC.
    apply Nat.ltb_lt in Hi. apply Index_Some_bound in E.
    intros H. apply (f_equal (@length ascii)) in H.
    rewrite length_firstn in H. simpl in H. lia.
  - destruct (Index (buf t) tokSectionEnd) as [e|];
      destruct (Index (buf t) tokCallBegin) as [i|];
      try destruct (e <? i); intros [= _ <- _]; try apply Forall_nil;
      (destruct (skipn _ _) eqn:Hk; cbn [isEmpty]; [apply Forall_nil|];
       apply HC; discriminate).
  - destruct (Index (buf t) tokArgBegin) as [i|]; intros [= _ <- _];
      [|apply Forall_nil].
    apply Forall_cons; [|apply Forall_nil].
    right; left.
    lazymatch goal with |- context [makeToolCallHeader ?u _ _] => exists u end.
    exists (TrimSpace (firstn i (buf t))). split; reflexivity.
  - destruct (Index (buf t) tokCallEnd) as [i|].
    + intros [= _ <- _]. destruct (firstn i (buf t)) eqn:Hk; cbn [isEmpty];
        [apply Forall_nil|]. apply HA. discriminate.
    + destruct (buf t) eqn:Hk; cbn [isEmpty]; intros [= _ <- _];
        [apply Forall_nil|]. apply HA. discriminate.
  - intros [= _ <- _]. apply Forall_nil.
Qed.

Lemma processChunk_frames (t : ToolCallTransformer) (chunk : Chunk) :
  Forall (chunkFrame t chunk) (snd (processEvent t (UpChunk chunk))).
Proof.
  simpl.
  assert (HP : Choices chunk = [] \/
                 (state t = stateIdle /\
                  containsAnyToken (reasoningTextOf chunk) = false) ->
               Forall (chunkFrame t chunk) (emit (promote chunk))).
  { intros Hc. apply Forall_cons; [|apply Forall_nil]. left. now split. }
  destruct (Choices (promote chunk)) as [|c0 rest] eqn:E.
  { apply HP. left. destruct (Choices chunk) as [|d0 r0] eqn:E0; [reflexivity|].
    now rewrite (promote_choices _ _ _ E0) in E. }
  assert (Hloop : forall text,
             Forall (chunkFrame t chunk)
                    (snd (processReasoning t (promote chunk) text))).
  { intros text. unfold processReasoning.
    apply loop_Forall; [|constructor]. intros u u' o again Hst.
    eapply Forall_impl; [|exact (step_frames _ _ _ _ _ Hst)].
    intros f Hf. right. split; [congruence|exact Hf]. }
  destruct (state t) eqn:Hs; try apply Hloop.
  destruct (containsAnyToken (reasoningOf c0)) eqn:Hc; cbn [negb];
    [apply Hloop|].
  apply HP. right. split; [reflexivity|].
  rewrite <- promote_reasoning. unfold reasoningTextOf. now rewrite E.
Qed.

Lemma processEvent_frames (t : ToolCallTransformer) (ev : Upstream) :
  Forall (eventFrame t) (snd (processEvent t ev)).
Proof.
  destruct ev as [| |s|chunk].
  - apply Forall_nil.
  - apply Forall_cons; [now left | apply Forall_nil].
  - apply Forall_cons; [right; left; now exists s | apply Forall_nil].
  - eapply Forall_impl; [|exact (processChunk_frames t chunk)].
    intros f Hf. right; right. now exists chunk.
Qed.

Lemma run_frames (Q : SSE -> Prop) :
  (forall t f, eventFrame t f -> Q f) ->
  forall evs t, Forall Q (snd (run t evs)).
Proof.
  intros H. apply run_Forall. intros t ev.
  eapply Forall_impl; [|exact (processEvent_frames t ev)]. exact (H t).
Qed.

Lemma deltasOf_built (base : Chunk) (o : Origin) (d : Delta) :
  Choices base <> [] ->
  deltasOf [JSONFrame o (setDelta0 (shallowCopy base) d)] = [d].
Proof.
  intros Hb. destruct (Choices base) as [|c0 rest] eqn:E; [congruence|].
  unfold deltasOf. cbn [flat_map]. now rewrite (built_choices _ _ _ _ E).
Qed.

(** ** No delimiter in the reasoning fields *)

Lemma Contains_longer (s p q : gostring) :
  Contains s p = false -> HasPrefix q p = true -> Contains s q = false.
Proof.
  unfold Contains. intros Hp Hq.
  destruct (Index s q) as [i|] eqn:E; [|reflexivity].
  destruct (Index s p) as [j|] eqn:Ej; [discriminate|].
  pose proof (Index_None_skipn _ _ i Ej) as Hn.
  apply Index_Some_prefix in E. apply HasPrefix_true in E as [r Hr].
  apply HasPrefix_true in Hq as [r' ->].
  rewrite Hr, <- app_assoc, HasPrefix_app in Hn. discriminate.
Qed.

Lemma tokenFree_patterns (s : gostring) :
  containsAnyToken s = false ->
  Forall (fun p => Contains s p = false) malformedPatterns.
Proof.
  intros H. unfold malformedPatterns.
  repeat constructor; apply (Contains_longer _ _ _ H); reflexivity.
Qed.

(** X3.  For every stream and every state of the rewriter: in no chunk
    that the rewriter marshals does the [reasoning] field of the first
    choice hold [<|tool_call], nor therefore any of the four patterns; and
    neither does the [reasoning_content] field when [reasoning] is empty,
    the one case in which the rewriter reads it.  (A chunk whose
    [reasoning] is not empty is forwarded in state Idle whatever its
    [reasoning_content] holds, and data that does not decode is forwarded
    raw: the theorem makes no statement about those.) *)
Theorem reasoning_fields_token_free (t : ToolCallTransformer)
    (evs : list Upstream) :
  Forall reasoningClean (snd (run t evs)).
Proof.
  revert evs t. apply run_frames.
  intros t f [->|[[s ->]|[c [H|H]]]]; try exact I.
  - destruct H as (-> & Hc). unfold reasoningClean.
    destruct (Choices c) as [|c0 rest] eqn:E.
    + now rewrite promote_no_choice, E.
    + destruct Hc as [Hc|[_ Hc]]; [discriminate|].
      rewrite (promote_choices _ _ _ E). cbn [cDelta Reasoning ReasoningContent].
      unfold reasoningTextOf in Hc. rewrite E in Hc. unfold reasoningOf in Hc.
      destruct (Reasoning (cDelta c0)) as [|x r] eqn:Er; cbn [isEmpty] in Hc.
      * split; [now apply tokenFree_patterns | intros _; now apply tokenFree_patterns].
      * split; [now apply tokenFree_patterns | discriminate].
  - destruct H as (Hc & Hb).
    destruct (Choices (promote c)) as [|c0 rest] eqn:E; [congruence|].
    assert (Hn : Forall (fun p => Contains [] p = false) malformedPatterns)
      by now apply tokenFree_patterns.
    destruct Hb as [(x & _ & ->)|[(u & raw & _ & ->)|(u & a & _ & ->)]];
      unfold reasoningClean, makeContentChunk, makeToolCallHeader, makeArgsDelta;
      rewrite (built_choices _ _ _ _ E); cbn [cDelta Reasoning ReasoningContent];
      now split.
Qed.

(** ** The course of the states *)

Lemma step_rank (t t' : ToolCallTransformer) (base : Chunk) (o : list SSE)
    (again : bool) :
  step t base = (t', o, again) -> rank (state t) <= rank (state t').
Proof.
  unfold step. destruct (state t) eqn:Hs.
  - destruct (Index (buf t) tokSectionBegin); intros [= <- _ _]; simpl;
      rewrite ?Hs; simpl; lia.
  - destruct (Index (buf t) tokSectionEnd) as [e|];
      destruct (Index (buf t) tokCallBegin) as [i|];
      try destruct (e <? i); intros [= <- _ _]; simpl; rewrite ?Hs; simpl; lia.
  - destruct (Index (buf t) tokArgBegin); intros [= <- _ _]; simpl;
      rewrite ?Hs; simpl; lia.
  - destruct (Index (buf t) tokCallEnd).
    + intros [= <- _ _]. simpl. lia.
    + destruct (isEmpty (buf t)); intros [= <- _ _]; simpl; rewrite Hs; simpl; lia.
  - intros [= <- _ _]. rewrite Hs. simpl. lia.
Qed.

Lemma processEvent_rank (t : ToolCallTransformer) (ev : Upstream) :
  rank (state t) <= rank (state (fst (processEvent t ev))).
Proof.
  remember (rank (state t)) as r eqn:Hr.
  destruct ev as [| |s|chunk]; simpl; try lia.
  destruct (Choices (promote chunk)) as [|c0 rest]; [simpl; lia|].
  assert (Hloop : forall text,
    r <= rank (state (fst (processReasoning t (promote chunk) text)))).
  { intros text. unfold processReasoning.
    apply (loop_invariant (fun u _ => r <= rank (state u))); [|simpl; lia].
    intros u out u' o again H E. apply step_rank in E. lia. }
  destruct (state t) eqn:Hs; try apply Hloop.
  destruct (negb _); [cbn [fst]; rewrite Hs; lia | apply Hloop].
Qed.

(** X5.  The rewriter goes through a stream in one direction: from before
    the section (Idle) into it (InSection, ReadingID, ReadingArgs) and
    from there to after it (Trailing).  No event takes it back: once it
    has left state Idle it never returns there, and it never leaves state
    Trailing, so it reads one section in a stream. *)
Theorem state_never_goes_back (t : ToolCallTransformer) (evs : list Upstream) :
  rank (state t) <= rank (state (fst (run t evs))).
Proof.
  revert t; induction evs as [|ev evs IH]; intros t; [simpl; lia|].
  rewrite run_cons. cbn [fst].
  pose proof (processEvent_rank t ev). specialize (IH (fst (processEvent t ev))).
  lia.
Qed.

Lemma feedBuf_feedBuf (t : ToolCallTransformer) (x y : gostring) :
  feedBuf (feedBuf t x) y = feedBuf t (x ++ y).
Proof. unfold feedBuf, setBuf. simpl. now rewrite app_assoc. Qed.

Lemma feedBuf_nil (t : ToolCallTransformer) : feedBuf t [] = t.
Proof. destruct t. unfold feedBuf, setBuf. simpl. now rewrite app_nil_r. Qed.

(** X8.  In state Trailing the rewriter swallows every chunk that has a
    choice: whatever the chunks carry (reasoning text, content, tool
    calls, a [finish_reason], usage), no frame is written for them, the
    state stays Trailing and the reasoning texts pile up in [buf]. *)
Theorem trailing_stream_swallowed (t : ToolCallTransformer) (cs : list Chunk) :
  state t = stateTrailing ->
  Forall (fun c => Choices c <> []) cs ->
  run t (map UpChunk cs) = (feedBuf t (flat_map reasoningTextOf cs), []).
Proof.
  revert t; induction cs as [|c cs IH]; intros t Hs Hc.
  - simpl. now rewrite feedBuf_nil.
  - inversion Hc as [|? ? H1 H2]; subst. cbn [map]. rewrite run_cons.
    rewrite (trailing_swallows t c Hs H1). cbn [fst snd].
    rewrite (IH (feedBuf t (reasoningTextOf c)) Hs H2).
    cbn [fst snd flat_map app]. now rewrite feedBuf_feedBuf.
Qed.

(** X6.  Once the rewriter has left state Idle no upstream chunk that has
    a choice is forwarded as it came: the only passthrough frames of the
    rest of the stream are chunks without choices.  So the [content] and
    [tool_calls] fields that upstream chunks carry from then on do not
    reach the client. *)
Theorem no_passthrough_after_idle (t : ToolCallTransformer)
    (evs : list Upstream) :
  state t <> stateIdle ->
  Forall (fun f => forall c, f = JSONFrame Passthrough c -> Choices c = [])
         (snd (run t evs)).
Proof.
  revert t; induction evs as [|ev evs IH]; intros t Hs; [constructor|].
  rewrite run_cons. cbn [snd]. apply Forall_app. split.
  - eapply Forall_impl; [|exact (processEvent_frames t ev)].
    intros f [->|[[s ->]|[chunk [[-> Hc]|[_ Hb]]]]] c; try discriminate.
    + intros [= <-]. destruct Hc as [Hc|[Hc _]]; [|congruence].
      now rewrite promote_no_choice.
    + destruct Hb as [(x & _ & ->)|[(u & raw & _ & ->)|(u & a & _ & ->)]];
        discriminate.
  - apply IH. pose proof (processEvent_rank t ev) as Hr.
    destruct (state t); try congruence;
      destruct (state (fst (processEvent t ev))); simpl in Hr; try lia;
      discriminate.
Qed.

(** ** The shape of the built chunks *)

Lemma parseToolCallID_prefix (raw : gostring) (index : Z) :
  HasPrefix (fst (parseToolCallID raw index)) (str "call_") = true.
Proof.
  unfold parseToolCallID.
  destruct (HasPrefix (TrimSpace raw) (str "call_")) eqn:E; cbn [fst];
    [exact E | apply HasPrefix_app].
Qed.

(** X11.  Every tool-call header of every run carries one tool call whose
    id begins with [call_] (the identifier of the stream when it does,
    an id made up from the index and the clock otherwise), whose type is
    [function] and whose arguments are empty; the header carries no
    content and no reasoning text. *)
Theorem header_shape (t : ToolCallTransformer) (evs : list Upstream) :
  Forall headerShape (snd (run t evs)).
Proof.
  revert evs t. apply run_frames.
  intros t f [->|[[s ->]|[c [[-> _]|[Hc Hb]]]]]; try exact I.
  destruct Hb as [(x & _ & ->)|[(u & raw & Hid & ->)|(u & a & _ & ->)]];
    try exact I.
  unfold makeToolCallHeader, headerShape. rewrite (deltasOf_built _ _ _ Hc).
  exists (currentID u), (parseFunctionName raw), (toolIndex u).
  split; [|reflexivity]. rewrite Hid. apply parseToolCallID_prefix.
Qed.

(** X12.  The rewriter never writes an empty piece: every content chunk it
    builds carries content that is not empty and nothing else, and every
    argument delta carries one tool call with arguments that are not
    empty and with no id, type or name. *)
Theorem payload_shape (t : ToolCallTransformer) (evs : list Upstream) :
  Forall payloadShape (snd (run t evs)).
Proof.
  revert evs t. apply run_frames.
  intros t f [->|[[s ->]|[c [[-> _]|[Hc Hb]]]]]; try exact I.
  destruct Hb as [(x & Hx & ->)|[(u & raw & _ & ->)|(u & a & Ha & ->)]];
    try exact I.
  - unfold makeContentChunk, payloadShape. rewrite (deltasOf_built _ _ _ Hc).
    now exists x.
  - unfold makeArgsDelta, payloadShape. rewrite (deltasOf_built _ _ _ Hc).
    now exists (toolIndex u), a.
Qed.

Lemma envelope_promote (chunk : Chunk) : envelope (promote chunk) = envelope chunk.
Proof.
  unfold promote. destruct (Choices chunk) as [|c0 rest]; [reflexivity|].
  now destruct (dFinishReason (cDelta c0)).
Qed.

Lemma envelope_built (base : Chunk) (d : Delta) :
  envelope (setDelta0 (shallowCopy base) d) = envelope base.
Proof.
  unfold setDelta0, shallowCopy.
  destruct (Choices base) as [|c0 rest] eqn:E; [now rewrite E | reflexivity].
Qed.

(** X13.  Every frame written for an upstream chunk, forwarded or built,
    is a chunk that holds, outside its choices, the values that were
    decoded from the upstream chunk: [id], [object], [model], [created],
    and of [usage] the two fields that the [Usage] type declares,
    [prompt_tokens] and [completion_tokens] (no usage when none was
    decoded).  Members of the upstream chunk that the types do not
    declare are not decoded and are in no frame. *)
Theorem frames_keep_envelope (t : ToolCallTransformer) (chunk : Chunk) :
  Forall (fun f => exists o c, f = JSONFrame o c /\ envelope c = envelope chunk)
         (snd (processEvent t (UpChunk chunk))).
Proof.
  eapply Forall_impl; [|exact (processChunk_frames t chunk)].
  intros f [[-> _]|[_ Hb]].
  - do 2 eexists. split; [reflexivity | apply envelope_promote].
  - destruct Hb as [(x & _ & ->)|[(u & raw & _ & ->)|(u & a & _ & ->)]];
      (do 2 eexists; split; [reflexivity|]);
      now rewrite envelope_built, envelope_promote.
Qed.

Lemma promote_delta_finish (chunk : Chunk) (c0 : Choice) (rest : list Choice) :
  Choices (promote chunk) = c0 :: rest -> dFinishReason (cDelta c0) = None.
Proof.
  destruct (Choices chunk) as [|d0 r0] eqn:E.
  - now rewrite promote_no_choice, E.
  - rewrite (promote_choices _ _ _ E). now intros [= <- _].
Qed.

(** X14.  No frame of a run has a [finish_reason] inside the delta of its
    first choice: promotion has moved it onto the choice in the chunks
    that are forwarded, and the deltas the rewriter builds have none. *)
Theorem finish_reason_never_in_delta (t : ToolCallTransformer)
    (evs : list Upstream) :
  Forall (fun d => dFinishReason d = None) (deltasOf (snd (run t evs))).
Proof.
  unfold deltasOf. apply Forall_flat_map. revert evs t. apply run_frames.
  intros t f [->|[[s ->]|[c [[-> _]|[Hc Hb]]]]]; try constructor.
  - destruct (Choices (promote c)) as [|c0 rest] eqn:E; constructor;
      [|constructor]. exact (promote_delta_finish _ _ _ E).
  - destruct (Choices (promote c)) as [|c0 rest] eqn:E; [congruence|].
    destruct Hb as [(x & _ & ->)|[(u & raw & _ & ->)|(u & a & _ & ->)]];
      unfold makeContentChunk, makeToolCallHeader, makeArgsDelta;
      rewrite (built_choices _ _ _ _ E); repeat constructor.
Qed.

(** ** The buffer between two events *)

Lemma quiescent_step (t : ToolCallTransformer) (base : Chunk) :
  quiescent t <-> step t base = (t, [], false).
Proof.
  unfold quiescent, step. destruct (state t) eqn:Hs.
  - destruct (Index (buf t) tokSectionBegin); split; try discriminate; auto.
  - destruct (Index (buf t) tokSectionEnd) as [e|];
      destruct (Index (buf t) tokCallBegin) as [i|];
      try destruct (e <? i);
      (split;
       [intros [H1 H2]; try discriminate; reflexivity
       |intros H; try (split; reflexivity); try discriminate H;
        apply (f_equal (fun r => state (fst (fst r)))) in H; simpl in H;
        congruence]).
  - destruct (Index (buf t) tokArgBegin); split; try discriminate; auto.
  - destruct (Index (buf t) tokCallEnd) as [i|] eqn:E.
    + split; [|discriminate]. intros Hb. rewrite Hb in E. discriminate.
    + destruct (buf t); cbn [isEmpty]; split; auto; discriminate.
  - split; auto.
Qed.

Lemma processEvent_quiescent (t : ToolCallTransformer) (ev : Upstream) :
  quiescent t -> quiescent (fst (processEvent t ev)).
Proof.
  intros Hq. destruct ev as [| |s|chunk]; simpl; try exact Hq.
  destruct (Choices (promote chunk)) as [|c0 rest]; [exact Hq|].
  assert (Hloop : forall text,
             quiescent (fst (processReasoning t (promote chunk) text))).
  { intros text. apply (quiescent_step _ (promote chunk)).
    unfold processReasoning. apply loop_quiescent. lia. }
  destruct (state t) eqn:Hs; try apply Hloop.
  destruct (negb _); [exact Hq | apply Hloop].
Qed.

Lemma run_quiescent (evs : list Upstream) (t : ToolCallTransformer) :
  quiescent t -> quiescent (fst (run t evs)).
Proof.
  revert t; induction evs as [|ev evs IH]; intros t Hq; [exact Hq|].
  rewrite run_cons. cbn [fst]. apply IH. now apply processEvent_quiescent.
Qed.

(** X9.  Between two events the buffer of a rewriter that started fresh
    holds nothing the loop could act on: no complete [S_BEG] in state
    Idle, neither a complete [C_BEG] nor a complete [S_END] in state
    InSection, no complete [A_BEG] in state ReadingID, and no byte at all
    in state ReadingArgs, where every byte has been written as an
    argument. *)
Theorem buffer_between_events (evs : list Upstream) :
  quiescent (fst (run NewToolCallTransformer evs)).
Proof. apply run_quiescent. reflexivity. Qed.

(** X7.  Once a stream has taken the rewriter out of state Idle, a chunk
    that has a choice and no reasoning text is dropped: nothing is written
    for it and the rewriter is unchanged, whatever the chunk carries
    ([content], [tool_calls], a [finish_reason], [usage]). *)
Theorem textless_chunk_dropped (evs : list Upstream) (c : Chunk) :
  state (fst (run NewToolCallTransformer evs)) <> stateIdle ->
  Choices c <> [] ->
  reasoningTextOf c = [] ->
  processEvent (fst (run NewToolCallTransformer evs)) (UpChunk c) =
  (fst (run NewToolCallTransformer evs), []).
Proof.
  set (t := fst (run NewToolCallTransformer evs)). intros Hs Hc Hr.
  assert (Hq : quiescent t) by (apply run_quiescent; reflexivity).
  destruct (processEvent_machine t c Hc ltac:(congruence)) as [-> _].
  rewrite Hr, feedBuf_nil, drain_step.
  now rewrite (proj1 (quiescent_step t (promote c)) Hq).
Qed.

(** X10.  The loop of [processReasoning] returns: a pass that goes round
    again has taken a delimiter off the buffer, so with the text appended
    the loop makes at most one pass more than the buffer has bytes.  Any
    larger bound on the passes gives the same rewriter and the same
    frames, and the pass on which the loop stops is one that returns. *)
Theorem processReasoning_returns (t : ToolCallTransformer) (base : Chunk)
    (text : gostring) (fuel : nat) :
  length (buf t ++ text) < fuel ->
  loop fuel (feedBuf t text) base [] = processReasoning t base text /\
  snd (step (fst (processReasoning t base text)) base) = false.
Proof.
  intros Hf. unfold processReasoning, feedBuf. split.
  - apply loop_fuel; cbn [setBuf buf]; lia.
  - rewrite loop_quiescent; [reflexivity | cbn [setBuf buf]; lia].
Qed.

(** ** The indices of the calls *)

Lemma countFrom_length (k : Z) (n : nat) : length (countFrom k n) = n.
Proof. revert k; induction n as [|n IH]; intros k; simpl; [|rewrite IH]; reflexivity. Qed.

Lemma countFrom_app (k : Z) (n m : nat) :
  countFrom k (n + m) = countFrom k n ++ countFrom (Nat.iter n nextIndex k) m.
Proof.
  revert k; induction n as [|n IH]; intros k; [reflexivity|].
  cbn [Nat.add countFrom app]. rewrite IH. cbn [Nat.iter].
  now rewrite Nat.iter_swap.
Qed.

Lemma countFrom_fits (n a : nat) :
  (0 < intBits)%Z -> (Z.of_nat (a + n) <= 2 ^ (intBits - 1))%Z ->
  countFrom (Z.of_nat a) n = map Z.of_nat (seq a n).
Proof.
  intros Hb. revert a; induction n as [|n IH]; intros a Hn; [reflexivity|].
  cbn [countFrom seq map]. f_equal. destruct n as [|n]; [reflexivity|].
  unfold nextIndex. rewrite wrapInt_fits by lia.
  replace (Z.of_nat a + 1)%Z with (Z.of_nat (S a)) by lia. apply IH. lia.
Qed.

Lemma counts_refl (t : ToolCallTransformer) : counts t [] t.
Proof. now exists 0. Qed.

Lemma counts_trans (t t1 t2 : ToolCallTransformer) (o1 o2 : list SSE) :
  counts t o1 t1 -> counts t1 o2 t2 -> counts t (o1 ++ o2) t2.
Proof.
  intros (n & H1 & E1) (m & H2 & E2). exists (n + m).
  unfold headerIndices in *. rewrite flat_map_app, H1, H2, E2, E1.
  rewrite countFrom_app. split; [reflexivity|].
  rewrite Nat.add_comm. symmetry. apply Nat.iter_add.
Qed.

Lemma step_counts (base : Chunk) (t t' : ToolCallTransformer) (o : list SSE)
    (again : bool) :
  Choices base <> [] -> step t base = (t', o, again) -> counts t o t'.
Proof.
  intros Hb.
  assert (H0 : forall u f, nextHeader u = nextHeader t ->
                 (f = [] \/ (exists x, f = [makeContentChunk base x]) \/
                  (exists v a, f = [makeArgsDelta v base a])) ->
                 counts t f u).
  { intros u f Hu Hf. exists 0. split; [|exact Hu].
    destruct Hf as [->|[[x ->]|(v & a & ->)]]; [reflexivity..|].
    unfold headerIndices. cbn [flat_map]. now rewrite (markOf_args _ _ _ Hb). }
  unfold step. destruct (state t) eqn:Hs.
  - destruct (Index (buf t) tokSectionBegin) as [i|]; intros [= <- <- _].
    + apply H0; [unfold nextHeader; now rewrite Hs|].
      destruct (0 <? i); [right; left; now eexists | now left].
    + apply H0; [reflexivity | now left].
  - destruct (Index (buf t) tokSectionEnd) as [e|];
      destruct (Index (buf t) tokCallBegin) as [i|];
      try destruct (e <? i); intros [= <- <- _];
      (apply H0; [unfold nextHeader; now rewrite ?Hs|]);
      try (now left);
      (destruct (isEmpty _); [now left | right; left; now eexists]).
  - destruct (Index (buf t) tokArgBegin) as [i|]; intros [= <- <- _].
    + exists 1. unfold headerIndices. cbn [flat_map].
      rewrite (markOf_header _ _ _ Hb). unfold nextHeader. rewrite Hs.
      split; reflexivity.
    + apply H0; [reflexivity | now left].
  - destruct (Index (buf t) tokCallEnd) as [i|].
    + intros [= <- <- _]. apply H0; [unfold nextHeader; now rewrite Hs|].
      destruct (isEmpty _); [now left | right; right; now do 2 eexists].
    + destruct (isEmpty (buf t)); intros [= <- <- _].
      * apply H0; [reflexivity | now left].
      * apply H0; [unfold nextHeader; cbn [setBuf state toolIndex]; reflexivity|].
        right; right. now do 2 eexists.
  - intros [= <- <- _]. apply H0; [reflexivity | now left].
Qed.

Lemma processEvent_counts (t : ToolCallTransformer) (ev : Upstream) :
  counts t (snd (processEvent t ev)) (fst (processEvent t ev)).
Proof.
  assert (Hsame : forall f, markOf f = MOther -> counts t [f] t).
  { intros f Hf. exists 0. unfold headerIndices. cbn [flat_map].
    rewrite Hf. split; reflexivity. }
  destruct ev as [| |s|chunk]; cbn [processEvent fst snd].
  - apply counts_refl.
  - now apply Hsame.
  - now apply Hsame.
  - destruct (Choices (promote chunk)) as [|c0 rest] eqn:E; [now apply Hsame|].
    assert (Hloop : forall text,
              counts t (snd (processReasoning t (promote chunk) text))
                     (fst (processReasoning t (promote chunk) text))).
    { intros text. unfold processReasoning.
      apply (loop_invariant (fun u out => counts t out u)).
      - intros u out u' o again H Hst.
        apply (counts_trans _ _ _ _ _ H).
        apply (step_counts (promote chunk) _ _ _ again); [congruence | exact Hst].
      - exists 0. split; reflexivity. }
    destruct (state t) eqn:Hs; try apply Hloop.
    destruct (negb _); [now apply Hsame | apply Hloop].
Qed.

Lemma run_counts (evs : list Upstream) (t : ToolCallTransformer) :
  counts t (snd (run t evs)) (fst (run t evs)).
Proof.
  revert t; induction evs as [|ev evs IH]; intros t; [apply counts_refl|].
  rewrite run_cons. cbn [fst snd].
  exact (counts_trans _ _ _ _ _ (processEvent_counts t ev) (IH _)).
Qed.

(** X4.  The tool calls of a stream are numbered in the order of their
    headers: the headers that a rewriter that started fresh has written
    carry the indices 0, 1, 2, ... one after the other, as long as their
    number fits in an [int]. *)
Theorem header_indices_sequential (evs : list Upstream) :
  (0 < intBits)%Z ->
  (Z.of_nat (length (headerIndices (snd (run NewToolCallTransformer evs))))
   <= 2 ^ (intBits - 1))%Z ->
  headerIndices (snd (run NewToolCallTransformer evs)) =
  map Z.of_nat
      (seq 0 (length (headerIndices (snd (run NewToolCallTransformer evs))))).
Proof.
  intros Hb. destruct (run_counts evs NewToolCallTransformer) as (n & -> & _).
  rewrite countFrom_length. intros Hn.
  exact (countFrom_fits n 0 Hb Hn).
Qed.

(** ** A section that arrives whole *)

Lemma Index_delimited (x p rest : gostring) :
  Index (x ++ p) p = Some (length x) ->
  Index (x ++ p ++ rest) p = Some (length x).
Proof. intros H. rewrite app_assoc. now apply Index_app_Some. Qed.

Lemma firstn_delimited (x y : gostring) : firstn (length x) (x ++ y) = x.
Proof.
  rewrite firstn_app, Nat.sub_diag, firstn_all. simpl. apply app_nil_r.
Qed.

Lemma skipn_delimited (x p rest : gostring) :
  skipn (length x + length p) (x ++ p ++ rest) = rest.
Proof.
  rewrite app_assoc, <- length_app, skipn_app, skipn_all, Nat.sub_diag.
  reflexivity.
Qed.

Lemma containsAnyToken_app_r (x y : gostring) :
  containsAnyToken y = true -> containsAnyToken (x ++ y) = true.
Proof.
  unfold containsAnyToken, Contains.
  destruct (Index y (str "<|tool_call")) as [j|] eqn:E; [intros _|discriminate].
  destruct (Index (x ++ y) (str "<|tool_call")) as [i|] eqn:E'; [reflexivity|].
  pose proof (Index_None_skipn _ _ (length x + j) E') as Hn.
  rewrite skipn_app, skipn_all2 in Hn by lia.
  replace (length x + j - length x) with j in Hn by lia.
  cbn [app] in Hn. now rewrite (Index_Some_prefix _ _ _ E) in Hn.
Qed.

Lemma step_idle_section (base : Chunk) (pre rest : gostring) (k : Z)
    (id0 : gostring) :
  Index (pre ++ tokSectionBegin) tokSectionBegin = Some (length pre) ->
  step (mkT stateIdle (pre ++ tokSectionBegin ++ rest) k id0) base =
  (mkT stateInSection rest k id0, contentFrames base pre, true).
Proof.
  intros H. unfold step. cbn [state buf toolIndex currentID].
  rewrite (Index_delimited _ _ rest H), skipn_delimited, firstn_delimited.
  unfold contentFrames. now destruct pre.
Qed.

Lemma step_inSection_call (base : Chunk) (gap rest : gostring) (k : Z)
    (id0 : gostring) :
  Index (gap ++ tokCallBegin) tokCallBegin = Some (length gap) ->
  Index (gap ++ tokCallBegin) tokSectionEnd = None ->
  step (mkT stateInSection (gap ++ tokCallBegin ++ rest) k id0) base =
  (mkT stateReadingID rest k id0, [], true).
Proof.
  intros Hi He. unfold step. cbn [state buf toolIndex currentID].
  rewrite (Index_delimited _ _ rest Hi), skipn_delimited.
  destruct (Index (gap ++ tokCallBegin ++ rest) tokSectionEnd) as [e|] eqn:E;
    [|reflexivity].
  rewrite app_assoc in E.
  pose proof (sectionEnd_not_before _ _ _ _ Hi He E) as Hle.
  now rewrite (proj2 (Nat.ltb_ge e (length gap)) Hle).
Qed.

Lemma step_inSection_end (base : Chunk) (gap post : gostring) (k : Z)
    (id0 : gostring) :
  Index (gap ++ tokSectionEnd) tokSectionEnd = Some (length gap) ->
  Index (gap ++ tokSectionEnd) tokCallBegin = None ->
  step (mkT stateInSection (gap ++ tokSectionEnd ++ post) k id0) base =
  (mkT stateTrailing [] k id0, contentFrames base post, false).
Proof.
  intros He Hi. unfold step. cbn [state buf toolIndex currentID].
  rewrite (Index_delimited _ _ post He).
  destruct (Index (gap ++ tokSectionEnd ++ post) tokCallBegin) as [i|] eqn:E;
    [|cbv beta iota; now rewrite skipn_delimited].
  destruct (length gap <? i) eqn:Hlt;
    [cbv beta iota; now rewrite skipn_delimited | exfalso].
  apply Nat.ltb_ge in Hlt. rewrite app_assoc in E.
  apply Index_Some_prefix in E.
  apply HasPrefix_skipn_app_inv in E.
  - now rewrite (Index_None_skipn _ _ i Hi) in E.
  - rewrite length_app. change (length tokSectionEnd) with 26.
    change (length tokCallBegin) with 19. lia.
Qed.

Lemma step_readingID (base : Chunk) (idt rest : gostring) (k : Z)
    (id0 : gostring) :
  Index (idt ++ tokArgBegin) tokArgBegin = Some (length idt) ->
  step (mkT stateReadingID (idt ++ tokArgBegin ++ rest) k id0) base =
  (mkT stateReadingArgs rest k (fst (parseToolCallID (TrimSpace idt) k)),
   [makeToolCallHeader
      (mkT stateReadingArgs [] k (fst (parseToolCallID (TrimSpace idt) k)))
      base (parseFunctionName (TrimSpace idt))],
   true).
Proof.
  intros H. unfold step. cbn [state buf toolIndex currentID].
  now rewrite (Index_delimited _ _ rest H), skipn_delimited, firstn_delimited.
Qed.

Lemma step_readingArgs (base : Chunk) (a rest : gostring) (k : Z)
    (id0 : gostring) :
  Index (a ++ tokCallEnd) tokCallEnd = Some (length a) ->
  step (mkT stateReadingArgs (a ++ tokCallEnd ++ rest) k id0) base =
  (mkT stateInSection rest (nextIndex k) id0,
   if isEmpty a then []
   else [makeArgsDelta (mkT stateReadingArgs [] k id0) base a],
   true).
Proof.
  intros H. unfold step. cbn [state buf toolIndex currentID].
  now rewrite (Index_delimited _ _ rest H), skipn_delimited, firstn_delimited.
Qed.

Lemma drain_calls (base : Chunk) (gapEnd post : gostring) (calls : list Call) :
  Forall wellDelimited calls ->
  Index (gapEnd ++ tokSectionEnd) tokSectionEnd = Some (length gapEnd) ->
  Index (gapEnd ++ tokSectionEnd) tokCallBegin = None ->
  forall k id0,
    let r := drain (mkT stateInSection
                        (flat_map callText calls ++
                         gapEnd ++ tokSectionEnd ++ post) k id0) base in
    state (fst r) = stateTrailing /\ buf (fst r) = [] /\
    toolIndex (fst r) = Nat.iter (length calls) nextIndex k /\
    snd r = sectionFrames base k calls ++ contentFrames base post.
Proof.
  intros Hw He Hi. induction Hw as [|c calls Hc _ IH]; intros k id0.
  - cbn [flat_map app]. cbv zeta. rewrite drain_step.
    rewrite (step_inSection_end _ _ _ _ _ He Hi). now repeat split.
  - destruct Hc as (H1 & H2 & H3 & H4). cbv zeta.
    cbn [flat_map].
    change (callText c) with
      (callGap c ++ tokCallBegin ++ callID c ++ tokArgBegin ++
       callArgs c ++ tokCallEnd).
    rewrite <- !app_assoc.
    rewrite drain_step, (step_inSection_call _ _ _ _ _ H1 H2).
    rewrite drain_step, (step_readingID _ _ _ _ _ H3).
    rewrite drain_step, (step_readingArgs _ _ _ _ _ H4).
    cbn [fst snd app].
    specialize (IH (nextIndex k) (fst (parseToolCallID (TrimSpace (callID c)) k))).
    cbv zeta in IH. destruct IH as (Hs & Hb & Hk & Ho).
    split; [exact Hs|]. split; [exact Hb|]. split.
    + rewrite Hk. cbn [length Nat.iter]. apply Nat.iter_swap.
    + rewrite Ho. cbn [sectionFrames]. unfold callFrames.
      now rewrite <- app_assoc.
Qed.

(** X1.  A section that arrives whole in the reasoning text of one chunk
    is rewritten in full.  From a fresh rewriter, for text before the
    section, calls of which each part ends at its delimiter, and text
    after the section: the frames are the text before as one content chunk
    (when there is some), then for each call in order its header, with
    the id and the function name parsed from its identifier and with the
    next index, and its arguments as one argument delta (when there are
    some), then the text after as one content chunk (when there is some).
    The text that stands between the calls is dropped, and the rewriter
    ends in state Trailing with an empty buffer and [toolIndex] advanced
    once for each call. *)
Theorem section_in_one_chunk (chunk : Chunk) (pre gapEnd post : gostring)
    (calls : list Call) :
  Choices chunk <> [] ->
  reasoningTextOf chunk = sectionText pre calls gapEnd post ->
  Index (pre ++ tokSectionBegin) tokSectionBegin = Some (length pre) ->
  Forall wellDelimited calls ->
  Index (gapEnd ++ tokSectionEnd) tokSectionEnd = Some (length gapEnd) ->
  Index (gapEnd ++ tokSectionEnd) tokCallBegin = None ->
  let r := processEvent NewToolCallTransformer (UpChunk chunk) in
  state (fst r) = stateTrailing /\ buf (fst r) = [] /\
  toolIndex (fst r) = Nat.iter (length calls) nextIndex 0%Z /\
  snd r = contentFrames (promote chunk) pre ++
          sectionFrames (promote chunk) 0 calls ++
          contentFrames (promote chunk) post.
Proof.
  intros Hc Ht Hp Hw He Hi r. subst r.
  assert (Htok : containsAnyToken (reasoningTextOf chunk) = true).
  { rewrite Ht. unfold sectionText. apply containsAnyToken_app_r.
    now apply containsAnyToken_app. }
  destruct (processEvent_machine NewToolCallTransformer chunk Hc (fun _ => Htok))
    as [-> _].
  rewrite Ht. unfold sectionText, feedBuf, NewToolCallTransformer, setBuf.
  cbn [state buf toolIndex currentID app].
  rewrite drain_step, (step_idle_section _ _ _ _ _ Hp). cbn [fst snd].
  destruct (drain_calls (promote chunk) gapEnd post calls Hw He Hi 0%Z [])
    as (Hs & Hb & Hk & Ho).
  now rewrite Ho.
Qed.

(** ** Equality of strings *)

Lemma eqString_eq (a b : gostring) : eqString a b = true <-> a = b.
Proof.
  revert b; induction a as [|x a IH]; intros [|y b]; simpl;
    try (split; [discriminate | discriminate]); [now split|].
  rewrite andb_true_iff, Ascii.eqb_eq, IH. split.
  - now intros [-> ->].
  - now intros [= -> ->].
Qed.

Lemma eqString_refl (a : gostring) : eqString a a = true.
Proof. now apply eqString_eq. Qed.

Lemma HasPrefix_firstn (s p : gostring) :
  HasPrefix s p = eqString (firstn (length p) s) p.
Proof.
  revert s; induction p as [|x p IH]; intros [|c s]; simpl; try reflexivity.
  now rewrite IH.
Qed.

(** ** The end of the stream *)

(** X15.  [Transform] writes the frame [data: [DONE]] exactly for the
    events whose data, trimmed, is [[DONE]]: in every state, the states in
    which chunks are swallowed included, such an event gives that one
    frame and leaves the rewriter as it is, and no other event gives a
    [[DONE]] frame, so the rewriter neither drops the end of the stream
    nor makes one up. *)
Theorem done_frame_exact (t : ToolCallTransformer) (data : gostring) :
  if eqString (TrimSpace data) (str "[DONE]")
  then Transform t data = (t, [DoneFrame])
  else ~ In DoneFrame (snd (Transform t data)).
Proof.
  unfold Transform, decodeEvent.
  destruct (eqString (TrimSpace data) (str "[DONE]")) eqn:E.
  - destruct data as [|x d]; [discriminate|]. cbn [isEmpty].
    now destruct (eqString (x :: d) (str "[DONE]")).
  - destruct data as [|x d]; cbn [isEmpty]; [simpl; tauto|].
    destruct (eqString (x :: d) (str "[DONE]")) eqn:E'.
    { apply eqString_eq in E'. rewrite E' in E. discriminate. }
    destruct (Unmarshal (TrimSpace (x :: d))) as [chunk|].
    + intros H. pose proof (processChunk_frames t chunk) as Hf.
      rewrite Forall_forall in Hf. specialize (Hf _ H).
      destruct Hf as [[Hf _]|[_ Hb]]; [discriminate|].
      destruct Hb as [(y & _ & Hb)|[(u & raw & _ & Hb)|(u & a & _ & Hb)]];
        discriminate.
    + simpl. intros [H|[]]. discriminate.
Qed.

(** ** No index and no slice out of range *)

Lemma sliceTo_found (s p : gostring) (i : nat) :
  Index s p = Some i -> sliceTo s i = Some (firstn i s).
Proof.
  intros H. apply Index_Some_bound in H. unfold sliceTo.
  now rewrite (proj2 (Nat.leb_le i (length s))) by lia.
Qed.

Lemma sliceFrom_found (s p : gostring) (i : nat) :
  Index s p = Some i ->
  sliceFrom s (i + length p) = Some (skipn (i + length p) s).
Proof.
  intros H. apply Index_Some_bound in H. unfold sliceFrom.
  now rewrite (proj2 (Nat.leb_le _ (length s))) by lia.
Qed.

Lemma LastIndex_bound (s p : gostring) (i : nat) :
  LastIndex s p = Some i -> i <= length s.
Proof.
  revert i; induction s as [|x s IH]; intros i; cbn [LastIndex length].
  - destruct (HasPrefix [] p); intros [= <-]. lia.
  - destruct (LastIndex s p) as [j|].
    + intros [= <-]. specialize (IH j eq_refl). lia.
    + destruct (HasPrefix (x :: s) p); intros [= <-]. lia.
Qed.

Lemma parseFunctionNameC_total (raw : gostring) :
  parseFunctionNameC raw = Some (parseFunctionName raw).
Proof.
  unfold parseFunctionNameC, parseFunctionName.
  destruct (Index (TrimSpace raw) (str ".")) as [i|] eqn:E; cbn [bind].
  - change (i + 1) with (i + length (str ".")).
    rewrite (sliceFrom_found _ _ _ E). cbn [bind].
    destruct (LastIndex _ (str ":")) as [j|] eqn:E'; [|reflexivity].
    apply LastIndex_bound in E'. unfold sliceTo.
    now rewrite (proj2 (Nat.leb_le _ _) E').
  - destruct (LastIndex _ (str ":")) as [j|] eqn:E'; [|reflexivity].
    apply LastIndex_bound in E'. unfold sliceTo.
    now rewrite (proj2 (Nat.leb_le _ _) E').
Qed.

Lemma makeContentChunkC_total (base : Chunk) (x : gostring) :
  Choices base <> [] -> makeContentChunkC base x = Some (makeContentChunk base x).
Proof.
  intros Hb. destruct (Choices base) as [|c0 rest] eqn:E; [congruence|].
  unfold makeContentChunkC, makeContentChunk, shallowCopyC, shallowCopy,
    choice0, setDelta0C, setDelta0.
  now rewrite E.
Qed.

Lemma makeToolCallHeaderC_total (t : ToolCallTransformer) (base : Chunk)
    (n : gostring) :
  Choices base <> [] ->
  makeToolCallHeaderC t base n = Some (makeToolCallHeader t base n).
Proof.
  intros Hb. destruct (Choices base) as [|c0 rest] eqn:E; [congruence|].
  unfold makeToolCallHeaderC, makeToolCallHeader, shallowCopyC, shallowCopy,
    choice0, setDelta0C, setDelta0.
  now rewrite E.
Qed.

Lemma makeArgsDeltaC_total (t : ToolCallTransformer) (base : Chunk)
    (a : gostring) :
  Choices base <> [] -> makeArgsDeltaC t base a = Some (makeArgsDelta t base a).
Proof.
  intros Hb. destruct (Choices base) as [|c0 rest] eqn:E; [congruence|].
  unfold makeArgsDeltaC, makeArgsDelta, shallowCopyC, shallowCopy,
    choice0, setDelta0C, setDelta0.
  now rewrite E.
Qed.

Lemma stepC_total (t : ToolCallTransformer) (base : Chunk) :
  Choices base <> [] -> stepC t base = Some (step t base).
Proof.
  intros Hb. unfold stepC, step. destruct (state t).
  - destruct (Index (buf t) tokSectionBegin) as [i|] eqn:E; [|reflexivity].
    rewrite (sliceTo_found _ _ _ E), (sliceFrom_found _ _ _ E). cbn [bind].
    rewrite (makeContentChunkC_total _ _ Hb).
    now destruct (0 <? i).
  - destruct (Index (buf t) tokSectionEnd) as [e|] eqn:Ee;
      destruct (Index (buf t) tokCallBegin) as [i|] eqn:Ei;
      try destruct (e <? i);
      rewrite ?(sliceFrom_found _ _ _ Ee), ?(sliceFrom_found _ _ _ Ei);
      cbn [bind]; rewrite ?(makeContentChunkC_total _ _ Hb);
      try destruct (isEmpty _); reflexivity.
  - destruct (Index (buf t) tokArgBegin) as [i|] eqn:E; [|reflexivity].
    rewrite (sliceTo_found _ _ _ E), (sliceFrom_found _ _ _ E). cbn [bind].
    rewrite parseFunctionNameC_total. cbn [bind].
    now rewrite (makeToolCallHeaderC_total _ _ _ Hb).
  - destruct (Index (buf t) tokCallEnd) as [i|] eqn:E.
    + rewrite (sliceTo_found _ _ _ E), (sliceFrom_found _ _ _ E). cbn [bind].
      rewrite (makeArgsDeltaC_total _ _ _ Hb). now destruct (isEmpty _).
    + rewrite (makeArgsDeltaC_total _ _ _ Hb). now destruct (isEmpty _).
  - reflexivity.
Qed.

Lemma loopC_total (base : Chunk) (fuel : nat) :
  Choices base <> [] ->
  forall t out, loopC fuel t base out = Some (loop fuel t base out).
Proof.
  intros Hb. induction fuel as [|f IH]; intros t out; [reflexivity|].
  cbn [loopC loop]. rewrite (stepC_total _ _ Hb). cbn [bind].
  destruct (step t base) as [[t' o] again]. destruct again; [apply IH | reflexivity].
Qed.

Lemma promoteC_total (chunk : Chunk) : promoteC chunk = Some (promote chunk).
Proof.
  unfold promoteC, promote, choice0.
  destruct (Choices chunk) as [|c0 rest]; [reflexivity|]. cbn [length Nat.ltb Nat.leb bind].
  now destruct (dFinishReason (cDelta c0)).
Qed.

Lemma processEventC_total (t : ToolCallTransformer) (ev : Upstream) :
  processEventC t ev = Some (processEvent t ev).
Proof.
  destruct ev as [| |s|chunk]; try reflexivity.
  cbn [processEventC processEvent]. rewrite promoteC_total. cbn [bind].
  unfold choice0.
  destruct (Choices (promote chunk)) as [|c0 rest] eqn:E; [reflexivity|].
  cbn [length Nat.eqb bind].
  assert (Hloop : forall text,
             processReasoningC t (promote chunk) text =
             Some (processReasoning t (promote chunk) text)).
  { intros text. unfold processReasoningC, processReasoning.
    apply loopC_total. congruence. }
  destruct (state t); try apply Hloop.
  destruct (negb _); [reflexivity | apply Hloop].
Qed.

(** X20.  The rewriter cannot panic on an index or a slice out of range.
    With every slice expression and every index expression of
    [processEvent], [processReasoning], the chunk builders, [shallowCopy]
    and [parseFunctionName] checked as Go checks them, no check fails, in
    any state, on any stream of events, and the checked rewriter computes
    what the unchecked one computes: [c.Choices[0]] is only reached for a
    chunk that has a choice, and every bound of a slice of [buf] comes
    from an index that [strings.Index] has found. *)
Theorem processEvent_never_panics (t : ToolCallTransformer)
    (evs : list Upstream) :
  runC t evs = Some (run t evs).
Proof.
  revert t; induction evs as [|ev evs IH]; intros t; [reflexivity|].
  cbn [runC]. rewrite processEventC_total. cbn [bind fst snd].
  rewrite IH. cbn [bind]. rewrite run_cons.
  now destruct (processEvent t ev), (run _ evs).
Qed.

(** ** What the rewriter reads *)

(** X21.  Once the rewriter has left state Idle it reads nothing of an
    upstream chunk but its reasoning text: two streams of chunks (each
    with a choice) that carry the same reasoning texts, chunk for chunk,
    leave the same rewriter and give the same content bytes, headers and
    argument bytes, frame for frame, whatever their other fields hold. *)
Theorem rewriting_reads_text_only (t : ToolCallTransformer)
    (cs1 cs2 : list Chunk) :
  state t <> stateIdle ->
  Forall (fun c => Choices c <> []) cs1 ->
  Forall (fun c => Choices c <> []) cs2 ->
  map reasoningTextOf cs1 = map reasoningTextOf cs2 ->
  fst (run t (map UpChunk cs1)) = fst (run t (map UpChunk cs2)) /\
  items (snd (run t (map UpChunk cs1))) = items (snd (run t (map UpChunk cs2))).
Proof.
  revert t cs2; induction cs1 as [|c1 cs1 IH]; intros t [|c2 cs2] Hs H1 H2 Ht;
    try discriminate; [now split|].
  inversion H1 as [|? ? Hc1 H1']; subst. inversion H2 as [|? ? Hc2 H2']; subst.
  cbn [map] in Ht. injection Ht as Ht0 Ht'.
  cbn [map]. rewrite !run_cons. cbn [fst snd].
  destruct (processEvent_machine t c1 Hc1 ltac:(congruence)) as [E1 B1].
  destruct (processEvent_machine t c2 Hc2 ltac:(congruence)) as [E2 B2].
  pose proof (processEvent_rank t (UpChunk c1)) as Hr.
  rewrite Ht0 in E1.
  destruct (drain_base _ _ B1 B2 _ (feedBuf t (reasoningTextOf c2))
              (Nat.lt_succ_diag_r _)) as [Hf Hi].
  rewrite <- E1, <- E2 in Hf, Hi. rewrite <- Hf.
  assert (Hs' : state (fst (processEvent t (UpChunk c1))) <> stateIdle).
  { intros H. rewrite H in Hr. destruct (state t); simpl in Hr; try lia.
    congruence. }
  destruct (IH _ cs2 Hs' H1' H2' Ht') as [IHf IHi].
  split; [exact IHf|]. now rewrite !items_app, Hi, IHi.
Qed.

(** ** The delta that the client is sent *)

Lemma decodeFunction_encode (f : Function) :
  decodeFunction (Some (encodeFunction f)) = Decoded f.
Proof. destruct f as [[|x n] [|y a]]; reflexivity. Qed.

Lemma decodeToolCall_encode (tc : ToolCall) :
  isInt (tcIndex tc) -> decodeToolCall (Some (encodeToolCall tc)) = Decoded tc.
Proof.
  destruct tc as [id ty k f]. unfold isInt. cbn [tcIndex]. intros Hk.
  apply andb_true_iff in Hk as [H1 H2].
  pose proof (decodeFunction_encode f) as Hf.
  destruct id as [|x id], ty as [|y ty].
  all: lazy -[decodeFunction encodeFunction fitsInt].
  all: rewrite H1, H2, Hf; reflexivity.
Qed.

Lemma decodeElements_encode (l : list ToolCall) :
  Forall (fun tc => isInt (tcIndex tc)) l ->
  decodeElements decodeToolCall (map encodeToolCall l) = Decoded l.
Proof.
  induction 1 as [|tc l Htc _ IH]; [reflexivity|].
  cbn [map decodeElements]. rewrite (decodeToolCall_encode _ Htc).
  cbn [decodeBind]. now rewrite IH.
Qed.

Lemma decodeDelta_encode (d : Delta) :
  Forall (fun tc => isInt (tcIndex tc)) (ToolCalls d) ->
  decodeDelta (Some (encodeDelta d)) = Decoded d.
Proof.
  destruct d as [c r rc tcs fr]. cbn [ToolCalls]. intros Htc.
  pose proof (decodeElements_encode tcs Htc) as Hl.
  destruct c as [|x1 c], r as [|x2 r], rc as [|x3 rc], tcs as [|tc tcs],
    fr as [fr|].
  all: lazy -[decodeElements decodeToolCall encodeToolCall map].
  all: rewrite ?Hl; reflexivity.
Qed.

Lemma fitsInt_zero (bits : Z) : (0 < bits)%Z -> fitsInt bits 0 = true.
Proof.
  intros Hb. unfold fitsInt.
  assert (0 < 2 ^ (bits - 1))%Z by (apply Z.pow_pos_nonneg; lia).
  apply andb_true_iff. split; [apply Z.leb_le | apply Z.ltb_lt]; lia.
Qed.

Lemma decodeInt_isInt (v : option JSON) (z : Z) :
  (0 < intBits)%Z -> decodeInt v = Decoded z -> isInt z.
Proof.
  intros Hb. unfold decodeInt, isInt.
  assert (H0 : fitsInt 64 0 && fitsInt intBits 0 = true)
    by (rewrite (fitsInt_zero intBits Hb); reflexivity).
  destruct v as [j|]; [destruct j|]; try discriminate;
    try (intros [= <-]; exact H0).
  destruct (fitsInt 64 z0 && fitsInt intBits z0) eqn:E; [|discriminate].
  now intros [= <-].
Qed.

Lemma decodeBind_Decoded {A B : Type} (a : Decode A) (f : A -> Decode B) (b : B) :
  decodeBind a f = Decoded b -> exists x, a = Decoded x /\ f x = Decoded b.
Proof. destruct a as [x| |]; try discriminate. intros H. now exists x. Qed.

Lemma decodeToolCall_isInt (v : option JSON) (tc : ToolCall) :
  (0 < intBits)%Z -> decodeToolCall v = Decoded tc -> isInt (tcIndex tc).
Proof.
  intros Hb H.
  assert (H0 : isInt 0)
    by (unfold isInt; rewrite (fitsInt_zero intBits Hb); reflexivity).
  unfold decodeToolCall in H.
  destruct v as [j|]; [destruct j|]; try discriminate;
    try (injection H as <-; exact H0).
  apply decodeBind_Decoded in H as (id & _ & H).
  apply decodeBind_Decoded in H as (ty & _ & H).
  apply decodeBind_Decoded in H as (k & Hk & H).
  apply decodeBind_Decoded in H as (f & _ & H).
  injection H as <-. cbn [tcIndex].
  apply decodeBind_Decoded in Hk as (m & _ & Hk).
  exact (decodeInt_isInt m k Hb Hk).
Qed.

Lemma decodeElements_isInt (l : list JSON) (tcs : list ToolCall) :
  (0 < intBits)%Z -> decodeElements decodeToolCall l = Decoded tcs ->
  Forall (fun tc => isInt (tcIndex tc)) tcs.
Proof.
  intros Hb. revert tcs.
  induction l as [|e l IH]; intros tcs H; cbn [decodeElements] in H.
  - injection H as <-. apply Forall_nil.
  - apply decodeBind_Decoded in H as (tc & Htc & H).
    apply decodeBind_Decoded in H as (rest & Hrest & H).
    injection H as <-. apply Forall_cons.
    + exact (decodeToolCall_isInt _ _ Hb Htc).
    + exact (IH _ Hrest).
Qed.

Lemma decodeDelta_isInt (v : option JSON) (d : Delta) :
  (0 < intBits)%Z -> decodeDelta v = Decoded d ->
  Forall (fun tc => isInt (tcIndex tc)) (ToolCalls d).
Proof.
  intros Hb H. unfold decodeDelta in H.
  destruct v as [j|]; [destruct j|]; try discriminate;
    try (injection H as <-; apply Forall_nil).
  apply decodeBind_Decoded in H as (c & _ & H).
  apply decodeBind_Decoded in H as (r & _ & H).
  apply decodeBind_Decoded in H as (rc & _ & H).
  apply decodeBind_Decoded in H as (tcs & Htcs & H).
  apply decodeBind_Decoded in H as (fr & _ & H).
  injection H as <-. cbn [ToolCalls].
  apply decodeBind_Decoded in Htcs as (m & _ & Htcs).
  unfold decodeToolCalls in Htcs.
  destruct m as [j|]; [destruct j|]; try discriminate;
    try (injection Htcs as <-; apply Forall_nil).
  exact (decodeElements_isInt _ _ Hb Htcs).
Qed.

Lemma encodeDelta_names (d : Delta) :
  dFinishReason d = None ->
  Forall (fun n => In n declaredInDelta) (memberNames (encodeDelta d)).
Proof.
  destruct d as [c r rc tcs fr]. cbn [dFinishReason]. intros ->.
  unfold encodeDelta, memberNames, omitEmpty, declaredInDelta.
  cbn [Content Reasoning ReasoningContent ToolCalls dFinishReason].
  destruct (isEmpty c), (isEmpty r), (isEmpty rc), tcs; cbn [app map fst].
  all: repeat (apply Forall_cons;
         [solve [repeat (first [left; reflexivity | right])]|]).
  all: apply Forall_nil.
Qed.

(** X22.  In state Idle, a chunk whose reasoning text holds no
    [<|tool_call] gives one frame, and the delta document of that frame is
    made from the decoded delta alone.  Whatever document [jd] of the
    upstream delta is decoded (without error, and with no field named
    twice) to the delta of the first choice: the members of the delta
    document of the frame are named [content], [reasoning],
    [reasoning_content] or [tool_calls], so a member of [jd] that [Delta]
    does not declare ([role], for one) is not in it, nor is
    [finish_reason]; and the document decodes to the delta decoded from
    [jd] with its [finish_reason] cleared, so the four fields keep the
    decoded values.  [int] has at least one bit. *)
Theorem passthrough_delta_document (t : ToolCallTransformer) (chunk : Chunk)
    (c0 : Choice) (rest : list Choice) (jd : JSON) :
  (0 < intBits)%Z ->
  state t = stateIdle ->
  Choices chunk = c0 :: rest ->
  containsAnyToken (reasoningOf c0) = false ->
  decodeDelta (Some jd) = Decoded (cDelta c0) ->
  exists f out,
    processEvent t (UpChunk chunk) = (t, [f]) /\
    deltaDocument f = Some out /\
    Forall (fun n => In n declaredInDelta) (memberNames out) /\
    decodeDelta (Some out) = Decoded (clearFinish (cDelta c0)).
Proof.
  intros Hb Hs Hc Hf Hd.
  exists (JSONFrame Passthrough (promote chunk)),
         (encodeDelta (clearFinish (cDelta c0))).
  split; [|split; [|split]].
  - apply processEvent_idle_passthrough; [exact Hs|].
    unfold tokenFree, reasoningTextOf. now rewrite Hc.
  - unfold deltaDocument. now rewrite (promote_choices' _ _ _ Hc).
  - now apply encodeDelta_names.
  - apply decodeDelta_encode. cbn [clearFinish ToolCalls].
    exact (decodeDelta_isInt _ _ Hb Hd).
Qed.

End Rewriter.

Arguments Decoded {A} a.
Arguments TypeError {A}.
Arguments NotModelled {A}.

(** * The identifier format of the model *)

Lemma afterFirst_app (c : ascii) (a r : gostring) :
  ~ In c a -> afterFirst c (a ++ c :: r) = Some r.
Proof.
  induction a as [|x a IH]; simpl; intros Hn.
  - now rewrite Ascii.eqb_refl.
  - destruct (Ascii.eqb x c) eqn:E.
    + apply Ascii.eqb_eq in E. exfalso. apply Hn. now left.
    + apply IH. intros H. apply Hn. now right.
Qed.

Lemma beforeLast_absent (c : ascii) (r : gostring) :
  ~ In c r -> beforeLast c r = None.
Proof.
  induction r as [|x r IH]; simpl; intros Hn; [reflexivity|].
  rewrite IH by (intros H; apply Hn; now right).
  destruct (Ascii.eqb x c) eqn:E; [|reflexivity].
  apply Ascii.eqb_eq in E. exfalso. apply Hn. now left.
Qed.

Lemma beforeLast_app (c : ascii) (a r : gostring) :
  ~ In c r -> beforeLast c (a ++ c :: r) = Some a.
Proof.
  intros Hn. induction a as [|x a IH]; simpl.
  - now rewrite (beforeLast_absent c r Hn), Ascii.eqb_refl.
  - now rewrite IH.
Qed.

(** X19.  The function name is read back from an identifier in the format
    of the model, [<namespace>.<name>:<counter>]: when the namespace holds
    no [.], the counter holds no [:] and the identifier has no white space
    around it, [parseFunctionName] gives the name, whatever characters the
    name holds, [.] and [:] included. *)
Theorem function_name_round_trip (ns name counter : gostring) :
  ~ In "."%char ns ->
  ~ In ":"%char counter ->
  TrimSpace (ns ++ str "." ++ name ++ str ":" ++ counter) =
    ns ++ str "." ++ name ++ str ":" ++ counter ->
  parseFunctionName (ns ++ str "." ++ name ++ str ":" ++ counter) = name.
Proof.
  intros Hns Hc Ht. rewrite parseFunctionName_spec, Ht.
  unfold specFunctionName. change (str ".") with ["."%char].
  change (str ":") with [":"%char]. cbn [app].
  rewrite (afterFirst_app _ _ _ Hns). now rewrite (beforeLast_app _ _ _ Hc).
Qed.

(** * Properties of the request side *)

Lemma resolveAPIKey_getEffectiveKey (auth key : gostring) :
  resolveAPIKey auth key = getEffectiveKey auth key.
Proof. unfold resolveAPIKey, getEffectiveKey. now destruct auth. Qed.

Lemma getEffectiveKey_bearer (key fallback : gostring) :
  getEffectiveKey (str "Bearer " ++ key) fallback =
  if isEmpty key then fallback else key.
Proof. unfold getEffectiveKey. now destruct key. Qed.

(** X17.  The three functions that read the API key from an
    [Authorization] header agree but for one header.  [resolveAPIKey] of
    [handler.go] and [getEffectiveKey] of [completions.go] are the same
    function of the header and the configured key (the test for an absent
    header in [resolveAPIKey] changes no result), and [Client.GetAPIKey]
    of [upstream/client.go] gives the same key as they do for every
    header but [Bearer ] with nothing after it, for which it gives the
    empty key where they fall back on the configured key. *)
Theorem api_key_readers_agree (c : Client) (auth : gostring) :
  resolveAPIKey auth (APIKey c) = getEffectiveKey auth (APIKey c) /\
  GetAPIKey c auth =
    if eqString auth (str "Bearer ") then [] else getEffectiveKey auth (APIKey c).
Proof.
  split; [apply resolveAPIKey_getEffectiveKey|].
  unfold GetAPIKey, getEffectiveKey, TrimPrefix.
  pose proof (HasPrefix_firstn auth (str "Bearer ")) as HP.
  change (length (str "Bearer ")) with 7 in HP. rewrite <- HP. clear HP.
  destruct (HasPrefix auth (str "Bearer ")) eqn:E.
  - apply HasPrefix_true in E as [r ->].
    destruct r as [|x r]; [reflexivity|].
    replace (eqString (str "Bearer " ++ x :: r) (str "Bearer ")) with false;
      [reflexivity|].
    symmetry. apply not_true_is_false. rewrite eqString_eq.
    intros H. apply (f_equal (@length ascii)) in H. simpl in H. lia.
  - rewrite andb_false_r.
    replace (eqString auth (str "Bearer ")) with false; [reflexivity|].
    symmetry. apply not_true_is_false. rewrite eqString_eq. intros ->.
    discriminate.
Qed.

(** X18.  The key that [SetHeaders] writes into the [Authorization]
    header is the key that the three readers find in it:
    [Client.GetAPIKey] always, [getEffectiveKey] and [resolveAPIKey]
    unless it is empty, when they fall back. *)
Theorem bearer_round_trip (c other : Client) (h : Header)
    (fallback : gostring) :
  exists v,
    headerGet (SetHeaders c h) (str "Authorization") = Some [v] /\
    GetAPIKey other v = APIKey c /\
    getEffectiveKey v fallback =
      (if isEmpty (APIKey c) then fallback else APIKey c) /\
    resolveAPIKey v fallback =
      (if isEmpty (APIKey c) then fallback else APIKey c).
Proof.
  exists (str "Bearer " ++ APIKey c). split; [reflexivity|].
  rewrite resolveAPIKey_getEffectiveKey, getEffectiveKey_bearer. split; [|now split].
  unfold GetAPIKey, TrimPrefix. now rewrite HasPrefix_app.
Qed.

Lemma headerGet_absent (h : Header) (k : gostring) :
  ~ In k (map fst h) -> headerGet h k = None.
Proof.
  induction h as [|[k' v] h IH]; simpl; [reflexivity|]. intros Hn.
  destruct (eqString k' k) eqn:E.
  - apply eqString_eq in E. tauto.
  - apply IH. tauto.
Qed.

Lemma forwardHeaders_lookup (client : Header) (k : gostring) :
  NoDup (map fst client) ->
  forall req,
    headerGet (forwardHeaders req client) k =
    if forwardedKey k
    then match headerGet client k with
         | Some v => Some v
         | None => headerGet req k
         end
    else headerGet req k.
Proof.
  induction client as [|[k' v] rest IH]; intros Hd req.
  - simpl. now destruct (forwardedKey k).
  - inversion Hd as [|? ? Hn Hd']; subst. unfold forwardHeaders in *.
    cbn [fold_left fst snd]. rewrite (IH Hd'). cbn [headerGet].
    destruct (eqString k' k) eqn:E.
    + apply eqString_eq in E. subst k'.
      rewrite (headerGet_absent rest k Hn).
      destruct (forwardedKey k); [|reflexivity].
      unfold headerAssign. cbn [headerGet]. now rewrite eqString_refl.
    + assert (Hsame : headerGet (if forwardedKey k'
                                 then headerAssign req k' v else req) k =
                      headerGet req k).
      { destruct (forwardedKey k'); [|reflexivity].
        unfold headerAssign. cbn [headerGet]. now rewrite E. }
      now rewrite Hsame.
Qed.

Lemma SetHeaders_keys (c : Client) (k : gostring) :
  forwardedKey k = true -> headerGet (SetHeaders c []) k = None.
Proof.
  intros Hf. unfold SetHeaders, headerAssign. cbn [headerGet].
  destruct (eqString (str "Accept") k) eqn:E1;
    [apply eqString_eq in E1; subst k; discriminate|].
  destruct (eqString (str "Authorization") k) eqn:E2;
    [apply eqString_eq in E2; subst k; discriminate|].
  destruct (eqString (str "Content-Type") k) eqn:E3;
    [apply eqString_eq in E3; subst k; discriminate|].
  reflexivity.
Qed.

(** X16.  The header of the upstream request holds the client's headers
    whose name begins with [X-] or is [Extra], with the client's values,
    and for every other name what [SetHeaders] has set, in whatever order
    the client's headers are visited.  So the [Authorization] header sent
    upstream is always [Bearer ] with the configured key: no
    [Authorization], [Content-Type] or [Accept] header of the client
    reaches the upstream server. *)
Theorem upstream_header_lookup (upstreamURL upstreamAPIKey : gostring)
    (client : Header) (k : gostring) :
  NoDup (map fst client) ->
  headerGet (upstreamHeader upstreamURL upstreamAPIKey client) k =
    (if forwardedKey k then headerGet client k
     else headerGet (SetHeaders (NewClient upstreamURL upstreamAPIKey) []) k) /\
  headerGet (upstreamHeader upstreamURL upstreamAPIKey client)
            (str "Authorization") =
    Some [str "Bearer " ++ upstreamAPIKey].
Proof.
  intros Hd. unfold upstreamHeader. split.
  - rewrite (forwardHeaders_lookup client k Hd).
    destruct (forwardedKey k) eqn:Hf; [|reflexivity].
    rewrite (SetHeaders_keys _ k Hf). now destruct (headerGet client k).
  - now rewrite (forwardHeaders_lookup client _ Hd).
Qed.

(** * Concrete streams

    The chunks below are those of the repository's tests
    ([TestToolCallTransformer_SSELog]) and of the scenarios of the
    specification; [testClock] stands for the clock of the test run, on a platform with a
    64-bit [int]. *)

Definition testClock (k : Z) : Z := 1772240451000%Z.

Definition feedTexts (t : ToolCallTransformer) (texts : list string)
    : ToolCallTransformer * list SSE :=
  run testClock 64%Z t (map (fun x => UpChunk (textChunk (str x))) texts).

(** The [finish_reason]s carried by the emitted frames. *)
Definition finishReasons (frames : list SSE) : list gostring :=
  flat_map (fun f => match chunkOf f with
                     | Some c => match Choices c with
                                 | c0 :: _ => match cFinishReason c0 with
                                              | Some fr => [fr]
                                              | None => []
                                              end
                                 | [] => []
                                 end
                     | None => []
                     end) frames.

Definition sectionCallHeader : string :=
  "<|tool_calls_section_begin|><|tool_call_begin|>bash:1<|tool_call_argument_begin|>".

(** A rewriter that has emitted the header of call 0 and reads its
    arguments. *)
Definition inArgs : ToolCallTransformer :=
  fst (feedTexts NewToolCallTransformer [sectionCallHeader]%string).

(** C1, counterexample.  In state ReadingArgs with an empty buffer the
    text [a<b] holds no [C_END]; the rewriter emits all of it, the byte [<]
    included, and keeps nothing, where the safe flush of the specification
    emits [a] and keeps [<b]. *)
Lemma safe_flush_counterexample :
  state inArgs = stateReadingArgs /\
  Index (buf inArgs ++ str "a<b") tokCallEnd = None /\
  argumentsFor 0 (snd (processEvent testClock 64%Z inArgs
                         (UpChunk (textChunk (str "a<b"))))) = str "a<b" /\
  ~ specSafeFlush testClock 64%Z inArgs (textChunk (str "a<b")) (str "a<b").
Proof.
  repeat split; try reflexivity.
  unfold specSafeFlush. intros H. vm_compute in H. discriminate H.
Qed.

Lemma argument_flush_witness :
  exists c,
    processEvent testClock 64%Z inArgs (UpChunk (textChunk (str "a<b"))) =
      (setBuf inArgs [], [JSONFrame ArgsDelta c]) /\
    argumentsOf c = buf inArgs ++ str "a<b".
Proof.
  apply (argument_flush testClock 64%Z inArgs (textChunk (str "a<b"))
           (mkChoice 0 (mkDelta [] (str "a<b") [] [] None) None) []);
    try reflexivity.
  vm_compute. discriminate.
Defined.

(** C2, counterexample.  The text [Hello <|tool_calls_section_begin|>] fed
    in one chunk gives the content [Hello ]; fed as [Hello ] and the
    delimiter, the first chunk takes the fast path (its text stays in the
    reasoning field) and no content is emitted. *)
Lemma chunk_boundary_counterexample :
  payload (snd (feedTexts NewToolCallTransformer
                  ["Hello "; "<|tool_calls_section_begin|>"]%string)) <>
  payload (snd (feedTexts NewToolCallTransformer
                  ["Hello <|tool_calls_section_begin|>"]%string)).
Proof. vm_compute. discriminate. Qed.

Definition partitionA : list Chunk :=
  map (fun x => textChunk (str x))
    ["Hi <|tool_calls_section_begin|><|tool_call_begin|>bash:1<|tool_call_arg";
     "ument_begin|>{a"]%string.

Definition lastA : Chunk := textChunk (str ":1}<|tool_call_end|>").

Definition unsplitA : Chunk :=
  textChunk (str
    "Hi <|tool_calls_section_begin|><|tool_call_begin|>bash:1<|tool_call_argument_begin|>{a:1}<|tool_call_end|>").

Lemma fragment_independence_witness :
  fst (run testClock 64%Z NewToolCallTransformer (map UpChunk (partitionA ++ [lastA]))) =
    fst (run testClock 64%Z NewToolCallTransformer (map UpChunk ([] ++ [unsplitA]))) /\
  payload (snd (run testClock 64%Z NewToolCallTransformer
                  (map UpChunk (partitionA ++ [lastA])))) =
    payload (snd (run testClock 64%Z NewToolCallTransformer
                    (map UpChunk ([] ++ [unsplitA])))).
Proof.
  apply (fragment_independence testClock 64%Z NewToolCallTransformer
           partitionA [] lastA unsplitA).
  - repeat constructor; discriminate.
  - repeat constructor; discriminate.
  - reflexivity.
  - intros _. split; reflexivity.
  - simpl. split; [right; left; reflexivity|].
    split; [right; right; split; reflexivity | exact I].
  - exact I.
Defined.

(** C3, the code at a split [C_END].  The argument span of call 0 is [{}];
    with [C_END] split across two chunks the arguments emitted for call 0
    are [{}<|tool_call_end|>], and the rewriter still reads arguments. *)
Lemma split_call_end_arguments :
  argumentsFor 0
    (snd (feedTexts NewToolCallTransformer
            [sectionCallHeader; "{}<|tool_call"; "_end|>"]%string)) =
    str "{}<|tool_call_end|>" /\
  state (fst (feedTexts NewToolCallTransformer
                [sectionCallHeader; "{}<|tool_call"; "_end|>"]%string)) =
    stateReadingArgs /\
  argumentsFor 0
    (snd (feedTexts NewToolCallTransformer
            [sectionCallHeader; "{}<|tool_call_end|>"]%string)) = str "{}".
Proof. repeat split. Qed.



(** The code at a finish chunk without text (scenario S5 of the
    specification, and the finish chunk of the repository's test): when
    the state is not Idle the chunk that carries the [finish_reason] gives
    no frame, and no frame of the stream carries a [finish_reason]; in
    state Idle the chunk passes through with it. *)
Lemma finish_chunk_dropped :
  processEvent testClock 64%Z inArgs (UpChunk (finishChunk [] (str "stop"))) =
    (inArgs, []) /\
  finishReasons
    (snd (run testClock 64%Z NewToolCallTransformer
            [UpChunk (textChunk (str sectionCallHeader));
             UpChunk (textChunk (str "{partial"));
             UpChunk (finishChunk [] (str "stop"))])) = [] /\
  finishReasons
    (snd (run testClock 64%Z NewToolCallTransformer
            [UpChunk (textChunk (str "Hello <|tool_calls_section_begin|>world"));
             UpChunk (textChunk (str
               " <|tool_call_begin|>bash<|tool_call_argument_begin|>{cmd:ls}<|tool_call_end|> <|tool_calls_section_end|> end"));
             UpChunk (finishChunk [] (str "stop"))])) = [] /\
  finishReasons
    (snd (run testClock 64%Z NewToolCallTransformer
            [UpChunk (textChunk (str "Here is the result: "));
             UpChunk (finishChunk [] (str "stop"))])) = [str "stop"]%string.
Proof. repeat split. Qed.

(** The rewriter of the repository's test after the section has ended. *)
Definition afterSection : ToolCallTransformer :=
  fst (feedTexts NewToolCallTransformer
         ["Hello <|tool_calls_section_begin|>world";
          " <|tool_call_begin|>bash<|tool_call_argument_begin|>{cmd:ls}<|tool_call_end|> <|tool_calls_section_end|> end"]%string).

(** C5, the code after the section end.  The text after [S_END] in the
    chunk that carries [S_END] is emitted as content ([ end]); the text of
    a later chunk is appended to [buf] and no frame is emitted. *)
Lemma trailing_text_dropped :
  state afterSection = stateTrailing /\
  processEvent testClock 64%Z afterSection (UpChunk (textChunk (str " more"))) =
    (setBuf afterSection (str " more"), []) /\
  emittedContent
    (snd (feedTexts NewToolCallTransformer
            ["Hello <|tool_calls_section_begin|>world";
             " <|tool_call_begin|>bash<|tool_call_argument_begin|>{cmd:ls}<|tool_call_end|> <|tool_calls_section_end|> end";
             " more"]%string)) = str "Hello  end".
Proof. repeat split. Qed.

(** C6, counterexample: the repository's test [spaces_preserved].  The
    reasoning text holds no delimiter and no content is emitted: the text
    stays in the reasoning field of the passthrough chunk. *)
Lemma content_conservation_counterexample :
  emittedContent (snd (feedTexts NewToolCallTransformer ["Here is the result: "]%string)) <>
  upstreamReasoning [textChunk (str "Here is the result: ")].
Proof. vm_compute. discriminate. Qed.

Lemma reasoning_bytes_conserved_witness :
  run testClock 64%Z NewToolCallTransformer
      (map UpChunk [textChunk (str "Here is the result: ")]) =
    (NewToolCallTransformer,
     map (fun c => JSONFrame Passthrough (promote c))
         [textChunk (str "Here is the result: ")]) /\
  emittedReasoning
    (snd (run testClock 64%Z NewToolCallTransformer
            (map UpChunk [textChunk (str "Here is the result: ")]))) =
    upstreamReasoning [textChunk (str "Here is the result: ")] /\
  emittedContent
    (snd (run testClock 64%Z NewToolCallTransformer
            (map UpChunk [textChunk (str "Here is the result: ")]))) =
    upstreamContent [textChunk (str "Here is the result: ")].
Proof.
  apply (reasoning_bytes_conserved testClock 64%Z NewToolCallTransformer
           [textChunk (str "Here is the result: ")]).
  - reflexivity.
  - repeat constructor.
Defined.



(** A rewriter in the pass that finds [A_BEG] after the raw identifier. *)
Definition readingID : ToolCallTransformer :=
  mkT stateReadingID (str " functions.bash:15 <|tool_call_argument_begin|>{") 0 [].

Lemma identifier_rules_witness :
  step testClock 64%Z readingID (textChunk []) =
    (mkT stateReadingArgs (str "{") 0 (str "call_0_1772240451000"),
     [makeToolCallHeader
        (mkT stateReadingArgs (str "{") 0 (str "call_0_1772240451000"))
        (textChunk []) (str "bash")],
     true).
Proof.
  exact (proj1 (identifier_rules testClock 64%Z readingID (textChunk []) 19
                  (mkChoice 0 (mkDelta [] [] [] [] None) None) []
                  eq_refl eq_refl eq_refl)).
Defined.

(** Scenario S2 of the specification. *)
Definition scenarioS2 : list SSE :=
  snd (feedTexts NewToolCallTransformer
         [("Thinking... " ++ sectionCallHeader)%string; "{cmd"; ": ls}";
          "<|tool_call_end|><|tool_calls_section_end|> Done!"]%string).

Lemma header_before_arguments_witness :
  (forall k, markOf (nth 3 scenarioS2 DoneFrame) = MArgs k ->
     exists pre1 h pre2,
       firstn 3 scenarioS2 = pre1 ++ h :: pre2 /\ markOf h = MHeader k /\
       Forall (fun g => plain (markOf g)) pre2) /\
  (markOf (nth 3 scenarioS2 DoneFrame) = MContent ->
     (exists h k, In h (firstn 3 scenarioS2) /\ markOf h = MHeader k) ->
     forall g j, In g (skipn 4 scenarioS2) ->
       markOf g <> MArgs j /\ markOf g <> MHeader j).
Proof.
  apply (header_before_arguments testClock 64%Z
           (map (fun x => UpChunk (textChunk (str x)))
              [("Thinking... " ++ sectionCallHeader)%string; "{cmd"; ": ls}";
               "<|tool_call_end|><|tool_calls_section_end|> Done!"]%string)
           (firstn 3 scenarioS2) (skipn 4 scenarioS2)
           (nth 3 scenarioS2 DoneFrame)).
  vm_compute. reflexivity.
Defined.

Lemma built_chunk_carries_finish_reason_witness :
  exists d,
    Choices (setDelta0 (shallowCopy (promote (finishChunk (str "{x}") (str "stop"))))
               (mkDelta [] [] []
                  [mkToolCall [] [] 0 (mkFunction [] (str "{x}"))] None)) =
    [mkChoice 0 d (Some (str "stop"))].
Proof.
  apply (built_chunk_carries_finish_reason testClock 64%Z inArgs
           (finishChunk (str "{x}") (str "stop"))
           (mkChoice 0 (mkDelta [] (str "{x}") [] [] (Some (str "stop"))) None)
           [] ArgsDelta).
  - reflexivity.
  - left. reflexivity.
  - discriminate.
Defined.

(** * Further concrete streams *)

(** The section of the repository's test [content_before_and_after_toolcall]
    in one chunk, with a second call that has its own id and no
    arguments. *)
Definition testCalls : list Call :=
  [mkCall (str "world ") (str "functions.bash:0") (str "{cmd:ls}");
   mkCall (str " ") (str "call_abc") []].

Definition wholeSection : Chunk :=
  textChunk (sectionText (str "Hello ") testCalls (str " ") (str " end")).

Lemma section_in_one_chunk_witness :
  let r := processEvent testClock 64%Z NewToolCallTransformer
             (UpChunk wholeSection) in
  state (fst r) = stateTrailing /\ buf (fst r) = [] /\
  toolIndex (fst r) = Nat.iter (length testCalls) (nextIndex 64%Z) 0%Z /\
  snd r = contentFrames (promote wholeSection) (str "Hello ") ++
          sectionFrames testClock 64%Z (promote wholeSection) 0 testCalls ++
          contentFrames (promote wholeSection) (str " end").
Proof.
  apply (section_in_one_chunk testClock 64%Z wholeSection
           (str "Hello ") (str " ") (str " end") testCalls).
  - discriminate.
  - reflexivity.
  - reflexivity.
  - repeat constructor.
  - reflexivity.
  - reflexivity.
Defined.

Lemma arguments_conserved_settled_witness :
  argumentsFor (toolIndex inArgs)
    (snd (run testClock 64%Z inArgs
            (map UpChunk ([textChunk (str "{cmd:")] ++
                          [textChunk (str "ls}<|tool_call_end|>")])))) =
  firstn 8 (buf inArgs ++
            flat_map reasoningTextOf
              ([textChunk (str "{cmd:")] ++
               [textChunk (str "ls}<|tool_call_end|>")])).
Proof.
  apply (arguments_conserved_settled testClock 64%Z inArgs
           [textChunk (str "{cmd:")] (textChunk (str "ls}<|tool_call_end|>")) 8).
  - repeat constructor; discriminate.
  - reflexivity.
  - unfold roomFor. vm_compute. repeat split; discriminate.
  - simpl. split; [right; right; split; reflexivity | exact I].
  - reflexivity.
Defined.

(** Two calls, the second in a chunk of its own. *)
Definition twoCalls : list Upstream :=
  map (fun x => UpChunk (textChunk (str x)))
    ["<|tool_calls_section_begin|><|tool_call_begin|>bash:1<|tool_call_argument_begin|>{}<|tool_call_end|>";
     "<|tool_call_begin|>read:2<|tool_call_argument_begin|>{}<|tool_call_end|><|tool_calls_section_end|>"]%string.

Lemma header_indices_sequential_witness :
  headerIndices (snd (run testClock 64%Z NewToolCallTransformer twoCalls)) =
  map Z.of_nat
      (seq 0 (length (headerIndices
                        (snd (run testClock 64%Z NewToolCallTransformer twoCalls))))).
Proof.
  apply (header_indices_sequential testClock 64%Z twoCalls).
  - reflexivity.
  - vm_compute. discriminate.
Defined.

(** A chunk that carries only usage, and has no choice. *)
Definition usageChunk : Chunk :=
  mkChunk (str "chatcmpl-1") (str "chat.completion.chunk") (str "test") 123
    [] (Some (mkUsage 10 20)).

Lemma no_passthrough_after_idle_witness :
  Forall (fun f => forall c, f = JSONFrame Passthrough c -> Choices c = [])
         (snd (run testClock 64%Z inArgs
                 [UpChunk (textChunk (str "{}")); UpChunk usageChunk; UpDone])).
Proof.
  apply (no_passthrough_after_idle testClock 64%Z inArgs
           [UpChunk (textChunk (str "{}")); UpChunk usageChunk; UpDone]).
  discriminate.
Defined.

Lemma textless_chunk_dropped_witness :
  processEvent testClock 64%Z
    (fst (run testClock 64%Z NewToolCallTransformer twoCalls))
    (UpChunk (finishChunk [] (str "stop"))) =
  (fst (run testClock 64%Z NewToolCallTransformer twoCalls), []).
Proof.
  apply (textless_chunk_dropped testClock 64%Z twoCalls
           (finishChunk [] (str "stop"))).
  - discriminate.
  - discriminate.
  - reflexivity.
Defined.

Lemma trailing_stream_swallowed_witness :
  run testClock 64%Z afterSection
      (map UpChunk [textChunk (str " more"); finishChunk [] (str "stop")]) =
  (feedBuf afterSection
     (flat_map reasoningTextOf
        [textChunk (str " more"); finishChunk [] (str "stop")]), []).
Proof.
  apply (trailing_stream_swallowed testClock 64%Z afterSection
           [textChunk (str " more"); finishChunk [] (str "stop")]).
  - reflexivity.
  - repeat constructor; discriminate.
Defined.

Lemma processReasoning_returns_witness :
  loop testClock 64%Z 100
       (feedBuf inArgs (str "{cmd:ls}<|tool_call_end|> <|tool_calls_section_end|>"))
       (textChunk []) [] =
    processReasoning testClock 64%Z inArgs (textChunk [])
      (str "{cmd:ls}<|tool_call_end|> <|tool_calls_section_end|>") /\
  snd (step testClock 64%Z
         (fst (processReasoning testClock 64%Z inArgs (textChunk [])
                 (str "{cmd:ls}<|tool_call_end|> <|tool_calls_section_end|>")))
         (textChunk [])) = false.
Proof.
  apply (processReasoning_returns testClock 64%Z inArgs (textChunk [])
           (str "{cmd:ls}<|tool_call_end|> <|tool_calls_section_end|>") 100).
  vm_compute. repeat constructor.
Defined.

(** The headers of a client's request: its own key, two headers that are
    forwarded and one that is not. *)
Definition clientHeader : Header :=
  [(str "Authorization", [str "Bearer client-key"]);
   (str "X-Request-Id", [str "42"]);
   (str "Extra", [str "e"]);
   (str "Accept", [str "text/html"])].

Lemma upstream_header_lookup_witness :
  headerGet (upstreamHeader (str "https://llm.example/v1") (str "proxy-key")
                            clientHeader) (str "X-Request-Id") =
    (if forwardedKey (str "X-Request-Id")
     then headerGet clientHeader (str "X-Request-Id")
     else headerGet (SetHeaders (NewClient (str "https://llm.example/v1")
                                           (str "proxy-key")) [])
                    (str "X-Request-Id")) /\
  headerGet (upstreamHeader (str "https://llm.example/v1") (str "proxy-key")
                            clientHeader) (str "Authorization") =
    Some [str "Bearer " ++ str "proxy-key"].
Proof.
  apply (upstream_header_lookup (str "https://llm.example/v1") (str "proxy-key")
           clientHeader (str "X-Request-Id")).
  repeat constructor; simpl; intuition discriminate.
Defined.

Lemma function_name_round_trip_witness :
  parseFunctionName (str "functions" ++ str "." ++ str "fs.read:v2" ++
                     str ":" ++ str "15") = str "fs.read:v2".
Proof.
  apply (function_name_round_trip (str "functions") (str "fs.read:v2") (str "15")).
  - simpl. intuition discriminate.
  - simpl. intuition discriminate.
  - reflexivity.
Defined.

(** A chunk with the reasoning text [{}] of a second stream: other
    identification fields, content, a [finish_reason] and usage. *)
Definition busyChunk : Chunk :=
  mkChunk (str "chatcmpl-2") (str "chat.completion.chunk") (str "other") 456
    [mkChoice 3 (mkDelta (str "dropped") (str "{}") [] [] None)
       (Some (str "stop"))]
    (Some (mkUsage 10 20)).

Lemma rewriting_reads_text_only_witness :
  fst (run testClock 64%Z inArgs (map UpChunk [textChunk (str "{}")])) =
    fst (run testClock 64%Z inArgs (map UpChunk [busyChunk])) /\
  items (snd (run testClock 64%Z inArgs (map UpChunk [textChunk (str "{}")]))) =
    items (snd (run testClock 64%Z inArgs (map UpChunk [busyChunk]))).
Proof.
  apply (rewriting_reads_text_only testClock 64%Z inArgs
           [textChunk (str "{}")] [busyChunk]).
  - discriminate.
  - repeat constructor; discriminate.
  - repeat constructor; discriminate.
  - reflexivity.
Defined.

(** A first chunk as chat-completion servers send it: the delta names the
    role beside the content. *)
Definition roleDelta : JSON :=
  JObject [(str "role", JString (str "assistant"));
           (str "content", JString (str "hi"))].

Definition roleChunk : Chunk :=
  mkChunk (str "c1") (str "chat.completion.chunk") (str "kimi") 1
    [mkChoice 0 (mkDelta (str "hi") [] [] [] None) None] None.

(** The delta [roleDelta] is decoded to the delta of [roleChunk]; the
    delta document of the frame holds the content and not the role. *)
Lemma passthrough_delta_document_witness :
  decodeDelta 64%Z (Some roleDelta) = Decoded (mkDelta (str "hi") [] [] [] None) /\
  deltaDocument (JSONFrame Passthrough (promote roleChunk)) =
    Some (JObject [(str "content", JString (str "hi"))]) /\
  exists f out,
    processEvent testClock 64%Z NewToolCallTransformer (UpChunk roleChunk) =
      (NewToolCallTransformer, [f]) /\
    deltaDocument f = Some out /\
    Forall (fun n => In n declaredInDelta) (memberNames out) /\
    decodeDelta 64%Z (Some out) =
      Decoded (clearFinish (mkDelta (str "hi") [] [] [] None)).
Proof.
  split; [reflexivity|split; [reflexivity|]].
  exact (passthrough_delta_document testClock 64%Z NewToolCallTransformer
           roleChunk (mkChoice 0 (mkDelta (str "hi") [] [] [] None) None) []
           roleDelta eq_refl eq_refl eq_refl eq_refl eq_refl).
Defined.
